(** * Captacao liquida de fundos (CVM): aggregation, rolling windows, snapshot

    A shallow embedding of the data-frame pipeline of [fundos_capt.py]
    (sections 6, 7, 8, 10 and 12 of the script) and the properties of its
    core: one row per fund and date, trailing calendar-day sums, and the
    last-day cut; then the rest of the script around that core: the months
    to download, loading and types, the register of funds, the final check,
    the final layout and the pages of the PDF.

    Conventions of the embedding.
    - The script is a sequence of pandas calls on one frame; each call is
      embedded by what pandas computes for it: [groupby] as one pass over
      the rows with an accumulator per key, [rolling(offset).sum()] as the
      positional window bounds of each row followed by the running sum that
      adds the cells entering a window and removes those leaving it, and
      column assignment as the positional copy it is when the two indexes
      are equal.  Where pandas raises, the stage returns [None].
    - A data frame is the list of its rows, in row order.
    - [Data_Comptc] is a [datetime64] column holding midnights; a value is
      the day number counted from 1970-01-01, and [None] is [NaT].
    - [Captacao_Liquida] is a [float64] column.  The pipeline is embedded
      over exact integer amounts, [None] being [NaN]: it is the script on
      the frames whose amounts are integers with absolute values adding up
      to less than [2 ^ 53], on which binary64 forms every sum without
      rounding.  What is stated on it does not depend on a sum being exact.
    - The running sum behind [rolling(...).sum()] is also embedded as pandas
      computes it, on binary64 cells with its compensated additions and
      removals ([Binary64]); what depends on rounding is stated there, and
      what holds of integer amounts is stated for the bounds up to which
      binary64 computes on integers exactly ([Integers.exact_upto]).
    - [CNPJ_FUNDO_CLASSE] is a string: line 101 turns every cell into text
      before stripping the non-digits, so it is never missing. *)

From Stdlib Require Import ZArith List String Ascii Bool Lia Arith.
From Stdlib Require Import OrderedTypeEx Sorted Permutation Floats.
Import ListNotations.

Local Open Scope Z_scope.

(** ** Calendar dates as day numbers *)

Module Calendar.

(** Day number of the proleptic Gregorian date [y-m-d], 1970-01-01 being
    day 0: what [pd.to_datetime] stores for a date, in days. *)
Definition days_from_civil (y m d : Z) : Z :=
  let y' := if m <=? 2 then y - 1 else y in
  let era := y' / 400 in
  let yoe := y' - era * 400 in
  let mp := if 2 <? m then m - 3 else m + 9 in
  let doy := (153 * mp + 2) / 5 + d - 1 in
  let doe := yoe * 365 + yoe / 4 - yoe / 100 + doy in
  era * 146097 + doe - 719468.

End Calendar.

(** ** Rows *)

(** A row of [df] after the type conversions of section 5 of the script. *)
Record Row : Type := mkRow {
  CNPJ_FUNDO_CLASSE : string;
  Data_Comptc : option Z;
  Captacao_Liquida : option Z
}.

(** A numeric cell as a term of a sum that skips [NaN]. *)
Definition nan_to_zero (v : option Z) : Z :=
  match v with Some x => x | None => 0 end.

(** ** Orders on the grouping keys *)

(** The key of [groupby(["CNPJ_FUNDO_CLASSE", "Data_Comptc"])]. *)
Definition key : Type := (string * Z)%type.

Definition key_compare (a b : key) : comparison :=
  match String.compare (fst a) (fst b) with
  | Eq => Z.compare (snd a) (snd b)
  | Lt => Lt
  | Gt => Gt
  end.

(** [groupby] drops a row whose key holds a missing value ([dropna=True]). *)
Definition row_key (r : Row) : option key :=
  match Data_Comptc r with
  | Some d => Some (CNPJ_FUNDO_CLASSE r, d)
  | None => None
  end.

(** ** Keyed accumulators: the engine of [groupby]

    [groupby(..., sort=True)] walks the rows once and keeps one accumulator
    per distinct key; its result lists the keys in ascending order.  The
    accumulators are kept here as an association list in ascending key order,
    [group_upd] being the update for one row. *)

Section GroupBy.

Context {K A : Type}.
Variable cmp : K -> K -> comparison.

Fixpoint group_upd (k : K) (f : option A -> A) (acc : list (K * A))
  : list (K * A) :=
  match acc with
  | [] => [(k, f None)]
  | (k', a) :: rest =>
      match cmp k k' with
      | Lt => (k, f None) :: acc
      | Eq => (k', f (Some a)) :: rest
      | Gt => (k', a) :: group_upd k f rest
      end
  end.

Fixpoint group_get (k : K) (acc : list (K * A)) : option A :=
  match acc with
  | [] => None
  | (k', a) :: rest =>
      match cmp k k' with
      | Eq => Some a
      | _ => group_get k rest
      end
  end.

(** One pass over the rows: [keyof] gives the key of a row ([None]: the
    row is dropped), [upd r] the new accumulator of its group. *)
Definition group_fold {R : Type} (keyof : R -> option K)
    (upd : R -> option A -> A) (df : list R) (acc : list (K * A))
  : list (K * A) :=
  fold_left
    (fun acc r =>
       match keyof r with
       | Some k => group_upd k (upd r) acc
       | None => acc
       end)
    df acc.

End GroupBy.

(** ** Section 6 of the script: one row per fund and date *)

(** The running total of a group, 0 before its first row. *)
Definition so_far (old : option Z) : Z :=
  match old with Some s => s | None => 0 end.

(** [agg({"Captacao_Liquida": "sum"})]: the sum starts from 0, takes the
    rows of the group in row order and skips [NaN]; on exact amounts. *)
Definition sum_upd (r : Row) (old : option Z) : Z :=
  so_far old + nan_to_zero (Captacao_Liquida r).

Definition agg_row (ka : key * Z) : Row :=
  mkRow (fst (fst ka)) (Some (snd (fst ka))) (Some (snd ka)).

(** [df.groupby(["CNPJ_FUNDO_CLASSE", "Data_Comptc"], as_index=False)
       .agg({"Captacao_Liquida": "sum"})] *)
Definition groupby_sum (df : list Row) : list Row :=
  map agg_row (group_fold key_compare row_key sum_upd df []).

(** Lines 118-122. *)
Definition df_agg (df : list Row) : list Row := groupby_sum df.

(** ** Section 7 of the script: detection of duplicated keys *)

Definition size_upd (r : Row) (old : option Z) : Z :=
  so_far old + 1.

(** Line 137: [groupby([...]).size()]. *)
Definition duplicados (df : list Row) : list (key * Z) :=
  group_fold key_compare row_key size_upd df [].

(** Line 138: [(duplicados > 1).sum()]. *)
Definition n_duplicados (df : list Row) : Z :=
  Z.of_nat (List.length (filter (fun kn => 1 <? snd kn) (duplicados df))).

(** Lines 140-152: aggregate again when a duplicated key is seen. *)
Definition validacao (df : list Row) : list Row :=
  if 0 <? n_duplicados df then groupby_sum df else df.

(** ** Section 8 of the script: trailing windows of 30, 90 and 180 days *)

Notation "x <- c ;; k" := (match c with Some x => k | None => None end)
  (at level 61, c at next level, right associativity).

(** *** Line 162: [sort_values(["CNPJ_FUNDO_CLASSE", "Data_Comptc"])] *)

(** Missing dates go last ([na_position="last"]). *)
Definition date_compare (a b : option Z) : comparison :=
  match a, b with
  | Some x, Some y => Z.compare x y
  | Some _, None => Lt
  | None, Some _ => Gt
  | None, None => Eq
  end.

Definition sort_compare (r1 r2 : Row) : comparison :=
  match String.compare (CNPJ_FUNDO_CLASSE r1) (CNPJ_FUNDO_CLASSE r2) with
  | Eq => date_compare (Data_Comptc r1) (Data_Comptc r2)
  | Lt => Lt
  | Gt => Gt
  end.

Fixpoint sort_insert (r : Row) (sorted : list Row) : list Row :=
  match sorted with
  | [] => [r]
  | x :: rest =>
      match sort_compare r x with
      | Lt => r :: sorted
      | _ => x :: sort_insert r rest
      end
  end.

(** A stable sort on the two columns, as the multi-column sort is. *)
Definition sort_values (df : list Row) : list Row :=
  fold_left (fun sorted r => sort_insert r sorted) df [].

(** *** Line 165: [set_index("Data_Comptc")] and the checks of [rolling] *)

(** The frame with its time index, or [None] where [rolling] raises because
    the index holds [NaT]. *)
Fixpoint set_index (df : list Row) : option (list (Z * Row)) :=
  match df with
  | [] => Some []
  | r :: rest =>
      d <- Data_Comptc r ;;
      idf <- set_index rest ;;
      Some ((d, r) :: idf)
  end.

Fixpoint is_monotonic_increasing (index : list Z) : bool :=
  match index with
  | a :: (b :: _) as rest => (a <=? b) && is_monotonic_increasing rest
  | _ => true
  end.

Fixpoint is_monotonic_decreasing (index : list Z) : bool :=
  match index with
  | a :: (b :: _) as rest => (b <=? a) && is_monotonic_decreasing rest
  | _ => true
  end.

(** *** The window of each row: positions [start, end) in a group

    [rolling("30D")] is a window over the time index, closed on the right
    and open on the left.  For a group whose index is [index], row [i] gets
    the rows at positions [start i <= j < end i]; the start only moves
    forward from one row to the next. *)

Module Window.

(** [for j in range(j0, j0 + n)]: the first [j] whose index is past
    [start_bound], or [j0 + n] (the row itself) when there is none. *)
Fixpoint find_start (index : list Z) (start_bound sign : Z) (j n : nat)
  : nat :=
  match n with
  | O => j
  | S n' =>
      if 0 <? (nth j index 0 - start_bound) * sign then j
      else find_start index start_bound sign (S j) n'
  end.

Definition index_growth_sign (index : list Z) : Z :=
  if last index 0 <? hd 0 index then -1 else 1.

(** Rows [i, i + n), given the bounds [prev] of row [i - 1]. *)
Fixpoint bounds_loop (index : list Z) (window_size sign : Z)
    (i : nat) (prev : nat * nat) (n : nat) : list (nat * nat) :=
  match n with
  | O => []
  | S n' =>
      let end_bound := nth i index 0 in
      let start_bound := end_bound - sign * window_size in
      let s := find_start index start_bound sign (fst prev) (i - fst prev) in
      let e :=
        if (nth (snd prev) index 0 - end_bound) * sign <=? 0
        then S i else snd prev in
      (s, e) :: bounds_loop index window_size sign (S i) (s, e) n'
  end.

(** The bounds of every row of a group, for [closed="right"]. *)
Definition window_bounds (index : list Z) (window_size : Z)
  : list (nat * nat) :=
  match index with
  | [] => []
  | _ :: rest =>
      (0%nat, 1%nat)
        :: bounds_loop index window_size (index_growth_sign index)
             1 (0%nat, 1%nat) (List.length rest)
  end.

End Window.

(** *** The running sum over the windows, on exact amounts

    The loop of [roll_sum] with the number of observations and their exact
    sum as its state; [Binary64] below is the same loop on binary64
    cells. *)

Module RollSum.

(** Number of observations and their sum, [NaN] left out of both. *)
Record state : Type := mkState { nobs : Z; sum_x : Z }.

Definition empty : state := mkState 0 0.

Definition add_sum (st : state) (val : option Z) : state :=
  match val with
  | Some v => mkState (nobs st + 1) (sum_x st + v)
  | None => st
  end.

Definition remove_sum (st : state) (val : option Z) : state :=
  match val with
  | Some v => mkState (nobs st - 1) (sum_x st - v)
  | None => st
  end.

(** [min_periods]: fewer observations than [minp] give [NaN]. *)
Definition calc_sum (minp : Z) (st : state) : option Z :=
  if (nobs st =? 0) && (minp =? 0) then Some 0
  else if minp <=? nobs st then Some (sum_x st)
  else None.

(** [for j in range(a, b)] over the cells of [values]. *)
Definition over (step : state -> option Z -> state)
    (values : list (option Z)) (a b : nat) (st : state) : state :=
  fold_left (fun st j => step st (nth j values None)) (seq a (b - a)) st.

Fixpoint bounds_increasing (bounds : list (nat * nat)) : bool :=
  match bounds with
  | p :: (q :: _) as rest =>
      (fst p <=? fst q)%nat && (snd p <=? snd q)%nat
        && bounds_increasing rest
  | _ => true
  end.

(** The rows after the first: [prev] holds the bounds of the row before
    and [st] the state left by it. *)
Fixpoint roll_loop (values : list (option Z)) (minp : Z) (mono : bool)
    (prev : option (nat * nat)) (st : state) (bounds : list (nat * nat))
  : list (option Z) :=
  match bounds with
  | [] => []
  | (s, e) :: rest =>
      let st' :=
        match prev with
        | Some (s0, e0) =>
            if negb mono || (e0 <=? s)%nat
            then over add_sum values s e empty
            else over add_sum values e0 e (over remove_sum values s0 s st)
        | None => over add_sum values s e empty
        end in
      calc_sum minp st'
        :: roll_loop values minp mono (Some (s, e))
             (if mono then st' else empty) rest
  end.

Definition roll_sum (values : list (option Z)) (bounds : list (nat * nat))
    (minp : Z) : list (option Z) :=
  roll_loop values minp (bounds_increasing bounds) None empty bounds.

End RollSum.

(** [rolling(window, min_periods).sum()] over one group. *)
Definition rolling_sum (window_size minp : Z) (group : list (Z * Row))
  : list (option Z) :=
  RollSum.roll_sum
    (map (fun ir => Captacao_Liquida (snd ir)) group)
    (Window.window_bounds (map fst group) window_size)
    minp.

(** *** The running sum on binary64 cells

    The cells of [Captacao_Liquida] are binary64 numbers, and [roll_sum]
    keeps its running sum in binary64: the additions and the removals are
    compensated (Kahan) separately, and a window whose observations all
    repeat one value gives that value times their number.  A cell that is
    not equal to itself is [NaN] and is skipped. *)

Module Binary64.

Record state : Type := mkState {
  nobs : Z;
  sum_x : float;
  compensation_add : float;
  compensation_remove : float;
  num_consecutive_same_value : Z;
  prev_value : float
}.

(** The state set up for a window whose first cell is [first]. *)
Definition setup (first : float) : state :=
  mkState 0 0%float 0%float 0%float 0 first.

Definition add_sum (st : state) (val : float) : state :=
  if PrimFloat.eqb val val then
    let y := PrimFloat.sub val (compensation_add st) in
    let t := PrimFloat.add (sum_x st) y in
    mkState (nobs st + 1) t
      (PrimFloat.sub (PrimFloat.sub t (sum_x st)) y)
      (compensation_remove st)
      (if PrimFloat.eqb val (prev_value st)
       then num_consecutive_same_value st + 1 else 1)
      val
  else st.

Definition remove_sum (st : state) (val : float) : state :=
  if PrimFloat.eqb val val then
    let y := PrimFloat.sub (PrimFloat.opp val) (compensation_remove st) in
    let t := PrimFloat.add (sum_x st) y in
    mkState (nobs st - 1) t
      (compensation_add st)
      (PrimFloat.sub (PrimFloat.sub t (sum_x st)) y)
      (num_consecutive_same_value st)
      (prev_value st)
  else st.

(** A count as a binary64 number. *)
Definition of_int64 (n : Z) : float :=
  if n <? 0 then PrimFloat.opp (PrimFloat.of_uint63 (Uint63.of_Z (- n)))
  else PrimFloat.of_uint63 (Uint63.of_Z n).

Definition calc_sum (minp : Z) (st : state) : float :=
  if (nobs st =? 0) && (minp =? 0) then 0%float
  else if minp <=? nobs st then
    if nobs st <=? num_consecutive_same_value st
    then PrimFloat.mul (prev_value st) (of_int64 (nobs st))
    else sum_x st
  else nan.

(** [for j in range(a, b)] over the cells of [values]. *)
Definition over (step : state -> float -> state)
    (values : list float) (a b : nat) (st : state) : state :=
  fold_left (fun st j => step st (nth j values nan)) (seq a (b - a)) st.

(** The window [s, e) summed from its first cell on. *)
Definition from_scratch (values : list float) (s e : nat) : state :=
  over add_sum values s e (setup (nth s values nan)).

(** The window [s, e) out of the state [st] left by the window [s0, e0):
    the cells that left are removed, then the cells that entered are
    added. *)
Definition slide (values : list float) (s0 e0 : nat) (st : state)
    (s e : nat) : state :=
  over add_sum values e0 e (over remove_sum values s0 s st).

(** What is cleared after a row when the bounds are not monotonic. *)
Definition reset (st : state) : state :=
  mkState 0 0%float (compensation_add st) 0%float
    (num_consecutive_same_value st) (prev_value st).

(** The state behind the output of every row: [prev] holds the bounds of
    the row before and [st] the state left by it. *)
Fixpoint roll_loop (values : list float) (mono : bool)
    (prev : option (nat * nat)) (st : state) (bounds : list (nat * nat))
  : list state :=
  match bounds with
  | [] => []
  | (s, e) :: rest =>
      let st' :=
        match prev with
        | Some (s0, e0) =>
            if negb mono || (e0 <=? s)%nat
            then from_scratch values s e
            else slide values s0 e0 st s e
        | None => from_scratch values s e
        end in
      st' :: roll_loop values mono (Some (s, e))
               (if mono then st' else reset st') rest
  end.

Definition roll_states (values : list float) (bounds : list (nat * nat))
  : list state :=
  roll_loop values (RollSum.bounds_increasing bounds) None (setup 0%float)
    bounds.

Definition roll_sum (values : list float) (bounds : list (nat * nat))
    (minp : Z) : list float :=
  map (calc_sum minp) (roll_states values bounds).

(** [rolling(window, min_periods).sum()] over the series of one fund: its
    days and its binary64 flows. *)
Definition rolling_sum (window_size minp : Z) (series : list (Z * float))
  : list float :=
  roll_sum (map snd series)
    (Window.window_bounds (map fst series) window_size) minp.

End Binary64.

(** *** Lines 175-196: the three columns *)

Definition rows_upd {R : Type} (r : R) (old : option (list R)) : list R :=
  match old with
  | Some g => g ++ [r]
  | None => [r]
  end.

(** [groupby("CNPJ_FUNDO_CLASSE")]: the rows of each fund, in row order,
    the funds in ascending order. *)
Definition grupos (idf : list (Z * Row)) : list (string * list (Z * Row)) :=
  group_fold String.compare
    (fun ir => Some (CNPJ_FUNDO_CLASSE (snd ir))) rows_upd idf [].

(** [rolling] wants the time index of every group monotonic. *)
Definition group_is_monotonic (g : list (Z * Row)) : bool :=
  is_monotonic_increasing (map fst g) || is_monotonic_decreasing (map fst g).

(** [df.groupby("CNPJ_FUNDO_CLASSE")["Captacao_Liquida"]
       .rolling(window, min_periods).sum().reset_index(level=0, drop=True)]:
    a series indexed by date, group after group; [None] where [rolling]
    raises. *)
Definition groupby_rolling_sum (window_size minp : Z) (idf : list (Z * Row))
  : option (list (Z * option Z)) :=
  let gs := grupos idf in
  if forallb (fun g => group_is_monotonic (snd g)) gs
  then
    Some
      (flat_map
         (fun g => combine (map fst (snd g))
                     (rolling_sum window_size minp (snd g)))
         gs)
  else None.

Fixpoint index_equals (a b : list Z) : bool :=
  match a, b with
  | [], [] => true
  | x :: a', y :: b' => (x =? y) && index_equals a' b'
  | _, _ => false
  end.

Fixpoint is_unique (index : list Z) : bool :=
  match index with
  | [] => true
  | x :: rest => negb (existsb (Z.eqb x) rest) && is_unique rest
  end.

Definition loc (d : Z) (value : list (Z * option Z)) : option Z :=
  match find (fun p => fst p =? d) value with
  | Some p => snd p
  | None => None
  end.

(** [df[col] = value]: the cells of [value] are taken in order when its
    index equals the index of the frame and looked up by label otherwise,
    which fails on a duplicated label.  (The series has one cell per row of
    the frame, so the shortcut for an empty frame is the first case.) *)
Definition setitem (df_index : list Z) (value : list (Z * option Z))
  : option (list (option Z)) :=
  if index_equals (map fst value) df_index then Some (map snd value)
  else if is_unique (map fst value)
       then Some (map (fun d => loc d value) df_index)
       else None.

(** One of lines 175-180, 183-188, 191-196; [min_periods=1]. *)
Definition Captacao_ND (window_size : Z) (idf : list (Z * Row))
  : option (list (option Z)) :=
  value <- groupby_rolling_sum window_size 1 idf ;;
  setitem (map fst idf) value.

(** A row of the frame with its three window columns. *)
Record WRow : Type := mkWRow {
  base : Row;
  Captacao_30D : option Z;
  Captacao_90D : option Z;
  Captacao_180D : option Z
}.

Fixpoint with_columns (df : list Row) (c30 c90 c180 : list (option Z))
  : list WRow :=
  match df, c30, c90, c180 with
  | r :: df', a :: c30', b :: c90', c :: c180' =>
      mkWRow r a b c :: with_columns df' c30' c90' c180'
  | _, _, _, _ => []
  end.

(** Lines 162-199. *)
Definition etapa_rolling (df : list Row) : option (list WRow) :=
  let df := sort_values df in
  idf <- set_index df ;;
  c30 <- Captacao_ND 30 idf ;;
  c90 <- Captacao_ND 90 idf ;;
  c180 <- Captacao_ND 180 idf ;;
  Some (with_columns df c30 c90 c180).

(** ** Section 10 of the script: the names of the funds *)

Record MRow : Type := mkMRow {
  windowed : WRow;
  DENOM_SOCIAL : option string
}.

(** Lines 235-240: a left join on the fund; [df_cad] pairs a normalised
    [CNPJ_FUNDO] with its [DENOM_SOCIAL]. *)
Definition merge_cad (df : list WRow) (df_cad : list (string * option string))
  : list MRow :=
  flat_map
    (fun w =>
       match
         filter (fun c => String.eqb (CNPJ_FUNDO_CLASSE (base w)) (fst c))
           df_cad
       with
       | [] => [mkMRow w None]
       | found => map (fun c => mkMRow w (snd c)) found
       end)
    df.

(** ** Section 12 of the script: the most recent day *)

Definition data_of (m : MRow) : option Z := Data_Comptc (base (windowed m)).

(** Line 273: [df["Data_Comptc"].max()], [NaT] skipped; [NaT] when there is
    no date at all. *)
Definition data_maxima (df : list MRow) : option Z :=
  fold_left
    (fun best m =>
       match data_of m, best with
       | Some d, Some b => Some (Z.max b d)
       | Some d, None => Some d
       | None, _ => best
       end)
    df None.

(** [==] on dates: [NaT] equals nothing. *)
Definition date_eqb (a b : option Z) : bool :=
  match a, b with
  | Some x, Some y => x =? y
  | _, _ => false
  end.

(** Line 276. *)
Definition df_filtrado (df : list MRow) : list MRow :=
  filter (fun m => date_eqb (data_of m) (data_maxima df)) df.

(** ** The core pipeline, sections 6 to 12 *)

Definition pipeline (df : list Row) (df_cad : list (string * option string))
  : option (list MRow) :=
  w <- etapa_rolling (validacao (df_agg df)) ;;
  Some (df_filtrado (merge_cad w df_cad)).

(** * Vocabulary of the properties *)

(** ** Orders and ascending lists *)

Record total_order {K : Type} (cmp : K -> K -> comparison) : Prop := {
  cmp_eq : forall a b, cmp a b = Eq <-> a = b;
  cmp_antisym : forall a b, cmp a b = CompOpp (cmp b a);
  cmp_trans : forall a b c, cmp a b = Lt -> cmp b c = Lt -> cmp a c = Lt
}.

Section OrderNotions.

Context {K : Type}.
Variable cmp : K -> K -> comparison.

Definition before (a b : K) : Prop := cmp a b = Lt.

Definition not_after (a b : K) : Prop := cmp a b <> Gt.

(** The keys of an accumulator list, strictly ascending. *)
Definition ascending {A : Type} (acc : list (K * A)) : Prop :=
  StronglySorted before (map fst acc).

(** What one key sees of a pass of [group_fold]: the updates of its own
    rows. *)
Definition own_updates {A R : Type} (keyof : R -> option K)
    (upd : R -> option A -> A) (k : K) (df : list R) (start : option A)
  : option A :=
  fold_left
    (fun o r =>
       match keyof r with
       | Some k0 =>
           match cmp k0 k with Eq => Some (upd r o) | _ => o end
       | None => o
       end)
    df start.

Definition is_key {R : Type} (keyof : R -> K) (k : K) (r : R) : bool :=
  match cmp (keyof r) k with Eq => true | _ => false end.

End OrderNotions.

Definition or_nil {R : Type} (old : option (list R)) : list R :=
  match old with Some g => g | None => [] end.

(** ** Keys and sums of flows *)

(** The accumulators behind [df_agg]. *)
Definition accumulators (df : list Row) : list (key * Z) :=
  group_fold key_compare row_key sum_upd df [].

(** The two key columns of a row. *)
Definition key_columns (r : Row) : string * option Z :=
  (CNPJ_FUNDO_CLASSE r, Data_Comptc r).

(** [r] carries the key (fund [e], day [d]). *)
Definition has_key (e : string) (d : Z) (r : Row) : bool :=
  String.eqb (CNPJ_FUNDO_CLASSE r) e && date_eqb (Data_Comptc r) (Some d).

(** The valid (numeric) flows of some rows, and the sum of a list. *)
Definition valid_values (rows : list Row) : list Z :=
  flat_map
    (fun r => match Captacao_Liquida r with Some v => [v] | None => [] end)
    rows.

Definition total (l : list Z) : Z := fold_right Z.add 0 l.

(** ** Windows by position and by date *)

Module Cells.

Import RollSum.

(** The cells at positions [a <= j < b]. *)
Definition cells (values : list (option Z)) (a b : nat) : list (option Z) :=
  map (fun j => nth j values None) (seq a (b - a)).

(** Observations and sum of some cells, counted from scratch. *)
Definition summary (l : list (option Z)) : state :=
  fold_left add_sum l empty.

Definition plus (x y : state) : state :=
  mkState (nobs x + nobs y) (sum_x x + sum_x y).

Definition minus (x y : state) : state :=
  mkState (nobs x - nobs y) (sum_x x - sum_x y).

End Cells.

(** The bounds [se] are those of the window [(d - W, d]] of row [i]: the
    rows before [fst se] are dated [d - W] or earlier, the row at [fst se]
    is not, and [snd se] is just past row [i]. *)
Definition window_of (index : list Z) (W : Z) (i : nat) (se : nat * nat)
  : Prop :=
  snd se = S i
  /\ (fst se <= i)%nat
  /\ (forall j, (j < fst se)%nat -> nth j index 0 <= nth i index 0 - W)
  /\ nth i index 0 - W < nth (fst se) index 0.

(** Day [t] lies in the window of width [W] ending at day [d]:
    [d - W < t <= d]. *)
Definition in_window (W d t : Z) : bool := (d - W <? t) && (t <=? d).

Definition valor (ir : Z * Row) : option Z := Captacao_Liquida (snd ir).

(** What [rolling(W, minp).sum()] must give at day [d] of group [g]. *)
Definition window_result (W minp : Z) (g : list (Z * Row)) (d : Z)
  : option Z :=
  RollSum.calc_sum minp
    (Cells.summary
       (map valor (filter (fun jr => in_window W d (fst jr)) g))).

Definition no_row : Z * Row := (0, mkRow EmptyString None None).

(** The aggregated frame is [map agg_row acc] for an ascending [acc]; with
    its time index it is [map irow acc]. *)
Definition irow (ka : key * Z) : Z * Row := (snd (fst ka), agg_row ka).

Definition fundo (ir : Z * Row) : string := CNPJ_FUNDO_CLASSE (snd ir).

Definition do_fundo (e : string) (ka : key * Z) : bool :=
  match String.compare (fst (fst ka)) e with Eq => true | _ => false end.

(** Row [a] is of fund [e] and its day [t] satisfies [d - W < t <= d]. *)
Definition fund_window (W : Z) (e : string) (d : Z) (a : Row) : bool :=
  String.eqb (CNPJ_FUNDO_CLASSE a) e
  && match Data_Comptc a with
     | Some t => in_window W d t
     | None => false
     end.

(** The sum of the flows of fund [e] in the frame [agg] over the window of
    width [W] days ending at day [d]. *)
Definition window_total (W : Z) (agg : list Row) (e : string) (d : Z) : Z :=
  total (valid_values (filter (fund_window W e d) agg)).

Definition janela (W : Z) (agg : list Row) (r : Row) : option Z :=
  match Data_Comptc r with
  | Some d => Some (window_total W agg (CNPJ_FUNDO_CLASSE r) d)
  | None => None
  end.

(** No row of the fund of [r] in [agg] is dated before [r]. *)
Definition first_of_series (agg : list Row) (r : Row) : Prop :=
  forall a t d,
    In a agg ->
    CNPJ_FUNDO_CLASSE a = CNPJ_FUNDO_CLASSE r ->
    Data_Comptc a = Some t -> Data_Comptc r = Some d ->
    d <= t.

(** ** Windows of a binary64 series *)

Module Series.

Definition no_record : Z * float := (0, nan).

Definition no_state : Binary64.state := Binary64.setup nan.

(** The cells at positions [a <= j < b]. *)
Definition cells (values : list float) (a b : nat) : list float :=
  map (fun j => nth j values nan) (seq a (b - a)).

(** The records of the series dated in the window of width [W] days that
    ends at the day of record [i]. *)
Definition window_records (W : Z) (series : list (Z * float)) (i : nat)
  : list (Z * float) :=
  filter (fun r => in_window W (fst (nth i series no_record)) (fst r)) series.

(** The sum stored for record [i] in the column of width [W] days. *)
Definition column (W : Z) (series : list (Z * float)) (i : nat) : float :=
  nth i (Binary64.rolling_sum W 1 series) nan.

End Series.

(** ** Integer amounts in binary64 *)

Module Integers.

(** An integer amount as the binary64 cell that holds it. *)
Definition cell (v : Z) : float := Binary64.of_int64 v.

Definition series (zs : list (Z * Z)) : list (Z * float) :=
  map (fun r => (fst r, cell (snd r))) zs.

(** What [remove_sum] adds to the running sum to take a cell [y] out. *)
Definition removed (y : float) : float :=
  PrimFloat.sub (PrimFloat.opp y) 0%float.

(** Binary64 computes on the integers of absolute value at most [B]
    without rounding: each operation of the running sum gives the cell of
    the exact result. *)
Definition exact_upto (B : Z) : Prop :=
  forall a b : Z,
    Z.abs a <= B -> Z.abs b <= B ->
    (Z.abs (a + b) <= B -> PrimFloat.add (cell a) (cell b) = cell (a + b))
    /\ (Z.abs (a - b) <= B -> PrimFloat.sub (cell a) (cell b) = cell (a - b))
    /\ (Z.abs (a - b) <= B ->
        PrimFloat.add (cell a) (removed (cell b)) = cell (a - b))
    /\ PrimFloat.sub (cell (- b)) (removed (cell b)) = 0%float
    /\ (0 < b -> Z.abs (a * b) <= B ->
        PrimFloat.mul (cell a) (cell b) = cell (a * b))
    /\ PrimFloat.eqb (cell a) (cell b) = (a =? b)
    /\ PrimFloat.leb (cell a) (cell b) = (a <=? b).

(** The integers from [- B] to [B]. *)
Definition upto (B : Z) : list Z :=
  map (fun n => Z.of_nat n - B) (seq 0 (Z.to_nat (2 * B + 1))).

Definition guarded (B x : Z) (test : bool) : bool :=
  negb (Z.abs x <=? B) || test.

(** [exact_upto] as a test that runs the operations on one pair, and on
    the finitely many pairs. *)
Definition exact_pair (B a b : Z) : bool :=
  guarded B (a + b)
    (PrimFloat.Leibniz.eqb (PrimFloat.add (cell a) (cell b)) (cell (a + b)))
  && guarded B (a - b)
       (PrimFloat.Leibniz.eqb (PrimFloat.sub (cell a) (cell b)) (cell (a - b)))
  && guarded B (a - b)
       (PrimFloat.Leibniz.eqb (PrimFloat.add (cell a) (removed (cell b)))
          (cell (a - b)))
  && PrimFloat.Leibniz.eqb (PrimFloat.sub (cell (- b)) (removed (cell b)))
       0%float
  && (negb (0 <? b)
      || guarded B (a * b)
           (PrimFloat.Leibniz.eqb (PrimFloat.mul (cell a) (cell b))
              (cell (a * b))))
  && Bool.eqb (PrimFloat.eqb (cell a) (cell b)) (a =? b)
  && Bool.eqb (PrimFloat.leb (cell a) (cell b)) (a <=? b).

Definition exact_check (B : Z) : bool :=
  forallb (fun a => forallb (exact_pair B a) (upto B)) (upto B).

(** The exact sum of the cells at positions [a <= j < b]. *)
Definition range_sum (vals : list Z) (a b : nat) : Z :=
  total (map (fun j => nth j vals 0) (seq a (b - a))).

(** The state [st] is the one of the window [a, b) of a running sum set up
    at position [lo]: the count, the exact sum, no compensation, and the
    run of equal cells that ends the window. *)
Record represents (vals : list Z) (lo a b : nat) (st : Binary64.state)
  : Prop := {
  rep_order : (lo <= a <= b)%nat /\ (b <= List.length vals)%nat;
  rep_nobs : Binary64.nobs st = Z.of_nat (b - a);
  rep_sum : Binary64.sum_x st = cell (range_sum vals a b);
  rep_add : Binary64.compensation_add st = 0%float;
  rep_remove : Binary64.compensation_remove st = 0%float;
  rep_run :
    exists k : nat,
      Binary64.num_consecutive_same_value st = Z.of_nat k
      /\ (k <= b - lo)%nat
      /\ ((lo < b)%nat ->
          (1 <= k)%nat
          /\ Binary64.prev_value st = cell (nth (b - 1) vals 0)
          /\ forall j, (b - k <= j < b)%nat ->
               nth j vals 0 = nth (b - 1) vals 0)
}.

(** The exact sum over the window of width [W] days of record [i]. *)
Definition window_sum (W : Z) (zs : list (Z * Z)) (i : nat) : Z :=
  total
    (map snd
       (filter (fun r => in_window W (fst (nth i zs (0, 0))) (fst r)) zs)).

End Integers.

(** ** The most recent day *)

(** [d] is the latest day of the frame: some row has it, none is later. *)
Definition global_max (df : list MRow) (d : Z) : Prop :=
  (exists m, In m df /\ data_of m = Some d)
  /\ forall m t, In m df -> data_of m = Some t -> t <= d.

Definition fund_of (m : MRow) : string :=
  CNPJ_FUNDO_CLASSE (base (windowed m)).

Definition max_step (best : option Z) (m : MRow) : option Z :=
  match data_of m, best with
  | Some d, Some b => Some (Z.max b d)
  | Some d, None => Some d
  | None, _ => best
  end.

(** ** Sample frames *)

Definition fundo_A : string := "00000000000191".
Definition fundo_B : string := "00000000000272".

Definition dia (y m d : Z) : option Z := Some (Calendar.days_from_civil y m d).

(** One fund, three days. *)
Definition exemplo_janela : list Row :=
  [ mkRow fundo_A (dia 2024 1 1) (Some 100);
    mkRow fundo_A (dia 2024 1 15) (Some 50);
    mkRow fundo_A (dia 2024 2 1) (Some (-30)) ].


(** Fund A reports up to 2024-03-01, fund B up to 2024-02-20. *)
Definition exemplo_corte : list Row :=
  [ mkRow fundo_A (dia 2024 2 20) (Some 10);
    mkRow fundo_B (dia 2024 2 10) (Some 3);
    mkRow fundo_A (dia 2024 3 1) (Some 5);
    mkRow fundo_B (dia 2024 2 20) (Some 7) ].

Definition exemplo_cad : list (string * option string) :=
  [ (fundo_A, Some "FUNDO A"%string); (fundo_B, Some "FUNDO B"%string) ].

(** The frame of [exemplo_corte] as it reaches the cut of section 12. *)
Definition exemplo_corte_janelas : list MRow :=
  Eval vm_compute in
    match etapa_rolling (validacao (df_agg exemplo_corte)) with
    | Some w => merge_cad w exemplo_cad
    | None => []
    end.

(** The series of [exemplo_janela] in binary64. *)
Definition serie_janela : list (Z * float) :=
  [ (Calendar.days_from_civil 2024 1 1, 100%float);
    (Calendar.days_from_civil 2024 1 15, 50%float);
    (Calendar.days_from_civil 2024 2 1, (-30)%float) ].

(** A redemption of 100 followed, sixty days later, by an inflow of 50. *)
Definition serie_negativa : list (Z * float) :=
  [ (Calendar.days_from_civil 2024 1 1, (-100)%float);
    (Calendar.days_from_civil 2024 3 1, 50%float) ].

(** The series of [exemplo_janela] as integer amounts, and one with
    deposits only. *)
Definition serie_inteira : list (Z * Z) :=
  [ (Calendar.days_from_civil 2024 1 1, 100);
    (Calendar.days_from_civil 2024 1 15, 50);
    (Calendar.days_from_civil 2024 2 1, -30) ].

Definition serie_depositos : list (Z * Z) :=
  [ (Calendar.days_from_civil 2024 1 1, 100);
    (Calendar.days_from_civil 2024 1 15, 50);
    (Calendar.days_from_civil 2024 2 1, 30) ].

(** Days 16, 132 and 199 (counted from 1970-01-01): at day 199 the windows
    of 90 and of 180 days hold the same two records, but the one of 180
    days has seen the record of day 16 enter and leave. *)
#[warnings="-inexact-float"]
Definition serie_residuo : list (Z * float) :=
  [ (16, 568.08%float); (132, 383.68%float); (199, 536.06%float) ].

(** Days 14, 94, 111 and 173, all flows positive: at day 111 the windows of
    30 and of 90 days hold the same two records, but the one of 90 days has
    seen the record of day 14 enter and leave. *)
#[warnings="-inexact-float"]
Definition serie_arredondamento : list (Z * float) :=
  [ (14, 463.62%float); (94, 380.91%float); (111, 602.49%float);
    (173, 422.86%float) ].

(** * The rest of the script *)

(** ** Section 1 of the script: the months to download *)

Module Meses.

(** [relativedelta(months=i)]: a count of months past 11 is carried into
    years when the delta is built. *)
Definition relativedelta_months (i : Z) : Z * Z :=
  if 11 <? Z.abs i
  then (Z.abs i / 12 * Z.sgn i, Z.abs i mod 12 * Z.sgn i)
  else (0, i).

(** [datetime(ano, mes, 1) - relativedelta(months=i)]: the year and month
    of the result, or [None] where [datetime] refuses the year. *)
Definition menos_meses (ano mes i : Z) : option (Z * Z) :=
  let (years, months) := relativedelta_months i in
  let year := ano + - years in
  let month := mes + - months in
  let (year, month) :=
    if - months =? 0 then (year, mes)
    else if 12 <? month then (year + 1, month - 12)
    else if month <? 1 then (year - 1, month + 12)
    else (year, month) in
  if (1 <=? year) && (year <=? 9999) then Some (year, month) else None.

Fixpoint todos {A : Type} (l : list (option A)) : option (list A) :=
  match l with
  | [] => Some []
  | x :: rest =>
      match x, todos rest with
      | Some a, Some r => Some (a :: r)
      | _, _ => None
      end
  end.

(** [range(1, n + 1)]. *)
Definition range_1 (n : Z) : list Z := map Z.of_nat (seq 1 (Z.to_nat n)).

(** The months [hoje - relativedelta(months=i)] for [i] in
    [range(1, n + 1)], [hoje] being the first day of the current month. *)
Definition meses_anteriores (hoje : Z * Z) (n : Z) : option (list (Z * Z)) :=
  todos (map (menos_meses (fst hoje) (snd hoje)) (range_1 n)).

Definition digito (n : Z) : ascii := ascii_of_nat (48 + Z.to_nat n).

Definition dois_digitos (n : Z) : string :=
  String (digito (n / 10 mod 10)) (String (digito (n mod 10)) EmptyString).

Definition quatro_digitos (n : Z) : string :=
  String (digito (n / 1000 mod 10))
    (String (digito (n / 100 mod 10)) (dois_digitos n)).

(** [strftime("%Y%m")], for the years 1000 to 9999 (below 1000 the padding
    of the year is left to the C library). *)
Definition strftime_Ym (ym : Z * Z) : string :=
  (quatro_digitos (fst ym) ++ dois_digitos (snd ym))%string.

(** Lines 15-21. *)
Definition ultimos_meses (hoje : Z * Z) (n : Z) : option (list string) :=
  match meses_anteriores hoje n with
  | Some l => Some (map strftime_Ym l)
  | None => None
  end.

(** Line 28: the address asked for by [download_inf_diario_fi]. *)
Definition url_inf_diario_fi (yyyymm : string) : string :=
  ("https://dados.cvm.gov.br/dados/FI/DOC/INF_DIARIO/DADOS/inf_diario_fi_"
     ++ yyyymm ++ ".zip")%string.

(** The addresses of the loop of line 42. *)
Definition urls (hoje : Z * Z) : option (list string) :=
  match ultimos_meses hoje 9 with
  | Some l => Some (map url_inf_diario_fi l)
  | None => None
  end.

(** The place of a month on the line of all months. *)
Definition indice (ym : Z * Z) : Z := 12 * fst ym + (snd ym - 1).

Definition do_indice (k : Z) : Z * Z := (k / 12, k mod 12 + 1).

End Meses.

(** ** Sections 3 to 5 of the script: loading and types *)

Module Carga.

(** A line of a monthly file as [read_csv] gives it; [None] is a missing
    cell.  The text columns hold text, the two amounts numbers. *)
Record Informe : Type := mkInforme {
  TP_FUNDO_CLASSE : option string;
  CNPJ_FUNDO_CLASSE : option string;
  DT_COMPTC : option string;
  CAPTC_DIA : option Z;
  RESG_DIA : option Z
}.

(** A line with the column added at line 56. *)
Record Linha : Type := mkLinha {
  informe : Informe;
  Captacao_Liquida : option Z
}.

(** [df["TP_FUNDO_CLASSE"] == "FI"]: a missing cell equals nothing. *)
Definition eh_FI (r : Informe) : bool :=
  match TP_FUNDO_CLASSE r with
  | Some s => String.eqb s "FI"
  | None => false
  end.

(** Subtraction of two numeric cells: [NaN] if either is. *)
Definition sub_nan (a b : option Z) : option Z :=
  match a, b with
  | Some x, Some y => Some (x - y)
  | _, _ => None
  end.

(** Lines 53-56, for the lines of one file. *)
Definition ler_mes (csv : list Informe) : list Linha :=
  map (fun r => mkLinha r (sub_nan (CAPTC_DIA r) (RESG_DIA r)))
    (filter eh_FI csv).

(** Lines 40-65: every file, then [pd.concat]. *)
Definition consolidar (arquivos : list (list Informe)) : list Linha :=
  List.concat (map ler_mes arquivos).

(** Line 76. *)
Definition filtro_final (df : list Linha) : list Linha :=
  filter (fun l => eh_FI (informe l)) df.

(** Lines 75-79. *)
Definition registros_removidos (df : list Linha) : Z :=
  Z.of_nat (List.length df) - Z.of_nat (List.length (filtro_final df)).

(** [astype(str)]: a missing cell becomes the text [nan]. *)
Definition astype_str (cell : option string) : string :=
  match cell with
  | Some s => s
  | None => "nan"%string
  end.

(** [\d], for the characters of a [latin1] file. *)
Definition is_digit (c : ascii) : bool :=
  ((48 <=? nat_of_ascii c) && (nat_of_ascii c <=? 57))%nat.

(** [str.replace(r"\D", "", regex=True)]. *)
Fixpoint remove_nao_digitos (s : string) : string :=
  match s with
  | EmptyString => EmptyString
  | String c rest =>
      if is_digit c then String c (remove_nao_digitos rest)
      else remove_nao_digitos rest
  end.

(** Lines 101-105 and 221-225. *)
Definition normaliza_cnpj (cell : option string) : string :=
  remove_nao_digitos (astype_str cell).

(** Lines 95-105, [to_datetime] being the reading of a date written as
    text, [None] where it cannot be read; [to_numeric] leaves a numeric
    column as it is. *)
Definition etapa_tipos (to_datetime : string -> option Z) (df : list Linha)
  : list Row :=
  map
    (fun l =>
       mkRow (normaliza_cnpj (CNPJ_FUNDO_CLASSE (informe l)))
         (match DT_COMPTC (informe l) with
          | Some s => to_datetime s
          | None => None
          end)
         (Captacao_Liquida l))
    df.

End Carga.

(** ** Section 9 of the script: the register of funds *)

Module Cadastro.

Definition cell_eqb (a b : option string) : bool :=
  match a, b with
  | Some x, Some y => String.eqb x y
  | None, None => true
  | _, _ => false
  end.

Definition par_eqb (p q : option string * option string) : bool :=
  cell_eqb (fst p) (fst q) && cell_eqb (snd p) (snd q).

(** [drop_duplicates()]: a row equal to an earlier one is dropped, missing
    cells counting as equal. *)
Fixpoint drop_duplicates_from (seen rows : list (option string * option string))
  : list (option string * option string) :=
  match rows with
  | [] => []
  | p :: rest =>
      if existsb (par_eqb p) seen then drop_duplicates_from seen rest
      else p :: drop_duplicates_from (p :: seen) rest
  end.

Definition drop_duplicates (rows : list (option string * option string))
  : list (option string * option string) :=
  drop_duplicates_from [] rows.

(** Lines 218-225: [CNPJ_FUNDO] and [DENOM_SOCIAL], duplicates dropped,
    then the number normalised. *)
Definition df_cad (cad : list (option string * option string))
  : list (string * option string) :=
  map (fun p => (Carga.normaliza_cnpj (fst p), snd p)) (drop_duplicates cad).

(** The entries of the register for fund [e]. *)
Definition do_cadastro (e : string) (cad : list (string * option string))
  : list (string * option string) :=
  filter (fun c => String.eqb e (fst c)) cad.

End Cadastro.

(** ** Section 11 of the script: the final check *)

Definition mrow_key (m : MRow) : option key := row_key (base (windowed m)).

(** Line 252: [groupby([...]).size()] on the joined frame. *)
Definition unicos (df : list MRow) : list (key * Z) :=
  group_fold key_compare mrow_key (fun _ old => so_far old + 1) df [].

Definition n_unicos (df : list MRow) : nat := List.length (unicos df).

Definition n_registros (df : list MRow) : nat := List.length df.

(** Line 256: [true] for the branch that reports one row per fund and
    date. *)
Definition verificacao_final (df : list MRow) : bool :=
  Nat.eqb (n_unicos df) (n_registros df).

(** ** Section 13 of the script: the final layout *)

Module Final.

(** A row of the final layout; the date is a day ([D := Z]) until line
    307 writes it out ([D := string]). *)
Record Layout (D : Type) : Type := mkLayout {
  Nome_Fundo : option string;
  Data : option D;
  Captacao_Liquida_Diaria : option Z;
  Captacao_30D : option Z;
  Captacao_90D : option Z;
  Captacao_180D : option Z
}.

Arguments mkLayout {D}.
Arguments Nome_Fundo {D}.
Arguments Data {D}.
Arguments Captacao_Liquida_Diaria {D}.
Arguments Captacao_30D {D}.
Arguments Captacao_90D {D}.
Arguments Captacao_180D {D}.

(** Lines 289-300: the six columns, renamed. *)
Definition colunas (m : MRow) : Layout Z :=
  match windowed m with
  | mkWRow r c30 c90 c180 =>
      mkLayout (DENOM_SOCIAL m) (Data_Comptc r) (Captacao_Liquida r)
        c30 c90 c180
  end.

(** Line 303: [dropna(subset=["Nome_Fundo"])]. *)
Definition dropna {D : Type} (df : list (Layout D)) : list (Layout D) :=
  filter
    (fun r => match Nome_Fundo r with Some _ => true | None => false end)
    df.

(** Line 307: [dt.strftime("%d/%m/%Y")], a missing date staying missing. *)
Definition formatar (strftime : Z -> string) (r : Layout Z) : Layout string :=
  mkLayout (Nome_Fundo r)
    (match Data r with
     | Some d => Some (strftime d)
     | None => None
     end)
    (Captacao_Liquida_Diaria r) (Captacao_30D r) (Captacao_90D r)
    (Captacao_180D r).

(** Lines 289-307, [strftime] being the writing of a day as
    [DD/MM/YYYY]. *)
Definition df_final (strftime : Z -> string) (df : list MRow)
  : list (Layout string) :=
  map (formatar strftime) (dropna (map colunas df)).

End Final.

(** ** Section 15 of the script: the pages of the PDF *)

Definition linhas_por_pagina : nat := 18.

(** [range(0, stop, step)]. *)
Definition range_step (stop step : nat) : list nat :=
  map (fun k => (k * step)%nat) (seq 0 ((stop + step - 1) / step)).

(** [df.iloc[a:b]]. *)
Definition iloc {A : Type} (df : list A) (a b : nat) : list A :=
  firstn (b - a) (skipn a df).

(** Lines 369-370: the rows of each page. *)
Definition paginas {A : Type} (df_pdf : list A) : list (list A) :=
  map (fun i => iloc df_pdf i (i + linhas_por_pagina))
    (range_step (List.length df_pdf) linhas_por_pagina).

(** ** The script from the files to the final frame *)

Definition programa (to_datetime : string -> option Z) (strftime : Z -> string)
    (arquivos : list (list Carga.Informe))
    (cad : list (option string * option string))
  : option (list (Final.Layout string)) :=
  match
    pipeline
      (Carga.etapa_tipos to_datetime
         (Carga.filtro_final (Carga.consolidar arquivos)))
      (Cadastro.df_cad cad)
  with
  | Some snapshot => Some (Final.df_final strftime snapshot)
  | None => None
  end.

(** ** Vocabulary of the further properties *)

(** The rows that carry a date. *)
Definition dated (r : Row) : bool :=
  match Data_Comptc r with Some _ => true | None => false end.

(** The rows of fund [e]. *)
Definition of_fund (e : string) (r : Row) : bool :=
  String.eqb (CNPJ_FUNDO_CLASSE r) e.

(** The rows of fund A of [exemplo_corte], and other rows for fund B. *)
Definition exemplo_corte_A : list Row :=
  [ mkRow fundo_A (dia 2024 2 20) (Some 10);
    mkRow fundo_A (dia 2024 3 1) (Some 5) ].

Definition exemplo_negativo_B : list Row :=
  [ mkRow fundo_B (dia 2024 1 1) (Some (-100));
    mkRow fundo_B (dia 2024 3 1) (Some 50) ].

(** The two sort columns of line 162, a missing date last. *)
Definition okey_compare (a b : string * option Z) : comparison :=
  match String.compare (fst a) (fst b) with
  | Eq => date_compare (snd a) (snd b)
  | Lt => Lt
  | Gt => Gt
  end.

(** Row [a] may stand before row [b] in the sorted frame. *)
Definition sort_le (a b : Row) : Prop := sort_compare a b <> Gt.

(** A dated row with its time index. *)
Definition indexado (r : Row) : Z * Row :=
  (match Data_Comptc r with Some d => d | None => 0 end, r).

(** How many rows the join of line 235 makes of row [w]: one for each
    entry of the register for its fund, and one when there is none. *)
Definition copias (cad : list (string * option string)) (w : WRow) : nat :=
  Nat.max 1
    (List.length (Cadastro.do_cadastro (CNPJ_FUNDO_CLASSE (base w)) cad)).

(** The name the join gives to a fund with at most one entry. *)
Definition nome_do_fundo (cad : list (string * option string)) (w : WRow)
  : option string :=
  match Cadastro.do_cadastro (CNPJ_FUNDO_CLASSE (base w)) cad with
  | c :: _ => snd c
  | [] => None
  end.





(** * Properties *)

(** ** Day numbers *)

Example epoch : Calendar.days_from_civil 1970 1 1 = 0.
Proof. reflexivity. Qed.

Example leap_day_2024 :
  Calendar.days_from_civil 2024 3 1 - Calendar.days_from_civil 2024 2 28 = 2.
Proof. reflexivity. Qed.

Example thirty_days_before_february :
  Calendar.days_from_civil 2024 2 1 - 30 = Calendar.days_from_civil 2024 1 2.
Proof. reflexivity. Qed.


(** ** The orders are total orders *)

Lemma string_order : total_order String.compare.
Proof.
  split.
  - intros a b. apply String_as_OT.cmp_eq.
  - intros a b. apply String.compare_antisym.
  - intros a b c Hab Hbc.
    apply String_as_OT.cmp_lt in Hab. apply String_as_OT.cmp_lt in Hbc.
    apply String_as_OT.cmp_lt. eapply String_as_OT.lt_trans; eassumption.
Qed.

Lemma key_order : total_order key_compare.
Proof.
  destruct string_order as [seq_ santi strans].
  split.
  - intros [a1 a2] [b1 b2]. unfold key_compare. simpl.
    destruct (String.compare a1 b1) eqn:E.
    + apply seq_ in E. subst b1. rewrite Z.compare_eq_iff.
      split; [intros ->; reflexivity | intros H; inversion H; reflexivity].
    + split; [discriminate|]. intros H. inversion H; subst.
      assert (String.compare b1 b1 = Eq) by (apply seq_; reflexivity).
      congruence.
    + split; [discriminate|]. intros H. inversion H; subst.
      assert (String.compare b1 b1 = Eq) by (apply seq_; reflexivity).
      congruence.
  - intros [a1 a2] [b1 b2]. unfold key_compare. simpl.
    rewrite (santi a1 b1). destruct (String.compare b1 a1); simpl; auto.
    apply Z.compare_antisym.
  - intros [a1 a2] [b1 b2] [c1 c2]. unfold key_compare. simpl.
    destruct (String.compare a1 b1) eqn:E1; try discriminate;
      destruct (String.compare b1 c1) eqn:E2; try discriminate.
    + apply seq_ in E1. apply seq_ in E2. subst.
      assert (String.compare c1 c1 = Eq) as -> by (apply seq_; reflexivity).
      rewrite !Z.compare_lt_iff. lia.
    + apply seq_ in E1. subst. rewrite E2. reflexivity.
    + apply seq_ in E2. subst. rewrite E1. reflexivity.
    + rewrite (strans _ _ _ E1 E2). reflexivity.
Qed.

(** ** Keyed accumulators *)

Section GroupByFacts.

Context {K A : Type}.
Variable cmp : K -> K -> comparison.
Hypothesis order : total_order cmp.

Lemma cmp_refl a : cmp a a = Eq.
Proof. apply (cmp_eq cmp order). reflexivity. Qed.

Lemma cmp_gt_lt a b : cmp a b = Gt -> cmp b a = Lt.
Proof.
  intros H. rewrite (cmp_antisym cmp order), H. reflexivity.
Qed.

Lemma before_irrefl a : ~ before cmp a a.
Proof. unfold before. rewrite cmp_refl. discriminate. Qed.

Lemma group_upd_keys k f (acc : list (K * A)) k' :
  In k' (map fst (group_upd cmp k f acc)) ->
  k' = k \/ In k' (map fst acc).
Proof.
  induction acc as [|[k0 a0] acc IH]; simpl.
  - intros [H|[]]; auto.
  - destruct (cmp k k0) eqn:E; simpl.
    + auto.
    + intros [H|H]; auto.
    + intros [H|H]; auto. destruct (IH H); auto.
Qed.

Lemma group_upd_ascending k f (acc : list (K * A)) :
  ascending cmp acc -> ascending cmp (group_upd cmp k f acc).
Proof.
  unfold ascending.
  induction acc as [|[k0 a0] acc IH]; simpl; intros Hs.
  - constructor; constructor.
  - inversion Hs as [|? ? Hs' Hall]; subst.
    destruct (cmp k k0) eqn:E; simpl.
    + constructor; assumption.
    + constructor; [assumption|].
      constructor; [exact E|].
      eapply Forall_impl; [|exact Hall].
      intros x Hx. eapply (cmp_trans cmp order); eassumption.
    + constructor; [apply IH; assumption|].
      apply Forall_forall. intros x Hx.
      apply group_upd_keys in Hx. destruct Hx as [->|Hx].
      * apply cmp_gt_lt. assumption.
      * rewrite Forall_forall in Hall. apply Hall. assumption.
Qed.

Lemma group_get_none k (acc : list (K * A)) :
  Forall (before cmp k) (map fst acc) -> group_get cmp k acc = None.
Proof.
  induction acc as [|[k0 a0] acc IH]; simpl; intros H; [reflexivity|].
  inversion H; subst. unfold before in *.
  match goal with E : cmp k k0 = Lt |- _ => rewrite E end.
  apply IH. assumption.
Qed.

Lemma group_get_upd_same k f (acc : list (K * A)) :
  ascending cmp acc ->
  group_get cmp k (group_upd cmp k f acc) = Some (f (group_get cmp k acc)).
Proof.
  unfold ascending.
  induction acc as [|[k0 a0] acc IH]; simpl; intros Hs.
  - rewrite cmp_refl. reflexivity.
  - inversion Hs as [|? ? Hs' Hall]; subst.
    destruct (cmp k k0) eqn:E; simpl.
    + rewrite E. reflexivity.
    + rewrite cmp_refl.
      rewrite group_get_none; [reflexivity|].
      eapply Forall_impl; [|exact Hall].
      intros x Hx. eapply (cmp_trans cmp order); eassumption.
    + rewrite E. apply IH. assumption.
Qed.

Lemma group_get_upd_other k k' f (acc : list (K * A)) :
  k <> k' ->
  group_get cmp k' (group_upd cmp k f acc) = group_get cmp k' acc.
Proof.
  intros Hne.
  assert (Hkk : cmp k' k <> Eq).
  { intros H. apply (cmp_eq cmp order) in H. congruence. }
  induction acc as [|[k0 a0] acc IH]; simpl.
  - destruct (cmp k' k); congruence.
  - destruct (cmp k k0) eqn:E; simpl.
    + apply (cmp_eq cmp order) in E. subst k0.
      destruct (cmp k' k); congruence.
    + destruct (cmp k' k); congruence.
    + rewrite IH. reflexivity.
Qed.

Lemma group_get_in k a (acc : list (K * A)) :
  group_get cmp k acc = Some a -> In (k, a) acc.
Proof.
  induction acc as [|[k0 a0] acc IH]; simpl; [discriminate|].
  destruct (cmp k k0) eqn:E; auto.
  apply (cmp_eq cmp order) in E. subst k0.
  intros H. inversion H. auto.
Qed.

Lemma in_group_get k a (acc : list (K * A)) :
  ascending cmp acc -> In (k, a) acc -> group_get cmp k acc = Some a.
Proof.
  unfold ascending.
  induction acc as [|[k0 a0] acc IH]; simpl; intros Hs; [intros []|].
  inversion Hs as [|? ? Hs' Hall]; subst.
  intros [H|H].
  - inversion H; subst. rewrite cmp_refl. reflexivity.
  - destruct (cmp k k0) eqn:E; auto.
    apply (cmp_eq cmp order) in E. subst k0.
    rewrite Forall_forall in Hall.
    exfalso. apply (before_irrefl k). apply Hall.
    apply in_map_iff. exists (k, a). auto.
Qed.

(** A key past every key of the list opens a new group at the end. *)
Lemma group_upd_append k f (acc : list (K * A)) :
  Forall (fun k' => before cmp k' k) (map fst acc) ->
  group_upd cmp k f acc = acc ++ [(k, f None)].
Proof.
  induction acc as [|[k0 a0] acc IH]; simpl; intros H; [reflexivity|].
  inversion H as [|? ? Hlt Hall]; subst. unfold before in Hlt.
  rewrite (cmp_antisym cmp order), Hlt. simpl.
  rewrite IH by assumption. reflexivity.
Qed.

Section Fold.

Context {R : Type}.
Variable keyof : R -> option K.
Variable upd : R -> option A -> A.

Lemma group_fold_ascending df (acc : list (K * A)) :
  ascending cmp acc -> ascending cmp (group_fold cmp keyof upd df acc).
Proof.
  unfold group_fold. revert acc.
  induction df as [|r df IH]; simpl; intros acc Hs; [assumption|].
  apply IH. destruct (keyof r); [apply group_upd_ascending|]; assumption.
Qed.

Lemma group_fold_get k df (acc : list (K * A)) :
  ascending cmp acc ->
  group_get cmp k (group_fold cmp keyof upd df acc)
  = own_updates cmp keyof upd k df (group_get cmp k acc).
Proof.
  unfold group_fold, own_updates. revert acc.
  induction df as [|r df IH]; simpl; intros acc Hs; [reflexivity|].
  destruct (keyof r) as [k0|]; [|apply IH; assumption].
  rewrite IH by (apply group_upd_ascending; assumption).
  f_equal.
  destruct (cmp k0 k) eqn:E.
  - apply (cmp_eq cmp order) in E. subst k0.
    apply group_get_upd_same. assumption.
  - apply group_get_upd_other. intros ->. rewrite cmp_refl in E.
    discriminate.
  - apply group_get_upd_other. intros ->. rewrite cmp_refl in E.
    discriminate.
Qed.

End Fold.

End GroupByFacts.

(** ** Ascending lists *)

Section Ascending.

Context {K : Type}.
Variable cmp : K -> K -> comparison.
Hypothesis order : total_order cmp.

Lemma sorted_app_before (l1 : list K) x l2 :
  StronglySorted (before cmp) (l1 ++ x :: l2) ->
  Forall (fun y => before cmp y x) l1.
Proof.
  induction l1 as [|y l1 IH]; simpl; intros H; [constructor|].
  inversion H as [|? ? Hs Hall]; subst.
  constructor; [|apply IH; assumption].
  rewrite Forall_forall in Hall. apply Hall.
  apply in_or_app. right. left. reflexivity.
Qed.

Lemma sorted_NoDup (l : list K) :
  StronglySorted (before cmp) l -> NoDup l.
Proof.
  induction 1 as [|x l Hs IH Hall]; constructor; [|assumption].
  intros Hin. rewrite Forall_forall in Hall.
  apply (before_irrefl cmp order x). apply Hall. assumption.
Qed.

(** In an ascending accumulator list the rows of one key are the one
    found by [group_get]. *)
Lemma filter_key {A : Type} k (acc : list (K * A)) :
  ascending cmp acc ->
  filter (fun ka => match cmp k (fst ka) with Eq => true | _ => false end)
    acc
  = match group_get cmp k acc with Some a => [(k, a)] | None => [] end.
Proof.
  unfold ascending.
  induction acc as [|[k0 a0] acc IH]; simpl; intros Hs; [reflexivity|].
  inversion Hs as [|? ? Hs' Hall]; subst.
  destruct (cmp k k0) eqn:E; try (apply IH; assumption).
  apply (cmp_eq cmp order) in E. subst k0. f_equal.
  clear IH Hs Hs'. induction acc as [|[k1 a1] acc IH]; [reflexivity|].
  simpl in *. inversion Hall as [|? ? Hlt Hall']; subst.
  unfold before in Hlt. rewrite Hlt. apply IH. assumption.
Qed.

End Ascending.

(** ** The Deduplicating Aggregator *)

Lemma accumulators_ascending df : ascending key_compare (accumulators df).
Proof.
  apply group_fold_ascending; [exact key_order | constructor].
Qed.

Lemma has_key_compare e d r :
  has_key e d r = true <-> row_key r = Some (e, d).
Proof.
  destruct r as [c [x|] v]; unfold has_key, row_key; simpl.
  - rewrite andb_true_iff, String.eqb_eq, Z.eqb_eq.
    split; [intros [-> ->]; reflexivity | intros H; inversion H; auto].
  - rewrite andb_false_r. split; discriminate.
Qed.

Lemma key_compare_refl k : key_compare k k = Eq.
Proof. apply (cmp_refl key_compare key_order). Qed.

Lemma key_compare_eq a b : key_compare a b = Eq -> a = b.
Proof. apply (cmp_eq key_compare key_order). Qed.

Lemma total_valid_cons r rows :
  total (valid_values (r :: rows))
  = nan_to_zero (Captacao_Liquida r) + total (valid_values rows).
Proof.
  unfold valid_values. simpl. destruct (Captacao_Liquida r); reflexivity.
Qed.

(** What the pass adds to the group of one key. *)
Lemma own_updates_sum e d df start :
  own_updates key_compare row_key sum_upd (e, d) df start
  = match filter (has_key e d) df with
    | [] => start
    | rows => Some (so_far start + total (valid_values rows))
    end.
Proof.
  unfold own_updates. revert start.
  induction df as [|r df IH]; intros start; cbn [fold_left filter];
    [reflexivity|].
  rewrite IH. clear IH.
  destruct (has_key e d r) eqn:Hk.
  - apply has_key_compare in Hk. rewrite Hk, key_compare_refl.
    cbv beta iota. rewrite total_valid_cons.
    destruct (filter (has_key e d) df) as [|r' rows].
    + unfold sum_upd, valid_values, total. simpl. f_equal. lia.
    + unfold sum_upd. simpl so_far. f_equal. lia.
  - destruct (row_key r) as [k0|] eqn:Hr; [|reflexivity].
    destruct (key_compare k0 (e, d)) eqn:E; try reflexivity.
    apply key_compare_eq in E. subst k0.
    apply has_key_compare in Hr. congruence.
Qed.

Lemma NoDup_map_injective {A B : Type} (f : A -> B) (l : list A) :
  (forall x y, f x = f y -> x = y) -> NoDup l -> NoDup (map f l).
Proof.
  intros Hinj. induction 1 as [|x l Hx Hl IH]; simpl; constructor; auto.
  intros Hin. apply in_map_iff in Hin. destruct Hin as [y [Hy Hin]].
  apply Hinj in Hy. subst y. contradiction.
Qed.

Lemma key_columns_agg_row acc :
  map key_columns (map agg_row acc)
  = map (fun k : key => (fst k, Some (snd k))) (map fst acc).
Proof.
  rewrite !map_map. apply map_ext. intros [[e d] v]. reflexivity.
Qed.

Lemma has_key_agg_row e d (ka : key * Z) :
  has_key e d (agg_row ka)
  = match key_compare (e, d) (fst ka) with Eq => true | _ => false end.
Proof.
  destruct ka as [[e' d'] v]. simpl fst.
  destruct (key_compare (e, d) (e', d')) eqn:E.
  - apply key_compare_eq in E. inversion E; subst.
    apply has_key_compare. reflexivity.
  - apply not_true_is_false. intros H. apply has_key_compare in H.
    simpl in H. inversion H; subst. rewrite key_compare_refl in E.
    discriminate.
  - apply not_true_is_false. intros H. apply has_key_compare in H.
    simpl in H. inversion H; subst. rewrite key_compare_refl in E.
    discriminate.
Qed.

(** The output rows of one key: at most one, holding the sum of the valid
    flows of the input rows of that key. *)
Lemma df_agg_key e d df :
  filter (has_key e d) (df_agg df)
  = match filter (has_key e d) df with
    | [] => []
    | rows => [mkRow e (Some d) (Some (total (valid_values rows)))]
    end.
Proof.
  unfold df_agg, groupby_sum. fold (accumulators df).
  rewrite filter_map_swap.
  rewrite (filter_ext _ _ (has_key_agg_row e d)).
  rewrite (filter_key key_compare key_order)
    by apply accumulators_ascending.
  unfold accumulators.
  rewrite (group_fold_get key_compare key_order) by constructor.
  rewrite own_updates_sum. simpl group_get.
  destruct (filter (has_key e d) df); reflexivity.
Qed.

(** Feeding back the rows of an ascending accumulator list opens every
    group once more, in the same order. *)
Lemma refold (upd : Row -> option Z -> Z) (l acc0 : list (key * Z)) :
  StronglySorted (before key_compare) (map fst acc0 ++ map fst l) ->
  group_fold key_compare row_key upd (map agg_row l) acc0
  = acc0 ++ map (fun ka => (fst ka, upd (agg_row ka) None)) l.
Proof.
  unfold group_fold. revert acc0.
  induction l as [|[[e d] v] l IH]; simpl; intros acc0 Hs.
  - rewrite app_nil_r. reflexivity.
  - rewrite (group_upd_append key_compare key_order)
      by (eapply sorted_app_before; exact Hs).
    rewrite IH.
    + rewrite <- app_assoc. reflexivity.
    + rewrite map_app, <- app_assoc. exact Hs.
Qed.

Lemma groupby_sum_fixed (acc : list (key * Z)) :
  ascending key_compare acc ->
  groupby_sum (map agg_row acc) = map agg_row acc.
Proof.
  intros Hs. unfold groupby_sum. rewrite refold by exact Hs.
  simpl. f_equal. rewrite <- (map_id acc) at 2.
  apply map_ext. intros [[e d] v]. reflexivity.
Qed.

Lemma duplicados_agg (acc : list (key * Z)) :
  ascending key_compare acc ->
  duplicados (map agg_row acc) = map (fun ka => (fst ka, 1)) acc.
Proof.
  intros Hs. unfold duplicados. rewrite refold by exact Hs. reflexivity.
Qed.

Lemma n_duplicados_df_agg df : n_duplicados (df_agg df) = 0.
Proof.
  unfold n_duplicados, df_agg, groupby_sum. fold (accumulators df).
  rewrite duplicados_agg by apply accumulators_ascending.
  induction (accumulators df) as [|ka acc IH]; [reflexivity|exact IH].
Qed.

Lemma validacao_df_agg df : validacao (df_agg df) = df_agg df.
Proof.
  unfold validacao. rewrite n_duplicados_df_agg. reflexivity.
Qed.

Lemma df_agg_dated df :
  Forall (fun r => exists d v,
            Data_Comptc r = Some d /\ Captacao_Liquida r = Some v)
    (df_agg df).
Proof.
  unfold df_agg, groupby_sum. apply Forall_forall. intros r Hr.
  apply in_map_iff in Hr. destruct Hr as [[[e d] v] [<- _]].
  exists d, v. split; reflexivity.
Qed.

Lemma group_fold_skip (upd : Row -> option Z -> Z) l1 l2 r acc :
  row_key r = None ->
  group_fold key_compare row_key upd (l1 ++ r :: l2) acc
  = group_fold key_compare row_key upd (l1 ++ l2) acc.
Proof.
  intros Hr. unfold group_fold. rewrite !fold_left_app. simpl.
  rewrite Hr. reflexivity.
Qed.

(** ** The running sum computes the sum of each window *)

Module RollSumFacts.

Import RollSum Cells.

Lemma state_eq (x y : state) :
  nobs x = nobs y -> sum_x x = sum_x y -> x = y.
Proof. destruct x, y; simpl; intros -> ->; reflexivity. Qed.

Lemma fold_add l st : fold_left add_sum l st = plus st (summary l).
Proof.
  unfold summary. revert st.
  induction l as [|v l IH] using rev_ind; intros st.
  - simpl. apply state_eq; simpl; lia.
  - rewrite !fold_left_app. simpl. rewrite IH.
    destruct v as [v|]; simpl; [|reflexivity].
    apply state_eq; simpl; lia.
Qed.

Lemma fold_remove l st : fold_left remove_sum l st = minus st (summary l).
Proof.
  revert st. induction l as [|v l IH] using rev_ind; intros st.
  - simpl. apply state_eq; simpl; lia.
  - unfold summary. rewrite !fold_left_app. simpl.
    fold (summary l). rewrite IH.
    destruct v as [v|]; simpl; [|reflexivity].
    apply state_eq; simpl; lia.
Qed.

Lemma summary_app l1 l2 : summary (l1 ++ l2) = plus (summary l1) (summary l2).
Proof.
  unfold summary at 1. rewrite fold_left_app. fold (summary l1).
  apply fold_add.
Qed.

Lemma over_add values a b st :
  over add_sum values a b st = plus st (summary (cells values a b)).
Proof.
  unfold over, cells. rewrite <- fold_add.
  generalize (seq a (b - a)). intros l. revert st.
  induction l as [|j l IH]; simpl; intros st; [reflexivity|apply IH].
Qed.

Lemma over_remove values a b st :
  over remove_sum values a b st = minus st (summary (cells values a b)).
Proof.
  unfold over, cells. rewrite <- fold_remove.
  generalize (seq a (b - a)). intros l. revert st.
  induction l as [|j l IH]; simpl; intros st; [reflexivity|apply IH].
Qed.

Lemma cells_split values (a b c : nat) :
  (a <= b)%nat -> (b <= c)%nat ->
  cells values a c = cells values a b ++ cells values b c.
Proof.
  intros Hab Hbc. unfold cells. rewrite <- map_app. f_equal.
  replace (c - a)%nat with ((b - a) + (c - b))%nat by lia.
  rewrite seq_app. do 2 f_equal. lia.
Qed.

Lemma plus_empty st : plus empty st = st.
Proof. apply state_eq; simpl; lia. Qed.

(** The state after a row is the summary of its window, whichever way it
    was reached. *)
Lemma roll_loop_windows values minp mono prev st bounds :
  (mono = true ->
   bounds_increasing
     (match prev with Some p => p :: bounds | None => bounds end) = true
   /\ match prev with
      | Some (s0, e0) => st = summary (cells values s0 e0)
      | None => True
      end) ->
  roll_loop values minp mono prev st bounds
  = map (fun se => calc_sum minp (summary (cells values (fst se) (snd se))))
      bounds.
Proof.
  revert prev st.
  induction bounds as [|[s e] bounds IH]; intros prev st Hinv;
    [reflexivity|].
  cbn [roll_loop map fst snd].
  assert (Hst :
    match prev with
    | Some (s0, e0) =>
        if negb mono || (e0 <=? s)%nat
        then over add_sum values s e empty
        else over add_sum values e0 e (over remove_sum values s0 s st)
    | None => over add_sum values s e empty
    end = summary (cells values s e)).
  { destruct prev as [[s0 e0]|];
      [|rewrite over_add; apply plus_empty].
    destruct mono; simpl negb; simpl orb;
      [|rewrite over_add; apply plus_empty].
    destruct (e0 <=? s)%nat eqn:Hes;
      [rewrite over_add; apply plus_empty|].
    destruct (Hinv eq_refl) as [Hinc ->].
    apply Nat.leb_gt in Hes.
    cbn [bounds_increasing fst snd] in Hinc.
    apply andb_true_iff in Hinc. destruct Hinc as [Hinc _].
    apply andb_true_iff in Hinc. destruct Hinc as [Hs He].
    apply Nat.leb_le in Hs. apply Nat.leb_le in He.
    rewrite over_add, over_remove.
    rewrite (cells_split values s0 s e0) by lia.
    rewrite (cells_split values s e0 e) by lia.
    rewrite !summary_app.
    apply state_eq; simpl; lia. }
  rewrite Hst. f_equal.
  apply IH. intros Hm. subst mono. split; [|reflexivity].
  destruct (Hinv eq_refl) as [Hinc _].
  destruct prev as [[s0 e0]|]; [|exact Hinc].
  cbn [bounds_increasing] in Hinc.
  apply andb_true_iff in Hinc. destruct Hinc as [_ Hinc]. exact Hinc.
Qed.

Lemma roll_sum_windows values bounds minp :
  roll_sum values bounds minp
  = map (fun se => calc_sum minp (summary (cells values (fst se) (snd se))))
      bounds.
Proof.
  unfold roll_sum. apply roll_loop_windows. intros H. split; [exact H|exact I].
Qed.

End RollSumFacts.

(** ** The windows of an ascending index *)

Module WindowFacts.

Import Window.

Lemma sorted_nth (index : list Z) :
  StronglySorted Z.lt index ->
  forall a b, (a < b < List.length index)%nat ->
  nth a index 0 < nth b index 0.
Proof.
  induction 1 as [|x l Hs IH Hall]; intros a b Hab; simpl in Hab; [lia|].
  destruct b as [|b]; [lia|]. simpl.
  destruct a as [|a].
  - rewrite Forall_forall in Hall. apply Hall. apply nth_In. lia.
  - apply IH. lia.
Qed.

Lemma sorted_growth_sign (index : list Z) :
  StronglySorted Z.lt index -> index_growth_sign index = 1.
Proof.
  intros Hs. unfold index_growth_sign.
  destruct index as [|x l]; [reflexivity|].
  inversion Hs as [|? ? _ Hall]; subst.
  assert (H : x <= last (x :: l) 0).
  { destruct l as [|y l]; [simpl; lia|].
    assert (Hin : In (last (x :: y :: l) 0) (y :: l)).
    { change (last (x :: y :: l) 0) with (last (y :: l) 0).
      clear. revert y. induction l as [|z l IH]; intros y; simpl; auto.
      right. apply (IH z). }
    rewrite Forall_forall in Hall. apply Hall in Hin. lia. }
  simpl hd. destruct (last (x :: l) 0 <? x) eqn:E; [|reflexivity].
  apply Z.ltb_lt in E. lia.
Qed.

Lemma find_start_spec (index : list Z) bound (n j : nat) :
  let s := find_start index bound 1 j n in
  (j <= s <= j + n)%nat
  /\ (forall j', (j <= j' < s)%nat -> nth j' index 0 <= bound)
  /\ ((s < j + n)%nat -> bound < nth s index 0).
Proof.
  revert j. induction n as [|n IH]; intros j; simpl.
  - repeat split; lia.
  - destruct (0 <? (nth j index 0 - bound) * 1) eqn:E.
    + apply Z.ltb_lt in E. repeat split; lia.
    + apply Z.ltb_ge in E.
      destruct (IH (S j)) as [Hr [Hbelow Hat]].
      split; [lia|]. split; [|intros Hlt; apply Hat; lia].
      intros j' Hj'.
      destruct (Nat.eq_dec j' j) as [->|Hne]; [lia|].
      apply Hbelow. lia.
Qed.

Lemma bounds_loop_length index W sign n i prev :
  List.length (bounds_loop index W sign i prev n) = n.
Proof.
  revert i prev. induction n as [|n IH]; intros i prev; simpl;
    [reflexivity|]. rewrite IH. reflexivity.
Qed.

Lemma bounds_loop_windows (index : list Z) W :
  StronglySorted Z.lt index -> 0 < W ->
  forall n i prev,
    (S i + n = List.length index)%nat ->
    window_of index W i prev ->
    forall k, (k < n)%nat ->
    window_of index W (S i + k)
      (nth k (bounds_loop index W 1 (S i) prev n) (0%nat, 0%nat)).
Proof.
  intros Hs HW.
  induction n as [|n IH]; intros i [s0 e0] Hlen Hprev k Hk; [lia|].
  destruct Hprev as [He0 [Hs0 [Hbelow Hat]]]. simpl in He0, Hs0, Hbelow, Hat.
  subst e0.
  cbn [bounds_loop fst snd].
  set (bound := nth (S i) index 0 - 1 * W).
  destruct (find_start_spec index bound (S i - s0) s0) as [Hr [Hfb Hfa]].
  set (s := find_start index bound 1 s0 (S i - s0)) in *.
  replace ((nth (S i) index 0 - nth (S i) index 0) * 1 <=? 0) with true
    by (symmetry; apply Z.leb_le; lia).
  assert (Hstep : nth i index 0 < nth (S i) index 0)
    by (apply sorted_nth; [assumption|lia]).
  assert (Hgood : window_of index W (S i) (s, S (S i))).
  { unfold window_of, bound in *. simpl. repeat split; try lia.
    - intros j Hj. destruct (Nat.lt_ge_cases j s0) as [Hlt|Hge].
      + specialize (Hbelow j Hlt). lia.
      + specialize (Hfb j). lia.
    - destruct (Nat.eq_dec s (S i)) as [->|Hne]; [lia|].
      assert (bound' : nth (S i) index 0 - 1 * W < nth s index 0)
        by (apply Hfa; lia).
      lia. }
  destruct k as [|k].
  - rewrite Nat.add_0_r. exact Hgood.
  - cbn [nth]. replace (S i + S k)%nat with (S (S i) + k)%nat by lia.
    apply IH; [lia|exact Hgood|lia].
Qed.

Lemma window_bounds_length index W :
  List.length (window_bounds index W) = List.length index.
Proof.
  destruct index as [|x l]; [reflexivity|].
  simpl. rewrite bounds_loop_length. reflexivity.
Qed.

Lemma window_bounds_windows (index : list Z) W :
  StronglySorted Z.lt index -> 0 < W ->
  forall i, (i < List.length index)%nat ->
  window_of index W i (nth i (window_bounds index W) (0%nat, 0%nat)).
Proof.
  intros Hs HW i Hi. unfold window_bounds.
  rewrite (sorted_growth_sign index Hs).
  destruct index as [|x l]; [simpl in Hi; lia|].
  assert (H0 : window_of (x :: l) W 0 (0%nat, 1%nat)).
  { unfold window_of. simpl. repeat split; try lia. }
  destruct i as [|i]; [exact H0|].
  cbn [nth]. change (S i) with (1 + i)%nat.
  apply bounds_loop_windows; try assumption.
  - simpl. lia.
  - simpl in Hi. lia.
Qed.

End WindowFacts.

(** ** The rolling sum of one group *)

Section Positions.

Context {A : Type}.

Lemma filter_none (f : A -> bool) l :
  (forall x, In x l -> f x = false) -> filter f l = [].
Proof.
  induction l as [|x l IH]; simpl; intros H; [reflexivity|].
  rewrite (H x) by auto. apply IH. auto.
Qed.

Lemma filter_all (f : A -> bool) l :
  (forall x, In x l -> f x = true) -> filter f l = l.
Proof.
  induction l as [|x l IH]; simpl; intros H; [reflexivity|].
  rewrite (H x) by auto. f_equal. apply IH. auto.
Qed.

Lemma list_by_position (l : list A) d :
  map (fun j => nth j l d) (seq 0 (List.length l)) = l.
Proof.
  induction l as [|x l IH]; [reflexivity|].
  simpl. f_equal. rewrite <- seq_shift, map_map. exact IH.
Qed.

End Positions.

Lemma filter_seq_interval (Q : nat -> bool) (n a b : nat) :
  (a <= b <= n)%nat ->
  (forall j, (j < n)%nat -> Q j = true <-> (a <= j < b)%nat) ->
  filter Q (seq 0 n) = seq a (b - a).
Proof.
  intros Hab HQ.
  replace n with (a + ((b - a) + (n - b)))%nat at 1 by lia.
  rewrite !seq_app, !filter_app. simpl.
  rewrite filter_none, filter_all, filter_none; simpl.
  - apply app_nil_r.
  - intros j Hj. apply in_seq in Hj. apply not_true_is_false.
    intros H. apply HQ in H; lia.
  - intros j Hj. apply in_seq in Hj. apply HQ; lia.
  - intros j Hj. apply in_seq in Hj. apply not_true_is_false.
    intros H. apply HQ in H; lia.
Qed.

Lemma window_rows_cells (W : Z) (g : list (Z * Row)) (i s : nat) :
  StronglySorted Z.lt (map fst g) ->
  (i < List.length g)%nat ->
  window_of (map fst g) W i (s, S i) ->
  map valor (filter (fun jr => in_window W (fst (nth i g no_row)) (fst jr)) g)
  = Cells.cells (map valor g) s (S i).
Proof.
  intros Hs Hi [_ [Hsi [Hbelow Hat]]]. simpl in Hsi, Hbelow, Hat.
  assert (Hidx : forall j, nth j (map fst g) 0 = fst (nth j g no_row))
    by (intros j; apply (map_nth fst g no_row)).
  rewrite !Hidx in Hat.
  rewrite <- (list_by_position g no_row) at 1.
  rewrite filter_map_swap.
  rewrite (filter_seq_interval _ (List.length g) s (S i)).
  - unfold Cells.cells. rewrite map_map. apply map_ext.
    intros j. symmetry. apply (map_nth valor g no_row).
  - lia.
  - intros j Hj. unfold in_window.
    rewrite andb_true_iff, Z.ltb_lt, Z.leb_le. rewrite <- !Hidx.
    rewrite <- !Hidx in Hat.
    assert (Hmono : forall a b, (a < b < List.length g)%nat ->
                      nth a (map fst g) 0 < nth b (map fst g) 0).
    { intros a b Hab. apply WindowFacts.sorted_nth; [assumption|].
      rewrite length_map. exact Hab. }
    split.
    + intros [Hlo Hhi]. split.
      * destruct (Nat.lt_ge_cases j s) as [Hlt|]; [|assumption].
        specialize (Hbelow j Hlt). lia.
      * destruct (Nat.lt_ge_cases i j) as [Hlt|]; [|lia].
        specialize (Hmono i j). lia.
    + intros [Hlo Hhi]. split.
      * destruct (Nat.eq_dec j s) as [->|Hne]; [assumption|].
        specialize (Hmono s j). lia.
      * destruct (Nat.eq_dec j i) as [->|Hne]; [lia|].
        specialize (Hmono j i). lia.
Qed.

(** Over a strictly ascending time index, the rolling sum of a row is the
    sum over the rows of its group that fall in its window. *)
Lemma rolling_sum_group (W minp : Z) (g : list (Z * Row)) :
  0 < W ->
  StronglySorted Z.lt (map fst g) ->
  rolling_sum W minp g = map (fun ir => window_result W minp g (fst ir)) g.
Proof.
  intros HW Hs. unfold rolling_sum.
  rewrite RollSumFacts.roll_sum_windows.
  apply (nth_ext _ _ None None).
  - rewrite !length_map, WindowFacts.window_bounds_length, length_map.
    reflexivity.
  - intros i Hi.
    rewrite length_map, WindowFacts.window_bounds_length, length_map in Hi.
    set (F := fun se : nat * nat =>
                RollSum.calc_sum minp
                  (Cells.summary
                     (Cells.cells (map valor g) (fst se) (snd se)))).
    set (G := fun ir : Z * Row => window_result W minp g (fst ir)).
    rewrite (nth_indep _ None (F (0%nat, 0%nat)))
      by (rewrite length_map, WindowFacts.window_bounds_length, length_map;
          exact Hi).
    rewrite (nth_indep _ None (G no_row)) by (rewrite length_map; exact Hi).
    rewrite !map_nth.
    pose proof (WindowFacts.window_bounds_windows (map fst g) W Hs HW i) as Hw.
    rewrite length_map in Hw. specialize (Hw Hi).
    destruct (nth i (Window.window_bounds (map fst g) W) (0%nat, 0%nat))
      as [s e] eqn:Hb.
    assert (He : e = S i) by (destruct Hw as [He _]; exact He).
    subst e. unfold F, G, window_result. cbn [fst snd].
    rewrite (window_rows_cells W g i s Hs Hi Hw).
    reflexivity.
Qed.

(** ** The windows of a binary64 series *)

(** Whatever the rows carry: over a strictly ascending time index, the rows
    dated in the window of row [i] are those at the positions of its
    bounds. *)
Lemma window_positions {A : Type} (W : Z) (g : list (Z * A)) (a0 : A)
    (i s : nat) :
  StronglySorted Z.lt (map fst g) ->
  (i < List.length g)%nat ->
  window_of (map fst g) W i (s, S i) ->
  filter (fun jr => in_window W (fst (nth i g (0, a0))) (fst jr)) g
  = map (fun j => nth j g (0, a0)) (seq s (S i - s)).
Proof.
  intros Hs Hi [_ [Hsi [Hbelow Hat]]]. simpl in Hsi, Hbelow, Hat.
  assert (Hidx : forall j, nth j (map fst g) 0 = fst (nth j g (0, a0)))
    by (intros j; apply (map_nth fst g (0, a0))).
  rewrite <- (list_by_position g (0, a0)) at 1.
  rewrite filter_map_swap.
  rewrite (filter_seq_interval _ (List.length g) s (S i)).
  - reflexivity.
  - lia.
  - intros j Hj. unfold in_window.
    rewrite andb_true_iff, Z.ltb_lt, Z.leb_le. rewrite <- !Hidx.
    assert (Hmono : forall a b, (a < b < List.length g)%nat ->
                      nth a (map fst g) 0 < nth b (map fst g) 0).
    { intros a b Hab. apply WindowFacts.sorted_nth; [assumption|].
      rewrite length_map. exact Hab. }
    split.
    + intros [Hlo Hhi]. split.
      * destruct (Nat.lt_ge_cases j s) as [Hlt|]; [|assumption].
        specialize (Hbelow j Hlt). lia.
      * destruct (Nat.lt_ge_cases i j) as [Hlt|]; [|lia].
        specialize (Hmono i j). lia.
    + intros [Hlo Hhi]. split.
      * destruct (Nat.eq_dec j s) as [->|Hne]; [assumption|].
        specialize (Hmono s j). lia.
      * destruct (Nat.eq_dec j i) as [->|Hne]; [lia|].
        specialize (Hmono j i). lia.
Qed.

(** The start of a window moves forward with the rows, and backward as the
    window widens. *)
Lemma window_starts_increasing (index : list Z) (W : Z) (i s s' : nat) :
  StronglySorted Z.lt index ->
  (S i < List.length index)%nat ->
  window_of index W i (s, S i) ->
  window_of index W (S i) (s', S (S i)) ->
  (s <= s')%nat.
Proof.
  intros Hs Hi [_ [Hsi [Hbelow Hat]]] [_ [Hsi' [Hbelow' Hat']]].
  simpl in *.
  destruct (Nat.le_gt_cases s s') as [|Hlt]; [assumption|exfalso].
  specialize (Hbelow s' Hlt).
  pose proof (WindowFacts.sorted_nth index Hs i (S i)). lia.
Qed.

Lemma window_starts_wider (index : list Z) (W1 W2 : Z) (i s1 s2 : nat) :
  W1 <= W2 ->
  window_of index W1 i (s1, S i) ->
  window_of index W2 i (s2, S i) ->
  (s2 <= s1)%nat.
Proof.
  intros HW [_ [Hs1 [Hbelow1 Hat1]]] [_ [Hs2 [Hbelow2 Hat2]]]. simpl in *.
  destruct (Nat.le_gt_cases s2 s1) as [|Hlt]; [assumption|exfalso].
  specialize (Hbelow2 s1 Hlt). lia.
Qed.

Lemma window_size_positive W : In W [30; 90; 180] -> 0 < W.
Proof. simpl. intros [<-|[<-|[<-|[]]]]; lia. Qed.

Module Binary64Facts.

Import Binary64 Series.

Lemma window_records_cells (W : Z) (series : list (Z * float)) (i s : nat) :
  StronglySorted Z.lt (map fst series) ->
  (i < List.length series)%nat ->
  window_of (map fst series) W i (s, S i) ->
  map snd (window_records W series i) = cells (map snd series) s (S i).
Proof.
  intros Hs Hi Hw. unfold window_records, no_record.
  rewrite (window_positions W series nan i s Hs Hi Hw).
  unfold cells. rewrite map_map. apply map_ext.
  intros j. symmetry. apply (map_nth snd series (0, nan)).
Qed.

Lemma bounds_increasing_nth (bounds : list (nat * nat)) :
  (forall i, (S i < List.length bounds)%nat ->
     (fst (nth i bounds (0, 0)) <= fst (nth (S i) bounds (0, 0)))%nat
     /\ (snd (nth i bounds (0, 0)) <= snd (nth (S i) bounds (0, 0)))%nat) ->
  RollSum.bounds_increasing bounds = true.
Proof.
  induction bounds as [|p rest IH]; intros H; [reflexivity|].
  destruct rest as [|q rest]; [reflexivity|].
  change (((fst p <=? fst q)%nat && (snd p <=? snd q)%nat
           && RollSum.bounds_increasing (q :: rest)) = true).
  destruct (H 0%nat) as [Hf Hsn]; [simpl; lia|]. simpl in Hf, Hsn.
  rewrite !andb_true_iff, !Nat.leb_le. repeat split; try assumption.
  apply IH. intros i Hi. apply (H (S i)). simpl in *. lia.
Qed.

(** The bounds of an ascending index are monotonic: [roll_sum] slides. *)
Lemma window_bounds_increasing (index : list Z) (W : Z) :
  StronglySorted Z.lt index -> 0 < W ->
  RollSum.bounds_increasing (Window.window_bounds index W) = true.
Proof.
  intros Hs HW. apply bounds_increasing_nth.
  intros i Hi. rewrite WindowFacts.window_bounds_length in Hi.
  pose proof (WindowFacts.window_bounds_windows index W Hs HW i) as Hw.
  pose proof (WindowFacts.window_bounds_windows index W Hs HW (S i)) as Hw'.
  specialize (Hw ltac:(lia)). specialize (Hw' Hi).
  destruct (nth i (Window.window_bounds index W) (0, 0)%nat) as [s e].
  destruct (nth (S i) (Window.window_bounds index W) (0, 0)%nat) as [s' e'].
  assert (e = S i) by apply Hw. assert (e' = S (S i)) by apply Hw'.
  subst e e'. simpl. split; [|lia].
  eapply window_starts_increasing; eassumption.
Qed.

Lemma roll_loop_length values mono prev st bounds :
  List.length (roll_loop values mono prev st bounds) = List.length bounds.
Proof.
  revert prev st. induction bounds as [|[s e] rest IH]; intros prev st;
    [reflexivity|]. simpl. rewrite IH. reflexivity.
Qed.

Lemma roll_loop_first values prev st bounds :
  prev = None ->
  (0 < List.length bounds)%nat ->
  nth 0 (roll_loop values true prev st bounds) no_state
  = from_scratch values (fst (nth 0 bounds (0, 0)%nat))
      (snd (nth 0 bounds (0, 0)%nat)).
Proof.
  intros -> Hlen. destruct bounds as [|[s e] rest]; [simpl in Hlen; lia|].
  reflexivity.
Qed.

Lemma roll_loop_next values prev st bounds k :
  (S k < List.length bounds)%nat ->
  nth (S k) (roll_loop values true prev st bounds) no_state
  = if (snd (nth k bounds (0, 0)%nat) <=? fst (nth (S k) bounds (0, 0)%nat))%nat
    then from_scratch values (fst (nth (S k) bounds (0, 0)%nat))
           (snd (nth (S k) bounds (0, 0)%nat))
    else slide values (fst (nth k bounds (0, 0)%nat))
           (snd (nth k bounds (0, 0)%nat))
           (nth k (roll_loop values true prev st bounds) no_state)
           (fst (nth (S k) bounds (0, 0)%nat))
           (snd (nth (S k) bounds (0, 0)%nat)).
Proof.
  revert prev st k.
  induction bounds as [|[s e] rest IH]; intros prev st k Hk;
    [simpl in Hk; lia|].
  cbn [roll_loop].
  set (st' := match prev with
              | Some (s0, e0) =>
                  if negb true || (e0 <=? s)%nat
                  then from_scratch values s e
                  else slide values s0 e0 st s e
              | None => from_scratch values s e
              end).
  destruct k as [|k].
  - destruct rest as [|[s' e'] rest]; [simpl in Hk; lia|]. reflexivity.
  - change (nth (S (S k)) (st' :: roll_loop values true (Some (s, e)) st' rest)
              no_state)
      with (nth (S k) (roll_loop values true (Some (s, e)) st' rest) no_state).
    change (nth (S k) (st' :: roll_loop values true (Some (s, e)) st' rest)
              no_state)
      with (nth k (roll_loop values true (Some (s, e)) st' rest) no_state).
    change (nth (S (S k)) ((s, e) :: rest) (0, 0)%nat)
      with (nth (S k) rest (0, 0)%nat).
    change (nth (S k) ((s, e) :: rest) (0, 0)%nat)
      with (nth k rest (0, 0)%nat).
    apply IH. simpl in Hk. lia.
Qed.

(** The states of an ascending series, row by row: the first row and a
    row alone in its window are summed from scratch, every other row slides
    the state of the row before. *)
Lemma roll_states_windows (W : Z) (index : list Z) (values : list float) :
  0 < W ->
  StronglySorted Z.lt index ->
  let bounds := Window.window_bounds index W in
  let states := roll_states values bounds in
  List.length states = List.length index
  /\ forall i, (i < List.length index)%nat ->
       exists s,
         nth i bounds (0, 0)%nat = (s, S i)
         /\ window_of index W i (s, S i)
         /\ nth i states no_state
            = match i with
              | O => from_scratch values s (S i)
              | S i' =>
                  if (i <=? s)%nat
                  then from_scratch values s (S i)
                  else slide values
                         (fst (nth i' bounds (0, 0)%nat)) i
                         (nth i' states no_state) s (S i)
              end.
Proof.
  intros HW Hs bounds states.
  assert (Hmono : RollSum.bounds_increasing bounds = true)
    by (apply window_bounds_increasing; assumption).
  assert (Hlen : List.length bounds = List.length index)
    by apply WindowFacts.window_bounds_length.
  split.
  { unfold states, roll_states.
    rewrite roll_loop_length. exact Hlen. }
  intros i Hi.
  assert (Hw : forall j, (j < List.length index)%nat ->
                 window_of index W j (nth j bounds (0, 0)%nat))
    by (intros j Hj; apply WindowFacts.window_bounds_windows; assumption).
  pose proof (Hw i Hi) as Hwi.
  destruct (nth i bounds (0, 0)%nat) as [s e] eqn:Hb.
  assert (He : e = S i) by apply Hwi. subst e.
  exists s. split; [reflexivity|]. split; [exact Hwi|].
  unfold states, roll_states. rewrite Hmono.
  destruct i as [|i'].
  - rewrite roll_loop_first by (try reflexivity; lia).
    rewrite Hb. reflexivity.
  - rewrite roll_loop_next by lia.
    rewrite Hb. cbn [fst snd].
    pose proof (Hw i' ltac:(lia)) as Hwi'.
    destruct (nth i' bounds (0, 0)%nat) as [s0 e0].
    assert (He0 : e0 = S i') by apply Hwi'. subst e0.
    reflexivity.
Qed.

End Binary64Facts.

(** ** Integer amounts in binary64

    Up to a bound [B] on which binary64 computes without rounding, the
    running sum of a series of integer amounts holds the exact sum of each
    window. *)

Module IntegersFacts.

Import Integers.

Lemma upto_spec B x : Z.abs x <= B -> In x (upto B).
Proof.
  intros Hx. unfold upto. apply in_map_iff.
  exists (Z.to_nat (x + B)). split; [lia|].
  apply in_seq. lia.
Qed.

Lemma guarded_spec B x test :
  guarded B x test = true -> Z.abs x <= B -> test = true.
Proof.
  unfold guarded. intros H Hx.
  apply Z.leb_le in Hx. rewrite Hx in H. exact H.
Qed.

Lemma exact_check_sound B : exact_check B = true -> exact_upto B.
Proof.
  unfold exact_check. intros H a b Ha Hb.
  rewrite forallb_forall in H. specialize (H a (upto_spec B a Ha)).
  rewrite forallb_forall in H. specialize (H b (upto_spec B b Hb)).
  unfold exact_pair in H. rewrite !andb_true_iff in H.
  destruct H as [[[[[[H1 H2] H3] H4] H5] H6] H7].
  repeat split.
  - intros Hab. apply FloatAxioms.Leibniz.eqb_spec.
    exact (guarded_spec _ _ _ H1 Hab).
  - intros Hab. apply FloatAxioms.Leibniz.eqb_spec.
    exact (guarded_spec _ _ _ H2 Hab).
  - intros Hab. apply FloatAxioms.Leibniz.eqb_spec.
    exact (guarded_spec _ _ _ H3 Hab).
  - apply FloatAxioms.Leibniz.eqb_spec. exact H4.
  - intros Hpos Hab. apply FloatAxioms.Leibniz.eqb_spec.
    apply Z.ltb_lt in Hpos. rewrite Hpos in H5. simpl in H5.
    exact (guarded_spec _ _ _ H5 Hab).
  - apply Bool.eqb_prop in H6. exact H6.
  - apply Bool.eqb_prop in H7. exact H7.
Qed.

Lemma total_app l l' : total (l ++ l') = total l + total l'.
Proof. unfold total. induction l as [|x l IH]; simpl; lia. Qed.

Lemma range_sum_empty vals a : range_sum vals a a = 0.
Proof. unfold range_sum. rewrite Nat.sub_diag. reflexivity. Qed.

Lemma range_sum_last vals a b :
  (a <= b)%nat ->
  range_sum vals a (S b) = range_sum vals a b + nth b vals 0.
Proof.
  intros Hab. unfold range_sum.
  replace (S b - a)%nat with (S (b - a)) by lia.
  rewrite seq_S, map_app, total_app. simpl.
  replace (a + (b - a))%nat with b by lia. lia.
Qed.

Lemma range_sum_first vals a b :
  (a < b)%nat ->
  range_sum vals a b = nth a vals 0 + range_sum vals (S a) b.
Proof.
  intros Hab. unfold range_sum.
  replace (b - a)%nat with (S (b - S a)) by lia. reflexivity.
Qed.

Lemma range_sum_run vals a n p :
  (forall j, (a <= j < a + n)%nat -> nth j vals 0 = p) ->
  range_sum vals a (a + n) = p * Z.of_nat n.
Proof.
  induction n as [|n IH]; intros H.
  - rewrite Nat.add_0_r, range_sum_empty. lia.
  - rewrite Nat.add_succ_r, range_sum_last by lia.
    rewrite IH by (intros j Hj; apply H; lia).
    rewrite (H (a + n)%nat) by lia. lia.
Qed.

Lemma range_sum_constant vals a b p :
  (a <= b)%nat ->
  (forall j, (a <= j < b)%nat -> nth j vals 0 = p) ->
  range_sum vals a b = p * Z.of_nat (b - a).
Proof.
  intros Hab H.
  replace b with (a + (b - a))%nat at 1 by lia.
  apply range_sum_run. intros j Hj. apply H. lia.
Qed.

Lemma total_abs_nonneg l : 0 <= total (map Z.abs l).
Proof. unfold total. induction l as [|x l IH]; simpl; lia. Qed.

Lemma total_cons x l : total (x :: l) = x + total l.
Proof. reflexivity. Qed.

Lemma abs_sum_bound vals a n :
  total (map (fun j => Z.abs (nth j vals 0)) (seq a n))
  <= total (map Z.abs vals).
Proof.
  revert a n. induction vals as [|x l IH]; intros a n.
  - replace (map (fun j => Z.abs (nth j (@nil Z) 0)) (seq a n))
      with (map (fun _ : nat => 0) (seq a n))
      by (apply map_ext; intros [|j]; reflexivity).
    generalize (seq a n). intros s.
    induction s as [|y s IHs]; [simpl; lia|].
    cbn [map]. rewrite total_cons. exact IHs.
  - assert (Hshift : forall b m,
              map (fun j => Z.abs (nth j (x :: l) 0)) (seq (S b) m)
              = map (fun j => Z.abs (nth j l 0)) (seq b m)).
    { intros b m. rewrite <- seq_shift, map_map. reflexivity. }
    cbn [map]. rewrite total_cons.
    destruct a as [|a].
    + destruct n as [|n].
      * pose proof (total_abs_nonneg l). cbn [seq map].
        change (total []) with 0. lia.
      * cbn [seq map]. rewrite total_cons, Hshift. cbn [nth].
        specialize (IH 0%nat n). lia.
    + rewrite Hshift. specialize (IH a n). lia.
Qed.

Lemma total_abs l : Z.abs (total l) <= total (map Z.abs l).
Proof. unfold total. induction l as [|x l IH]; simpl; lia. Qed.

Lemma range_sum_bound vals a b :
  Z.abs (range_sum vals a b) <= total (map Z.abs vals).
Proof.
  unfold range_sum. etransitivity; [apply total_abs|].
  rewrite map_map. apply abs_sum_bound.
Qed.

Lemma nth_bound vals j : Z.abs (nth j vals 0) <= total (map Z.abs vals).
Proof.
  pose proof (range_sum_bound vals j (S j)) as H.
  rewrite range_sum_last, range_sum_empty in H by lia. exact H.
Qed.


Section Exact.

Variable B : Z.
Hypothesis exact : exact_upto B.
Variable vals : list Z.
Hypothesis small : total (map Z.abs vals) <= B.
Hypothesis short : Z.of_nat (List.length vals) <= B.

Lemma small_nth j : Z.abs (nth j vals 0) <= B.
Proof. pose proof (nth_bound vals j). lia. Qed.

Lemma small_range a b : Z.abs (range_sum vals a b) <= B.
Proof. pose proof (range_sum_bound vals a b). lia. Qed.

Lemma cells_nth j :
  (j < List.length vals)%nat ->
  nth j (map cell vals) nan = cell (nth j vals 0).
Proof.
  intros Hj. rewrite (nth_indep _ nan (cell 0)) by (rewrite length_map; lia).
  apply map_nth.
Qed.

Lemma ex_add a b :
  Z.abs a <= B -> Z.abs b <= B -> Z.abs (a + b) <= B ->
  PrimFloat.add (cell a) (cell b) = cell (a + b).
Proof. intros Ha Hb. apply (exact a b Ha Hb). Qed.

Lemma ex_sub a b :
  Z.abs a <= B -> Z.abs b <= B -> Z.abs (a - b) <= B ->
  PrimFloat.sub (cell a) (cell b) = cell (a - b).
Proof. intros Ha Hb. apply (exact a b Ha Hb). Qed.

Lemma ex_remove a b :
  Z.abs a <= B -> Z.abs b <= B -> Z.abs (a - b) <= B ->
  PrimFloat.add (cell a) (removed (cell b)) = cell (a - b).
Proof. intros Ha Hb. apply (exact a b Ha Hb). Qed.

Lemma ex_residue b :
  Z.abs b <= B -> PrimFloat.sub (cell (- b)) (removed (cell b)) = 0%float.
Proof. intros Hb. apply (exact b b Hb Hb). Qed.

Lemma ex_mul a b :
  Z.abs a <= B -> Z.abs b <= B -> 0 < b -> Z.abs (a * b) <= B ->
  PrimFloat.mul (cell a) (cell b) = cell (a * b).
Proof. intros Ha Hb. apply (exact a b Ha Hb). Qed.

Lemma ex_eqb a b :
  Z.abs a <= B -> Z.abs b <= B -> PrimFloat.eqb (cell a) (cell b) = (a =? b).
Proof. intros Ha Hb. apply (exact a b Ha Hb). Qed.

Lemma ex_leb a b :
  Z.abs a <= B -> Z.abs b <= B -> PrimFloat.leb (cell a) (cell b) = (a <=? b).
Proof. intros Ha Hb. apply (exact a b Ha Hb). Qed.

Lemma B_nonneg : 0 <= B.
Proof. pose proof (total_abs_nonneg vals). lia. Qed.

Lemma represents_setup s first :
  (s <= List.length vals)%nat ->
  represents vals s s s (Binary64.setup first).
Proof.
  intros Hs. constructor; cbn.
  - lia.
  - lia.
  - rewrite range_sum_empty. reflexivity.
  - reflexivity.
  - reflexivity.
  - exists 0%nat. repeat split; lia.
Qed.

Lemma represents_add lo a b st :
  represents vals lo a b st ->
  (b < List.length vals)%nat ->
  represents vals lo a (S b)
    (Binary64.add_sum st (nth b (map cell vals) nan)).
Proof.
  intros [Hord Hn Hs Hca Hcr [k [Hk [Hkle Hrun]]]] Hb.
  rewrite cells_nth by assumption.
  set (v := nth b vals 0).
  assert (Hv : Z.abs v <= B) by apply small_nth.
  pose proof B_nonneg as HB.
  pose proof (small_range a b) as HS.
  pose proof (small_range a (S b)) as HS'.
  rewrite range_sum_last in HS' by lia. fold v in HS'.
  unfold Binary64.add_sum.
  rewrite (ex_eqb v v Hv Hv), Z.eqb_refl. cbv zeta.
  rewrite Hca, Hs.
  assert (Hy : PrimFloat.sub (cell v) 0%float = cell v).
  { change 0%float with (cell 0).
    rewrite ex_sub by (rewrite ?Z.sub_0_r; simpl; lia).
    f_equal. lia. }
  rewrite Hy.
  rewrite (ex_add (range_sum vals a b) v) by assumption.
  constructor; cbn [Binary64.nobs Binary64.sum_x Binary64.compensation_add
                      Binary64.compensation_remove
                      Binary64.num_consecutive_same_value
                      Binary64.prev_value].
  - lia.
  - rewrite Hn. lia.
  - rewrite range_sum_last by lia. reflexivity.
  - rewrite ex_sub by (try assumption;
                       replace (range_sum vals a b + v - range_sum vals a b)
                         with v by lia; assumption).
    replace (range_sum vals a b + v - range_sum vals a b) with v by lia.
    rewrite ex_sub by (rewrite ?Z.sub_diag; simpl; lia).
    rewrite Z.sub_diag. reflexivity.
  - exact Hcr.
  - destruct (Nat.eq_dec lo b) as [Hlo|Hlo].
    + assert (k = 0)%nat by lia. subst k.
      exists 1%nat. split.
      { rewrite Hk. destruct (PrimFloat.eqb (cell v) (Binary64.prev_value st));
          reflexivity. }
      split; [lia|]. intros _. split; [lia|].
      replace (S b - 1)%nat with b by lia. split; [reflexivity|].
      intros j Hj. assert (j = b) by lia. subst j. reflexivity.
    + destruct Hrun as [Hk1 [Hprev Hall]]; [lia|].
      rewrite Hprev, ex_eqb by (try assumption; apply small_nth).
      replace (S b - 1)%nat with b by lia. fold v.
      destruct (Z.eqb_spec v (nth (b - 1) vals 0)) as [Heq|Hne].
      * exists (S k). split; [rewrite Hk; lia|]. split; [lia|].
        intros _. split; [lia|]. split; [reflexivity|].
        intros j Hj. destruct (Nat.eq_dec j b) as [->|Hjb]; [reflexivity|].
        rewrite Hall by lia. symmetry. exact Heq.
      * exists 1%nat. split; [reflexivity|]. split; [lia|].
        intros _. split; [lia|]. split; [reflexivity|].
        intros j Hj. assert (j = b) by lia. subst j. reflexivity.
Qed.

Lemma represents_remove lo a b st :
  represents vals lo a b st ->
  (a < b)%nat ->
  represents vals lo (S a) b
    (Binary64.remove_sum st (nth a (map cell vals) nan)).
Proof.
  intros [Hord Hn Hs Hca Hcr Hrun] Hab.
  rewrite cells_nth by lia.
  set (v := nth a vals 0).
  assert (Hv : Z.abs v <= B) by apply small_nth.
  pose proof B_nonneg as HB.
  pose proof (small_range a b) as HS.
  pose proof (small_range (S a) b) as HS'.
  pose proof (range_sum_first vals a b Hab) as Hfirst. fold v in Hfirst.
  unfold Binary64.remove_sum.
  rewrite (ex_eqb v v Hv Hv), Z.eqb_refl. cbv zeta.
  rewrite Hcr, Hs.
  change (PrimFloat.sub (PrimFloat.opp (cell v)) 0%float)
    with (removed (cell v)).
  rewrite (ex_remove (range_sum vals a b) v) by (try assumption; lia).
  replace (range_sum vals a b - v) with (range_sum vals (S a) b) by lia.
  constructor; cbn [Binary64.nobs Binary64.sum_x Binary64.compensation_add
                      Binary64.compensation_remove
                      Binary64.num_consecutive_same_value
                      Binary64.prev_value].
  - lia.
  - rewrite Hn. lia.
  - reflexivity.
  - exact Hca.
  - rewrite ex_sub by (try assumption; lia).
    replace (range_sum vals (S a) b - range_sum vals a b) with (- v) by lia.
    apply ex_residue. exact Hv.
  - exact Hrun.
Qed.

Lemma represents_adds lo a e0 n st :
  represents vals lo a e0 st ->
  (e0 + n <= List.length vals)%nat ->
  represents vals lo a (e0 + n)
    (fold_left
       (fun st j => Binary64.add_sum st (nth j (map cell vals) nan))
       (seq e0 n) st).
Proof.
  intros Hrep. induction n as [|n IH]; intros Hn.
  - simpl. rewrite Nat.add_0_r. exact Hrep.
  - rewrite seq_S, fold_left_app. cbn [fold_left].
    rewrite Nat.add_succ_r. apply represents_add; [apply IH; lia|lia].
Qed.

Lemma represents_over_add lo a e0 e st :
  represents vals lo a e0 st ->
  (e0 <= e <= List.length vals)%nat ->
  represents vals lo a e
    (Binary64.over Binary64.add_sum (map cell vals) e0 e st).
Proof.
  intros Hrep He. unfold Binary64.over.
  replace e with (e0 + (e - e0))%nat at 1 by lia.
  apply represents_adds; [exact Hrep|lia].
Qed.

Lemma represents_removes lo s0 n b st :
  represents vals lo s0 b st ->
  (s0 + n <= b)%nat ->
  represents vals lo (s0 + n) b
    (fold_left
       (fun st j => Binary64.remove_sum st (nth j (map cell vals) nan))
       (seq s0 n) st).
Proof.
  intros Hrep. induction n as [|n IH]; intros Hn.
  - simpl. rewrite Nat.add_0_r. exact Hrep.
  - rewrite seq_S, fold_left_app. cbn [fold_left].
    rewrite Nat.add_succ_r. apply represents_remove; [apply IH; lia|lia].
Qed.

Lemma represents_over_remove lo s0 s b st :
  represents vals lo s0 b st ->
  (s0 <= s <= b)%nat ->
  represents vals lo s b
    (Binary64.over Binary64.remove_sum (map cell vals) s0 s st).
Proof.
  intros Hrep Hs. unfold Binary64.over.
  replace s with (s0 + (s - s0))%nat at 1 by lia.
  apply represents_removes; [exact Hrep|lia].
Qed.

Lemma represents_from_scratch s e :
  (s <= e <= List.length vals)%nat ->
  represents vals s s e (Binary64.from_scratch (map cell vals) s e).
Proof.
  intros Hse. unfold Binary64.from_scratch.
  apply represents_over_add; [apply represents_setup; lia|exact Hse].
Qed.

Lemma represents_slide lo s0 e0 st s e :
  represents vals lo s0 e0 st ->
  (s0 <= s <= e0)%nat -> (e0 <= e <= List.length vals)%nat ->
  represents vals lo s e (Binary64.slide (map cell vals) s0 e0 st s e).
Proof.
  intros Hrep Hs He. unfold Binary64.slide.
  apply represents_over_add; [|exact He].
  apply represents_over_remove; assumption.
Qed.

Lemma represents_calc_sum lo a b st :
  represents vals lo a b st ->
  (a < b)%nat ->
  Binary64.calc_sum 1 st = cell (range_sum vals a b).
Proof.
  intros [Hord Hn Hs Hca Hcr [k [Hk [Hkle Hrun]]]] Hab.
  unfold Binary64.calc_sum. rewrite Hn, Hk.
  replace (Z.of_nat (b - a) =? 0) with false by (symmetry; apply Z.eqb_neq; lia).
  replace (1 <=? Z.of_nat (b - a)) with true by (symmetry; apply Z.leb_le; lia).
  cbn [andb].
  destruct (Z.leb_spec (Z.of_nat (b - a)) (Z.of_nat k)) as [Hle|Hgt];
    [|exact Hs].
  destruct Hrun as [Hk1 [Hprev Hall]]; [lia|].
  rewrite Hprev. fold (cell (Z.of_nat (b - a))).
  pose proof (small_range a b) as HS.
  rewrite (range_sum_constant vals a b (nth (b - 1) vals 0)) in HS |- *
    by (try lia; intros j Hj; apply Hall; lia).
  apply ex_mul; try assumption.
  - apply small_nth.
  - lia.
  - lia.
Qed.

End Exact.

End IntegersFacts.

Module ExactSeries.

Import Integers IntegersFacts.

Section Series.

Variables B W : Z.
Hypothesis exact : exact_upto B.
Hypothesis positive : 0 < W.
Variable zs : list (Z * Z).
Hypothesis sorted : StronglySorted Z.lt (map fst zs).
Hypothesis small : total (map Z.abs (map snd zs)) <= B.
Hypothesis short : Z.of_nat (List.length zs) <= B.

Lemma series_index : map fst (series zs) = map fst zs.
Proof. unfold series. rewrite map_map. reflexivity. Qed.

Lemma series_values : map snd (series zs) = map cell (map snd zs).
Proof. unfold series. rewrite !map_map. reflexivity. Qed.

Lemma window_sum_range i s :
  (i < List.length zs)%nat ->
  window_of (map fst zs) W i (s, S i) ->
  window_sum W zs i = range_sum (map snd zs) s (S i).
Proof.
  intros Hi Hw. unfold window_sum, range_sum.
  rewrite (window_positions W zs 0 i s sorted Hi Hw).
  rewrite map_map. f_equal. apply map_ext. intros j.
  symmetry. apply (map_nth snd zs (0, 0)).
Qed.

Lemma roll_states_represent :
  let bounds := Window.window_bounds (map fst zs) W in
  let states := Binary64.roll_states (map cell (map snd zs)) bounds in
  forall i, (i < List.length zs)%nat ->
    exists lo,
      represents (map snd zs) lo (fst (nth i bounds (0, 0)%nat)) (S i)
        (nth i states Series.no_state).
Proof.
  intros bounds states.
  destruct (Binary64Facts.roll_states_windows W (map fst zs) (map cell (map snd zs))
              positive sorted) as [_ Hrows].
  fold bounds in Hrows. fold states in Hrows.
  assert (short' : Z.of_nat (List.length (map snd zs)) <= B)
    by (rewrite length_map; exact short).
  induction i as [|i IH]; intros Hi.
  - destruct (Hrows 0%nat) as [s [Hb [Hw Hst]]]; [rewrite length_map; lia|].
    rewrite Hb, Hst. cbn [fst]. exists s.
    apply (represents_from_scratch B exact (map snd zs) small).
    destruct Hw as [_ [Hle _]]. simpl in Hle. rewrite length_map. lia.
  - destruct (Hrows (S i)) as [s [Hb [Hw Hst]]]; [rewrite length_map; lia|].
    rewrite Hb, Hst. cbn [fst].
    destruct (Nat.leb_spec (S i) s) as [Hfresh|Hslide].
    + exists s.
      apply (represents_from_scratch B exact (map snd zs) small).
      destruct Hw as [_ [Hle _]]. simpl in Hle. rewrite length_map. lia.
    + destruct (IH ltac:(lia)) as [lo Hrep].
      destruct (Hrows i) as [s0 [Hb0 [Hw0 _]]]; [rewrite length_map; lia|].
      rewrite Hb0 in Hrep |- *. cbn [fst] in *.
      exists lo.
      apply (represents_slide B exact (map snd zs) small); try assumption.
      * split; [|lia].
        apply (window_starts_increasing (map fst zs) W i s0 s);
          try assumption. rewrite length_map. lia.
      * rewrite length_map. lia.
Qed.

Lemma rolling_sum_exact :
  Binary64.rolling_sum W 1 (series zs)
  = map (fun i => cell (window_sum W zs i)) (seq 0 (List.length zs)).
Proof.
  unfold Binary64.rolling_sum, Binary64.roll_sum.
  rewrite series_index, series_values.
  destruct (Binary64Facts.roll_states_windows W (map fst zs) (map cell (map snd zs))
              positive sorted) as [Hlen Hrows].
  rewrite length_map in Hlen.
  assert (short' : Z.of_nat (List.length (map snd zs)) <= B)
    by (rewrite length_map; exact short).
  apply (nth_ext _ _ nan nan).
  - rewrite !length_map, length_seq. exact Hlen.
  - intros i Hi. rewrite length_map, Hlen in Hi.
    rewrite (nth_indep _ nan (Binary64.calc_sum 1 Series.no_state))
      by (rewrite length_map, Hlen; exact Hi).
    rewrite map_nth.
    rewrite (nth_indep _ nan ((fun i => cell (window_sum W zs i)) 0%nat))
      by (rewrite length_map, length_seq; exact Hi).
    rewrite (map_nth (fun i => cell (window_sum W zs i))).
    rewrite seq_nth by exact Hi. cbn [Nat.add].
    destruct (roll_states_represent i Hi) as [lo Hrep].
    destruct (Hrows i) as [s [Hb [Hw _]]]; [rewrite length_map; exact Hi|].
    rewrite Hb in Hrep. cbn [fst] in Hrep.
    rewrite (represents_calc_sum B exact (map snd zs) small short'
               lo s (S i) _ Hrep).
    + rewrite (window_sum_range i s Hi Hw). reflexivity.
    + destruct Hw as [_ [Hle _]]. simpl in Hle. lia.
Qed.

Lemma column_exact i :
  (i < List.length zs)%nat ->
  Series.column W (series zs) i = cell (window_sum W zs i).
Proof.
  intros Hi. unfold Series.column. rewrite rolling_sum_exact.
  rewrite (nth_indep _ nan ((fun i => cell (window_sum W zs i)) 0%nat))
    by (rewrite length_map, length_seq; exact Hi).
  rewrite (map_nth (fun i => cell (window_sum W zs i))).
  rewrite seq_nth by exact Hi. reflexivity.
Qed.

Lemma window_sum_small i : Z.abs (window_sum W zs i) <= B.
Proof.
  unfold window_sum.
  etransitivity; [apply total_abs|].
  etransitivity; [|exact small].
  generalize (fun r : Z * Z => in_window W (fst (nth i zs (0, 0))) (fst r)).
  intros f. clear.
  induction zs as [|r l IH]; [simpl; lia|].
  cbn [filter map]. rewrite total_cons.
  destruct (f r); cbn [map]; rewrite ?total_cons; lia.
Qed.

End Series.

End ExactSeries.

Lemma total_filter_wider (f g : Z * Z -> bool) (l : list (Z * Z)) :
  (forall r, f r = true -> g r = true) ->
  (forall r, In r l -> 0 <= snd r) ->
  total (map snd (filter f l)) <= total (map snd (filter g l)).
Proof.
  intros Hfg. induction l as [|r l IH]; intros Hpos; [reflexivity|].
  assert (IH' := IH (fun x Hx => Hpos x (or_intror Hx))).
  specialize (Hpos r (or_introl eq_refl)).
  cbn [filter]. destruct (f r) eqn:Hf.
  - rewrite (Hfg r Hf). cbn [map]. rewrite !IntegersFacts.total_cons. lia.
  - destruct (g r); cbn [map]; rewrite ?IntegersFacts.total_cons; lia.
Qed.

Lemma window_sum_wider (W1 W2 : Z) (zs : list (Z * Z)) (i : nat) :
  W1 <= W2 ->
  (forall r, In r zs -> 0 <= snd r) ->
  Integers.window_sum W1 zs i <= Integers.window_sum W2 zs i.
Proof.
  intros HW Hpos. unfold Integers.window_sum.
  apply total_filter_wider; [|exact Hpos].
  intros r. unfold in_window. rewrite !andb_true_iff, !Z.ltb_lt. lia.
Qed.


(** The operations are exact on the integers up to 180, by running them;
    past [2 ^ 53] they are not, since binary64 no longer tells
    [2 ^ 53 + 1] from [2 ^ 53]. *)
Lemma exact_upto_180 : Integers.exact_upto 180.
Proof. apply IntegersFacts.exact_check_sound. vm_compute. reflexivity. Qed.

Lemma exact_upto_limit (B : Z) : 2 ^ 53 < B -> ~ Integers.exact_upto B.
Proof.
  intros HB Hex.
  destruct (Hex (2 ^ 53) (2 ^ 53 + 1)) as [_ [_ [_ [_ [_ [Heqb _]]]]]];
    try (simpl Z.abs; lia).
  vm_compute in Heqb. discriminate.
Qed.


(** ** Groups of rows *)

Section Groups.

Context {K R : Type}.
Variable cmp : K -> K -> comparison.
Hypothesis order : total_order cmp.
Variable keyof : R -> K.

Lemma own_updates_rows k df start :
  own_updates cmp (fun r => Some (keyof r)) rows_upd k df start
  = match filter (is_key cmp keyof k) df with
    | [] => start
    | rows => Some (or_nil start ++ rows)
    end.
Proof.
  unfold own_updates. revert start.
  induction df as [|r df IH]; intros start; cbn [fold_left filter];
    [reflexivity|].
  rewrite IH. clear IH. unfold is_key at 2.
  destruct (cmp (keyof r) k); try reflexivity.
  destruct (filter (is_key cmp keyof k) df) as [|r' rows];
    destruct start as [g|]; simpl; try reflexivity.
  - rewrite <- app_assoc. reflexivity.
Qed.

(** A row whose key is not before the last key of the list goes to the
    end of the last group, or opens a group after it. *)
Lemma group_upd_last k r (acc : list (K * list R)) :
  ascending cmp acc ->
  Forall (fun k' => not_after cmp k' k) (map fst acc) ->
  List.concat (map snd (group_upd cmp k (rows_upd r) acc))
  = List.concat (map snd acc) ++ [r].
Proof.
  unfold ascending.
  induction acc as [|[k0 g0] acc IH]; simpl; intros Hs Hall;
    [reflexivity|].
  inversion Hs as [|? ? Hs' Hafter]; subst.
  inversion Hall as [|? ? Hk0 Hall']; subst.
  destruct (cmp k k0) eqn:E; simpl.
  - destruct acc as [|[k1 g1] acc].
    + simpl. rewrite !app_nil_r. reflexivity.
    + exfalso. apply (cmp_eq cmp order) in E. subst k0.
      inversion Hafter as [|? ? Hlt _]; subst.
      inversion Hall' as [|? ? Hk1 _]; subst.
      apply Hk1. unfold before in Hlt. simpl in Hlt.
      rewrite (cmp_antisym cmp order), Hlt. reflexivity.
  - exfalso. apply Hk0. rewrite (cmp_antisym cmp order), E. reflexivity.
  - rewrite IH by assumption. rewrite app_assoc. reflexivity.
Qed.

Lemma group_fold_concat df (acc : list (K * list R)) :
  ascending cmp acc ->
  StronglySorted (not_after cmp) (map keyof df) ->
  (forall k' r, In k' (map fst acc) -> In r df -> not_after cmp k' (keyof r)) ->
  List.concat
    (map snd (group_fold cmp (fun r => Some (keyof r)) rows_upd df acc))
  = List.concat (map snd acc) ++ df.
Proof.
  unfold group_fold. revert acc.
  induction df as [|r df IH]; intros acc Hasc Hs Hacc; cbn [fold_left].
  - rewrite app_nil_r. reflexivity.
  - simpl in Hs. inversion Hs as [|? ? Hs' Hall]; subst.
    rewrite IH.
    + rewrite group_upd_last.
      * rewrite <- app_assoc. reflexivity.
      * exact Hasc.
      * apply Forall_forall. intros k' Hk'. apply Hacc; simpl; auto.
    + apply group_upd_ascending; assumption.
    + exact Hs'.
    + intros k' r' Hk' Hr'. apply group_upd_keys in Hk'.
      destruct Hk' as [->|Hk'].
      * rewrite Forall_forall in Hall. apply Hall.
        apply in_map. exact Hr'.
      * apply Hacc; simpl; auto.
Qed.

(** Every group holds the rows of its key, in row order. *)
Lemma group_fold_rows df k g :
  In (k, g) (group_fold cmp (fun r => Some (keyof r)) rows_upd df []) ->
  g = filter (is_key cmp keyof k) df.
Proof.
  intros Hin.
  apply (in_group_get cmp order) in Hin;
    [|apply group_fold_ascending; [exact order|constructor]].
  rewrite (group_fold_get cmp order) in Hin by constructor.
  rewrite own_updates_rows in Hin. simpl in Hin.
  destruct (filter (is_key cmp keyof k) df); congruence.
Qed.

End Groups.

(** ** The frame handed to the window stage *)

Lemma sort_compare_agg_row ka x :
  sort_compare (agg_row ka) (agg_row x) = key_compare (fst ka) (fst x).
Proof.
  destruct ka as [[e d] v], x as [[e' d'] v'].
  unfold sort_compare, key_compare. simpl.
  destruct (String.compare e e'); reflexivity.
Qed.

Lemma sort_insert_last ka (acc0 : list (key * Z)) :
  Forall (fun k' => before key_compare k' (fst ka)) (map fst acc0) ->
  sort_insert (agg_row ka) (map agg_row acc0)
  = map agg_row acc0 ++ [agg_row ka].
Proof.
  induction acc0 as [|x acc0 IH]; simpl; intros H; [reflexivity|].
  inversion H as [|? ? Hlt Hall]; subst. unfold before in Hlt.
  rewrite sort_compare_agg_row.
  rewrite (cmp_antisym key_compare key_order), Hlt. simpl.
  rewrite IH by assumption. reflexivity.
Qed.

Lemma sort_values_from (l acc0 : list (key * Z)) :
  StronglySorted (before key_compare) (map fst acc0 ++ map fst l) ->
  fold_left (fun sorted r => sort_insert r sorted)
    (map agg_row l) (map agg_row acc0)
  = map agg_row (acc0 ++ l).
Proof.
  revert acc0. induction l as [|ka l IH]; simpl; intros acc0 Hs.
  - rewrite app_nil_r. reflexivity.
  - rewrite sort_insert_last
      by (eapply sorted_app_before; exact Hs).
    change [agg_row ka] with (map agg_row [ka]). rewrite <- map_app.
    rewrite IH.
    + rewrite <- app_assoc. reflexivity.
    + rewrite map_app, <- app_assoc. exact Hs.
Qed.

Lemma sort_values_agg (acc : list (key * Z)) :
  ascending key_compare acc ->
  sort_values (map agg_row acc) = map agg_row acc.
Proof.
  intros Hs. unfold sort_values.
  change (@nil Row) with (map agg_row []).
  rewrite sort_values_from by exact Hs. reflexivity.
Qed.

Lemma set_index_agg (acc : list (key * Z)) :
  set_index (map agg_row acc) = Some (map irow acc).
Proof.
  induction acc as [|ka acc IH]; simpl; [reflexivity|].
  rewrite IH. reflexivity.
Qed.

Lemma fundos_not_after (acc : list (key * Z)) :
  ascending key_compare acc ->
  StronglySorted (not_after String.compare) (map fundo (map irow acc)).
Proof.
  unfold ascending.
  induction acc as [|[[e d] v] acc IH]; simpl; intros Hs; constructor;
    inversion Hs as [|? ? Hs' Hall]; subst.
  - apply IH. assumption.
  - rewrite !map_map. apply Forall_forall. intros e' He'.
    apply in_map_iff in He'. destruct He' as [[[e1 d1] v1] [<- Hin]].
    rewrite Forall_forall in Hall.
    assert (Hlt : before key_compare (e, d) (e1, d1)).
    { apply Hall. apply in_map_iff. exists (e1, d1, v1). auto. }
    unfold before, key_compare, not_after, fundo in *. simpl in *.
    destruct (String.compare e e1); congruence.
Qed.

Lemma grupos_concat (acc : list (key * Z)) :
  ascending key_compare acc ->
  List.concat (map snd (grupos (map irow acc))) = map irow acc.
Proof.
  intros Hs. unfold grupos.
  rewrite (group_fold_concat String.compare string_order fundo).
  - reflexivity.
  - constructor.
  - apply fundos_not_after. exact Hs.
  - intros k' r [].
Qed.

Lemma grupos_rows (acc : list (key * Z)) e g :
  In (e, g) (grupos (map irow acc)) ->
  g = map irow (filter (do_fundo e) acc).
Proof.
  intros Hin. unfold grupos in Hin.
  apply (group_fold_rows String.compare string_order fundo) in Hin.
  rewrite Hin, filter_map_swap. reflexivity.
Qed.

(** Within one fund the days of the aggregated rows strictly ascend. *)
Lemma fundo_days_ascending (acc : list (key * Z)) e :
  ascending key_compare acc ->
  StronglySorted Z.lt (map fst (map irow (filter (do_fundo e) acc))).
Proof.
  unfold ascending.
  induction acc as [|[[e0 d0] v0] acc IH]; simpl; intros Hs;
    [constructor|].
  inversion Hs as [|? ? Hs' Hall]; subst.
  unfold do_fundo at 1. simpl.
  destruct (String.compare e0 e) eqn:E; try (apply IH; assumption).
  simpl. constructor; [apply IH; assumption|].
  apply (cmp_eq String.compare string_order) in E. subst e0.
  rewrite map_map. apply Forall_forall. intros d Hd.
  apply in_map_iff in Hd. destruct Hd as [[[e1 d1] v1] [<- Hin]].
  apply filter_In in Hin. destruct Hin as [Hin He1].
  unfold do_fundo in He1. simpl in He1.
  destruct (String.compare e1 e) eqn:E1; try discriminate.
  apply (cmp_eq String.compare string_order) in E1. subst e1.
  rewrite Forall_forall in Hall.
  assert (Hlt : before key_compare (e, d0) (e, d1)).
  { apply Hall. apply in_map_iff. exists (e, d1, v1). auto. }
  unfold before, key_compare in Hlt. simpl in Hlt.
  rewrite (cmp_refl String.compare string_order) in Hlt.
  apply Z.compare_lt_iff. exact Hlt.
Qed.

Lemma strictly_ascending_monotonic (index : list Z) :
  StronglySorted Z.lt index -> is_monotonic_increasing index = true.
Proof.
  induction 1 as [|x l Hs IH Hall]; [reflexivity|].
  destruct l as [|y l]; [reflexivity|].
  change (is_monotonic_increasing (x :: y :: l))
    with ((x <=? y) && is_monotonic_increasing (y :: l)).
  rewrite IH, andb_true_r.
  inversion Hall; subst. apply Z.leb_le. lia.
Qed.

(** ** The three columns, row by row *)

Lemma filter_filter {A : Type} (f g : A -> bool) l :
  filter f (filter g l) = filter (fun x => g x && f x) l.
Proof.
  induction l as [|x l IH]; simpl; [reflexivity|].
  destruct (g x); simpl; [destruct (f x)|]; rewrite IH; reflexivity.
Qed.

Lemma do_fundo_eqb e (ka : key * Z) :
  do_fundo e ka = String.eqb (fst (fst ka)) e.
Proof.
  unfold do_fundo.
  destruct (String.eqb_spec (fst (fst ka)) e) as [->|Hne].
  - rewrite (cmp_refl String.compare string_order). reflexivity.
  - destruct (String.compare (fst (fst ka)) e) eqn:E; try reflexivity.
    apply (cmp_eq String.compare string_order) in E. contradiction.
Qed.

Lemma valid_values_agg (l : list (key * Z)) :
  valid_values (map agg_row l) = map snd l.
Proof.
  induction l as [|ka l IH]; [reflexivity|].
  unfold valid_values in *. simpl. rewrite IH. reflexivity.
Qed.

Lemma summary_valid (l : list (key * Z)) :
  Cells.summary (map valor (map irow l))
  = RollSum.mkState (Z.of_nat (List.length l)) (total (map snd l)).
Proof.
  induction l as [|ka l IH].
  - reflexivity.
  - change (map valor (map irow (ka :: l)))
      with ([Some (snd ka)] ++ map valor (map irow l)).
    rewrite RollSumFacts.summary_app, IH.
    change (Cells.summary [Some (snd ka)])
      with (RollSum.mkState (0 + 1) (0 + snd ka)).
    unfold Cells.plus, total.
    apply RollSumFacts.state_eq;
      cbn [RollSum.nobs RollSum.sum_x List.length map fold_right]; lia.
Qed.

(** The rows of a fund in a window, in the group and in the whole frame. *)
Lemma window_rows_fund W e d (acc : list (key * Z)) :
  filter (fun jr => in_window W d (fst jr)) (map irow (filter (do_fundo e) acc))
  = map irow (filter (fun ka => fund_window W e d (agg_row ka)) acc).
Proof.
  rewrite filter_map_swap, filter_filter. f_equal.
  apply filter_ext. intros [[e1 d1] v1].
  rewrite do_fundo_eqb. reflexivity.
Qed.

Lemma window_result_fund W e (acc : list (key * Z)) ka :
  0 < W ->
  In ka (filter (do_fundo e) acc) ->
  window_result W 1 (map irow (filter (do_fundo e) acc)) (snd (fst ka))
  = janela W (map agg_row acc) (agg_row ka).
Proof.
  intros HW Hin. unfold window_result, janela, window_total.
  rewrite window_rows_fund, summary_valid.
  apply filter_In in Hin. destruct Hin as [Hin He].
  rewrite do_fundo_eqb in He. apply String.eqb_eq in He.
  destruct ka as [[e1 d1] v1]. simpl in He. subst e1. simpl.
  rewrite filter_map_swap, valid_values_agg.
  set (rows := filter (fun ka => fund_window W e d1 (agg_row ka)) acc).
  assert (Hself : In (e, d1, v1) rows).
  { apply filter_In. split; [exact Hin|].
    unfold fund_window, in_window. simpl.
    rewrite String.eqb_refl. simpl.
    apply andb_true_iff. split; [apply Z.ltb_lt|apply Z.leb_le]; lia. }
  unfold RollSum.calc_sum. simpl.
  destruct rows as [|x rows]; [destruct Hself|].
  replace (Z.of_nat (List.length (x :: rows)) =? 0) with false
    by (symmetry; apply Z.eqb_neq; simpl List.length; lia).
  replace (1 <=? Z.of_nat (List.length (x :: rows))) with true
    by (symmetry; apply Z.leb_le; simpl List.length; lia).
  reflexivity.
Qed.

Lemma combine_map {A B C : Type} (f : A -> B) (g : A -> C) l :
  combine (map f l) (map g l) = map (fun x => (f x, g x)) l.
Proof.
  induction l as [|x l IH]; simpl; [reflexivity|]. rewrite IH. reflexivity.
Qed.

Lemma index_equals_refl index : index_equals index index = true.
Proof.
  induction index as [|x l IH]; simpl; [reflexivity|].
  rewrite Z.eqb_refl. exact IH.
Qed.

(** The series of one window size over the aggregated frame. *)
Lemma groupby_rolling_sum_agg W (acc : list (key * Z)) :
  0 < W ->
  ascending key_compare acc ->
  groupby_rolling_sum W 1 (map irow acc)
  = Some (map (fun ir => (fst ir, janela W (map agg_row acc) (snd ir)))
            (map irow acc)).
Proof.
  intros HW Hs. unfold groupby_rolling_sum.
  replace (forallb (fun g => group_is_monotonic (snd g))
             (grupos (map irow acc))) with true.
  - f_equal. rewrite flat_map_concat_map.
    rewrite <- (grupos_concat acc Hs) at 2.
    rewrite concat_map, map_map. f_equal.
    apply map_ext_in. intros [e g] Hg. simpl snd.
    apply grupos_rows in Hg. subst g.
    rewrite rolling_sum_group
      by (try exact HW; apply fundo_days_ascending; exact Hs).
    rewrite combine_map.
    apply map_ext_in. intros ir Hir. f_equal.
    apply in_map_iff in Hir. destruct Hir as [ka [<- Hka]].
    apply window_result_fund; assumption.
  - symmetry. apply forallb_forall. intros [e g] Hg. simpl snd.
    apply grupos_rows in Hg. subst g.
    unfold group_is_monotonic.
    rewrite strictly_ascending_monotonic
      by (apply fundo_days_ascending; exact Hs).
    reflexivity.
Qed.

Lemma Captacao_ND_agg W (acc : list (key * Z)) :
  0 < W ->
  ascending key_compare acc ->
  Captacao_ND W (map irow acc)
  = Some (map (janela W (map agg_row acc)) (map agg_row acc)).
Proof.
  intros HW Hs. unfold Captacao_ND.
  rewrite groupby_rolling_sum_agg by assumption.
  unfold setitem. rewrite !map_map. simpl fst.
  rewrite index_equals_refl. reflexivity.
Qed.

Lemma with_columns_map (f30 f90 f180 : Row -> option Z) df :
  with_columns df (map f30 df) (map f90 df) (map f180 df)
  = map (fun r => mkWRow r (f30 r) (f90 r) (f180 r)) df.
Proof.
  induction df as [|r df IH]; simpl; [reflexivity|].
  rewrite IH. reflexivity.
Qed.

(** The window stage on the aggregated frame: it does not fail, keeps the
    rows in order, and gives each row its three window sums. *)
Lemma etapa_rolling_df_agg df :
  etapa_rolling (validacao (df_agg df))
  = Some (map (fun r =>
                 mkWRow r (janela 30 (df_agg df) r) (janela 90 (df_agg df) r)
                   (janela 180 (df_agg df) r))
            (df_agg df)).
Proof.
  rewrite validacao_df_agg.
  unfold df_agg, groupby_sum. fold (accumulators df).
  pose proof (accumulators_ascending df) as Hs.
  unfold etapa_rolling.
  rewrite sort_values_agg by exact Hs.
  rewrite set_index_agg.
  rewrite !Captacao_ND_agg by (try exact Hs; lia).
  rewrite with_columns_map. reflexivity.
Qed.

(** ** Facts on window totals *)

Lemma df_agg_row_of_key df r e d :
  In r (df_agg df) ->
  CNPJ_FUNDO_CLASSE r = e -> Data_Comptc r = Some d ->
  filter (has_key e d) (df_agg df) = [r].
Proof.
  intros Hin He Hd.
  assert (Hr : In r (filter (has_key e d) (df_agg df))).
  { apply filter_In. split; [exact Hin|].
    apply has_key_compare. unfold row_key. rewrite Hd, He. reflexivity. }
  rewrite df_agg_key in *.
  destruct (filter (has_key e d) df) as [|r0 rows]; [destruct Hr|].
  destruct Hr as [Hr|[]]. rewrite Hr. reflexivity.
Qed.

Lemma first_window_total W df r :
  0 < W ->
  In r (df_agg df) ->
  first_of_series (df_agg df) r ->
  janela W (df_agg df) r = Captacao_Liquida r.
Proof.
  intros HW Hin Hfirst.
  pose proof (df_agg_dated df) as Hdated.
  rewrite Forall_forall in Hdated.
  destruct (Hdated r Hin) as [d [v [Hd Hv]]].
  unfold janela, window_total. rewrite Hd, Hv.
  rewrite (filter_ext_in (fund_window W (CNPJ_FUNDO_CLASSE r) d)
             (has_key (CNPJ_FUNDO_CLASSE r) d)).
  - rewrite (df_agg_row_of_key df r _ d Hin eq_refl Hd).
    unfold valid_values, total. simpl. rewrite Hv. simpl. f_equal. lia.
  - intros a Ha. unfold fund_window, has_key.
    destruct (String.eqb_spec (CNPJ_FUNDO_CLASSE a) (CNPJ_FUNDO_CLASSE r))
      as [He|]; [|reflexivity].
    simpl. destruct (Hdated a Ha) as [t [_ [Ht _]]]. rewrite Ht.
    specialize (Hfirst a t d Ha He Ht Hd).
    unfold in_window, date_eqb.
    destruct (Z.eqb_spec t d) as [->|Hne].
    + apply andb_true_iff. split; [apply Z.ltb_lt|apply Z.leb_le]; lia.
    + apply andb_false_iff. right. apply Z.leb_gt. lia.
Qed.

(** ** Facts on the most recent day *)

Lemma max_fold_bounds df best :
  (forall b, best = Some b ->
     exists x, fold_left max_step df best = Some x /\ b <= x)
  /\ (forall m d, In m df -> data_of m = Some d ->
        exists x, fold_left max_step df best = Some x /\ d <= x).
Proof.
  revert best. induction df as [|m0 df IH]; intros best; simpl.
  - split; [|intros m d []].
    intros b ->. exists b. split; [reflexivity|lia].
  - destruct (IH (max_step best m0)) as [IHb IHm]. split.
    + intros b ->. unfold max_step in *.
      destruct (data_of m0) as [d0|].
      * destruct (IHb (Z.max b d0) eq_refl) as [x [Hx Hle]].
        exists x. split; [exact Hx|lia].
      * apply IHb. reflexivity.
    + intros m d [->|Hin] Hd; [|apply (IHm m d Hin Hd)].
      unfold max_step in *. rewrite Hd in *.
      destruct best as [b|].
      * destruct (IHb (Z.max b d) eq_refl) as [x [Hx Hle]].
        exists x. split; [exact Hx|lia].
      * destruct (IHb d eq_refl) as [x [Hx Hle]].
        exists x. split; [exact Hx|lia].
Qed.

Lemma max_fold_attained df best x :
  fold_left max_step df best = Some x ->
  best = Some x \/ exists m, In m df /\ data_of m = Some x.
Proof.
  revert best. induction df as [|m0 df IH]; intros best; simpl; auto.
  intros H. apply IH in H. destruct H as [H|[m [Hin Hm]]].
  - unfold max_step in H. destruct (data_of m0) as [d0|] eqn:Hd; auto.
    destruct best as [b|].
    + inversion H as [Hmax]. destruct (Z.max_spec b d0) as [[_ E]|[_ E]].
      * right. exists m0. rewrite Hd, E. auto.
      * left. rewrite E. reflexivity.
    + right. exists m0. rewrite Hd. auto.
  - right. exists m. auto.
Qed.

Lemma data_maxima_global_max df d :
  global_max df d -> data_maxima df = Some d.
Proof.
  intros [[m [Hin Hm]] Hub]. unfold data_maxima.
  change (fold_left max_step df None = Some d).
  destruct (max_fold_bounds df None) as [_ Hb].
  destruct (Hb m d Hin Hm) as [x [Hx Hle]].
  rewrite Hx. f_equal.
  apply max_fold_attained in Hx.
  destruct Hx as [Hx|[m' [Hin' Hm']]]; [discriminate|].
  specialize (Hub m' x Hin' Hm'). lia.
Qed.

(** * The properties of the specification *)

(** ** Rolling Window Calculator *)

(** C1 (the claim as stated fails).  The series of days 16, 132 and 199
    with the flows 568.08, 383.68 and 536.06 is sorted, and at day 199 its
    windows of 90 and of 180 days hold the same two records (those of days
    132 and 199); yet the two stored sums differ (919.74000000000001 and
    919.7399999999999): the window of 180 days has added and removed the
    record of day 16, and the removal leaves a rounding residue.  So no
    sum of the values of a window is what the three columns hold. *)
Lemma window_sum_depends_on_history :
  StronglySorted Z.lt (map fst serie_residuo)
  /\ Series.window_records 90 serie_residuo 2
     = Series.window_records 180 serie_residuo 2
  /\ PrimFloat.eqb (Series.column 90 serie_residuo 2)
       (Series.column 180 serie_residuo 2)
     = false
  /\ ~ exists sum : list float -> float,
         forall W i,
           In W [30; 90; 180] ->
           (i < List.length serie_residuo)%nat ->
           Series.column W serie_residuo i
           = sum (map snd (Series.window_records W serie_residuo i)).
Proof.
  split; [repeat constructor|].
  split; [vm_compute; reflexivity|].
  split; [vm_compute; reflexivity|].
  intros [sum H].
  pose proof (H 90 2%nat ltac:(simpl; auto) ltac:(simpl; lia)) as H90.
  pose proof (H 180 2%nat ltac:(simpl; auto) ltac:(simpl; lia)) as H180.
  assert (Heq : Series.column 90 serie_residuo 2
                = Series.column 180 serie_residuo 2).
  { rewrite H90, H180. f_equal. }
  apply (f_equal (PrimFloat.eqb (Series.column 90 serie_residuo 2))) in Heq.
  vm_compute in Heq. discriminate.
Qed.

(** C1 (amended).  For a series sorted ascending by day and a width [W] of
    30, 90 or 180 days, the window that the running sum uses for the record
    at day [d] holds exactly the records of the series at the days [t] with
    [d - W < t <= d] (closed on the right, open on the left), and the value
    stored is read off the running binary64 state: summed from scratch for
    the first record and for a record alone in its window, and otherwise
    the state of the record before with the records that left removed and
    the record itself added.  For integer amounts, up to any bound [B] on
    which binary64 computes without rounding (absolute values adding up to
    at most [B], at most [B] records), the value stored is the exact sum of
    the amounts of the window.  For the days 2024-01-01 (100), 2024-01-15
    (50) and 2024-02-01 (-30) the record of 2024-02-01 gets 20, 120 and
    120. *)
Theorem window_right_closed_running_sum :
  (forall (W : Z) (series : list (Z * float)),
     In W [30; 90; 180] ->
     StronglySorted Z.lt (map fst series) ->
     let values := map snd series in
     let bounds := Window.window_bounds (map fst series) W in
     let states := Binary64.roll_states values bounds in
     Binary64.rolling_sum W 1 series = map (Binary64.calc_sum 1) states
     /\ List.length states = List.length series
     /\ forall i, (i < List.length series)%nat ->
          exists s,
            nth i bounds (0, 0)%nat = (s, S i)
            /\ map snd (Series.window_records W series i)
               = Series.cells values s (S i)
            /\ nth i states Series.no_state
               = match i with
                 | O => Binary64.from_scratch values s (S i)
                 | S i' =>
                     if (i <=? s)%nat
                     then Binary64.from_scratch values s (S i)
                     else Binary64.slide values
                            (fst (nth i' bounds (0, 0)%nat)) i
                            (nth i' states Series.no_state) s (S i)
                 end)
  /\ (forall (B W : Z) (zs : list (Z * Z)),
        Integers.exact_upto B ->
        In W [30; 90; 180] ->
        StronglySorted Z.lt (map fst zs) ->
        total (map Z.abs (map snd zs)) <= B ->
        Z.of_nat (List.length zs) <= B ->
        forall i, (i < List.length zs)%nat ->
          Series.column W (Integers.series zs) i
          = Integers.cell (Integers.window_sum W zs i))
  /\ map (fun W => Binary64.rolling_sum W 1 serie_janela) [30; 90; 180]
     = [ [100; 150; 20]; [100; 150; 120]; [100; 150; 120] ]%float.
Proof.
  split; [|split; [|vm_compute; reflexivity]].
  - intros W series HW Hs values bounds states.
    apply window_size_positive in HW.
    destruct (Binary64Facts.roll_states_windows W (map fst series) values
                HW Hs) as [Hlen Hrows].
    fold bounds in Hlen, Hrows. fold states in Hlen, Hrows.
    rewrite length_map in Hlen, Hrows.
    split; [reflexivity|]. split; [exact Hlen|].
    intros i Hi. destruct (Hrows i Hi) as [s [Hb [Hw Hst]]].
    exists s. split; [exact Hb|].
    split; [apply Binary64Facts.window_records_cells; assumption|exact Hst].
  - intros B W zs Hex HW Hs Hsmall Hshort i Hi.
    apply (ExactSeries.column_exact B W Hex (window_size_positive W HW)
             zs Hs Hsmall Hshort i Hi).
Qed.

Lemma window_right_closed_running_sum_witness :
  (exists s,
     nth 2 (Window.window_bounds (map fst serie_residuo) 90) (0, 0)%nat
     = (s, 3%nat)
     /\ map snd (Series.window_records 90 serie_residuo 2)
        = Series.cells (map snd serie_residuo) s 3)
  /\ Series.column 30 (Integers.series serie_inteira) 2
     = Integers.cell (Integers.window_sum 30 serie_inteira 2).
Proof.
  destruct window_right_closed_running_sum as [Hseries [Hexact _]].
  split.
  - destruct (Hseries 90 serie_residuo) as [_ [_ Hrows]].
    + simpl. auto.
    + repeat constructor.
    + destruct (Hrows 2%nat) as [s [Hb [Hcells _]]]; [simpl; lia|].
      exists s. split; assumption.
  - apply (Hexact 180 30 serie_inteira exact_upto_180).
    + simpl. auto.
    + repeat constructor.
    + vm_compute. discriminate.
    + vm_compute. discriminate.
    + simpl. lia.
Defined.

(** C9.  In the output of the window stage, a row that is the first of its
    fund (no aggregated row of the fund is dated before it) has its three
    window sums defined and equal to its own flow. *)
Theorem first_record_window_sums (df : list Row) :
  exists out,
    etapa_rolling (validacao (df_agg df)) = Some out
    /\ forall w,
         In w out ->
         first_of_series (df_agg df) (base w) ->
         exists v,
           Captacao_Liquida (base w) = Some v
           /\ Captacao_30D w = Some v
           /\ Captacao_90D w = Some v
           /\ Captacao_180D w = Some v.
Proof.
  eexists. split; [apply etapa_rolling_df_agg|].
  intros w Hw Hfirst.
  apply in_map_iff in Hw. destruct Hw as [r [<- Hr]]. simpl in *.
  pose proof (df_agg_dated df) as Hdated.
  rewrite Forall_forall in Hdated.
  destruct (Hdated r Hr) as [d [v [_ Hv]]].
  exists v. rewrite !first_window_total by (try assumption; lia).
  auto.
Qed.

(** C10 (the claim as stated fails).  The series of days 14, 94, 111 and
    173 with the flows 463.62, 380.91, 602.49 and 422.86, all positive, is
    sorted, and at day 111 its windows of 30 and of 90 days hold the same
    two records; the sum stored for 90 days (983.39999999999998) is below
    the one stored for 30 days (983.40000000000009): the window of 90 days
    has added and removed the record of day 14. *)
Lemma window_sums_unordered_by_rounding :
  StronglySorted Z.lt (map fst serie_arredondamento)
  /\ forallb (fun r => PrimFloat.leb 0 (snd r)) serie_arredondamento = true
  /\ Series.window_records 30 serie_arredondamento 2
     = Series.window_records 90 serie_arredondamento 2
  /\ PrimFloat.ltb (Series.column 90 serie_arredondamento 2)
       (Series.column 30 serie_arredondamento 2)
     = true.
Proof.
  split; [repeat constructor|].
  repeat split; vm_compute; reflexivity.
Qed.

(** C10 (amended).  At every record of a series sorted ascending by day the
    three windows end at the record and are nested: the window of 180 days
    starts at or before the one of 90 days, which starts at or before the
    one of 30 days, and each holds exactly the records dated in it.  For
    non-negative integer amounts, up to any bound [B] on which binary64
    computes without rounding (amounts adding up to at most [B], at most
    [B] records), the sum stored for 30 days is at most the one stored for
    90 days, which is at most the one stored for 180 days.  With a negative
    amount the order fails outright: a redemption of 100 followed sixty
    days later by an inflow of 50 gives a sum of 90 days (-50) below the
    sum of 30 days (50). *)
Theorem windows_nested_sums_ordered :
  (forall (series : list (Z * float)),
     StronglySorted Z.lt (map fst series) ->
     forall i, (i < List.length series)%nat ->
       exists s30 s90 s180,
         nth i (Window.window_bounds (map fst series) 30) (0, 0)%nat
         = (s30, S i)
         /\ nth i (Window.window_bounds (map fst series) 90) (0, 0)%nat
            = (s90, S i)
         /\ nth i (Window.window_bounds (map fst series) 180) (0, 0)%nat
            = (s180, S i)
         /\ (s180 <= s90 <= s30)%nat /\ (s30 <= i)%nat
         /\ map snd (Series.window_records 30 series i)
            = Series.cells (map snd series) s30 (S i)
         /\ map snd (Series.window_records 90 series i)
            = Series.cells (map snd series) s90 (S i)
         /\ map snd (Series.window_records 180 series i)
            = Series.cells (map snd series) s180 (S i))
  /\ (forall (B : Z) (zs : list (Z * Z)),
        Integers.exact_upto B ->
        StronglySorted Z.lt (map fst zs) ->
        total (map Z.abs (map snd zs)) <= B ->
        Z.of_nat (List.length zs) <= B ->
        (forall r, In r zs -> 0 <= snd r) ->
        forall i, (i < List.length zs)%nat ->
          PrimFloat.leb (Series.column 30 (Integers.series zs) i)
            (Series.column 90 (Integers.series zs) i) = true
          /\ PrimFloat.leb (Series.column 90 (Integers.series zs) i)
               (Series.column 180 (Integers.series zs) i) = true)
  /\ map (fun W => Binary64.rolling_sum W 1 serie_negativa) [30; 90; 180]
     = [ [-100; 50]; [-100; -50]; [-100; -50] ]%float
  /\ PrimFloat.ltb (Series.column 90 serie_negativa 1)
       (Series.column 30 serie_negativa 1)
     = true.
Proof.
  split; [|split; [|split; vm_compute; reflexivity]].
  - intros series Hs i Hi.
    assert (Hw : forall W, 0 < W ->
                   window_of (map fst series) W i
                     (nth i (Window.window_bounds (map fst series) W)
                        (0, 0)%nat)).
    { intros W HW. apply WindowFacts.window_bounds_windows; try assumption.
      rewrite length_map. exact Hi. }
    pose proof (Hw 30 ltac:(lia)) as H30.
    pose proof (Hw 90 ltac:(lia)) as H90.
    pose proof (Hw 180 ltac:(lia)) as H180.
    destruct (nth i (Window.window_bounds (map fst series) 30) (0, 0)%nat)
      as [s30 e30].
    destruct (nth i (Window.window_bounds (map fst series) 90) (0, 0)%nat)
      as [s90 e90].
    destruct (nth i (Window.window_bounds (map fst series) 180) (0, 0)%nat)
      as [s180 e180].
    assert (e30 = S i) by apply H30.
    assert (e90 = S i) by apply H90.
    assert (e180 = S i) by apply H180. subst e30 e90 e180.
    exists s30, s90, s180.
    repeat split; try reflexivity.
    + apply (window_starts_wider (map fst series) 90 180 i);
        (lia || assumption).
    + apply (window_starts_wider (map fst series) 30 90 i);
        (lia || assumption).
    + apply H30.
    + apply Binary64Facts.window_records_cells; assumption.
    + apply Binary64Facts.window_records_cells; assumption.
    + apply Binary64Facts.window_records_cells; assumption.
  - intros B zs Hex Hs Hsmall Hshort Hpos i Hi.
    rewrite !(fun W HW => ExactSeries.column_exact B W Hex HW zs Hs Hsmall
                            Hshort i Hi) by lia.
    rewrite !(IntegersFacts.ex_leb B Hex)
      by (apply ExactSeries.window_sum_small; assumption).
    split; apply Z.leb_le; apply window_sum_wider; (lia || assumption).
Qed.

Lemma first_record_window_sums_witness :
  exists v,
    Captacao_Liquida (mkRow fundo_B (dia 2024 2 10) (Some 3)) = Some v
    /\ Some 3 = Some v.
Proof.
  destruct (first_record_window_sums exemplo_corte) as [out [Hout Hfirst]].
  vm_compute in Hout. injection Hout as <-.
  destruct (Hfirst
              (mkWRow (mkRow fundo_B (dia 2024 2 10) (Some 3))
                 (Some 3) (Some 3) (Some 3)))
    as [v [Hv [H30 _]]].
  - right. right. left. reflexivity.
  - intros a t d Ha He Ht Hd. vm_compute in Ha.
    destruct Ha as [<-|[<-|[<-|[<-|[]]]]]; vm_compute in He, Ht, Hd;
      try discriminate; inversion Ht; inversion Hd; subst; lia.
  - exists v. split; [exact Hv|exact H30].
Defined.

Lemma windows_nested_sums_ordered_witness :
  (exists s30 s90 s180,
     nth 2 (Window.window_bounds (map fst serie_arredondamento) 30)
       (0, 0)%nat = (s30, 3%nat)
     /\ nth 2 (Window.window_bounds (map fst serie_arredondamento) 90)
          (0, 0)%nat = (s90, 3%nat)
     /\ nth 2 (Window.window_bounds (map fst serie_arredondamento) 180)
          (0, 0)%nat = (s180, 3%nat)
     /\ (s180 <= s90 <= s30)%nat)
  /\ PrimFloat.leb (Series.column 30 (Integers.series serie_depositos) 2)
       (Series.column 90 (Integers.series serie_depositos) 2) = true
  /\ PrimFloat.leb (Series.column 90 (Integers.series serie_depositos) 2)
       (Series.column 180 (Integers.series serie_depositos) 2) = true.
Proof.
  destruct windows_nested_sums_ordered as [Hnested [Hordered _]].
  split.
  - destruct (Hnested serie_arredondamento) with (i := 2%nat)
      as [s30 [s90 [s180 [H30 [H90 [H180 [Hord _]]]]]]].
    + repeat constructor.
    + simpl. lia.
    + exists s30, s90, s180. repeat split; (assumption || apply Hord).
  - apply (Hordered 180 serie_depositos exact_upto_180).
    + repeat constructor.
    + vm_compute. discriminate.
    + vm_compute. discriminate.
    + intros r Hr. simpl in Hr.
      destruct Hr as [<-|[<-|[<-|[]]]]; simpl; lia.
    + simpl. lia.
Defined.

(** ** Deduplicating Aggregator *)

(** C2.  No two rows of the aggregated frame carry the same fund and day. *)
Theorem aggregator_unique_keys (df : list Row) :
  NoDup (map key_columns (df_agg df)).
Proof.
  unfold df_agg, groupby_sum. fold (accumulators df).
  rewrite key_columns_agg_row.
  apply NoDup_map_injective.
  - intros [e d] [e' d'] H. inversion H. reflexivity.
  - apply (sorted_NoDup key_compare key_order).
    apply accumulators_ascending.
Qed.



(** C5.  Aggregating the aggregated frame gives it back unchanged. *)
Theorem aggregator_idempotent (df : list Row) :
  df_agg (df_agg df) = df_agg df.
Proof.
  unfold df_agg at 1 3. unfold groupby_sum at 2. fold (accumulators df).
  apply groupby_sum_fixed. apply accumulators_ascending.
Qed.

(** C6.  On the aggregated frame the check of section 7 counts one row for
    every key and no duplicated key, so the frame passes through unchanged;
    the aggregation of lines 147-149 would not change it either. *)
Theorem no_duplicate_after_aggregation (df : list Row) :
  Forall (fun kn => snd kn = 1) (duplicados (df_agg df))
  /\ n_duplicados (df_agg df) = 0
  /\ validacao (df_agg df) = df_agg df
  /\ groupby_sum (df_agg df) = df_agg df.
Proof.
  split; [|split; [|split]].
  - unfold df_agg, groupby_sum. fold (accumulators df).
    rewrite duplicados_agg by apply accumulators_ascending.
    apply Forall_forall. intros kn Hkn. apply in_map_iff in Hkn.
    destruct Hkn as [ka [<- _]]. reflexivity.
  - apply n_duplicados_df_agg.
  - apply validacao_df_agg.
  - unfold df_agg, groupby_sum at 2. fold (accumulators df).
    apply groupby_sum_fixed. apply accumulators_ascending.
Qed.

(** C7.  A row whose date is missing leaves no trace in the aggregated
    frame: the frame is the one obtained without the row, and every row of
    it is dated. *)
Theorem missing_date_dropped (l1 l2 : list Row) (e : string) (v : option Z) :
  df_agg (l1 ++ mkRow e None v :: l2) = df_agg (l1 ++ l2)
  /\ Forall (fun r => Data_Comptc r <> None)
       (df_agg (l1 ++ mkRow e None v :: l2)).
Proof.
  split.
  - unfold df_agg, groupby_sum.
    rewrite group_fold_skip by reflexivity. reflexivity.
  - eapply Forall_impl; [|apply df_agg_dated].
    intros r [d [x [Hd _]]]. rewrite Hd. discriminate.
Qed.

(** ** Snapshot Selector *)

(** C4.  When [d] is the latest day of the whole frame, the cut keeps
    exactly the rows dated [d], in order; a fund whose rows are all dated
    before [d] has no row in it.  With fund A reporting up to 2024-03-01 and
    fund B up to 2024-02-20, the pipeline returns the row of A of
    2024-03-01 alone. *)
Theorem snapshot_global_max :
  (forall (df : list MRow) (d : Z),
     global_max df d ->
     df_filtrado df = filter (fun m => date_eqb (data_of m) (Some d)) df
     /\ forall e,
          (forall m t, In m df -> fund_of m = e -> data_of m = Some t ->
                       t < d) ->
          forall m, In m (df_filtrado df) -> fund_of m <> e)
  /\ pipeline exemplo_corte exemplo_cad
     = Some
         [ mkMRow
             (mkWRow (mkRow fundo_A (dia 2024 3 1) (Some 5))
                (Some 15) (Some 15) (Some 15))
             (Some "FUNDO A"%string) ].
Proof.
  split; [|vm_compute; reflexivity].
  intros df d Hmax.
  assert (Heq : df_filtrado df
                = filter (fun m => date_eqb (data_of m) (Some d)) df).
  { unfold df_filtrado. rewrite (data_maxima_global_max df d Hmax).
    reflexivity. }
  split; [exact Heq|].
  intros e Hbefore m Hm He. rewrite Heq in Hm.
  apply filter_In in Hm. destruct Hm as [Hin Hd].
  unfold date_eqb in Hd. destruct (data_of m) as [t|] eqn:Ht;
    [|discriminate].
  apply Z.eqb_eq in Hd. subst t.
  specialize (Hbefore m d Hin He Ht). lia.
Qed.

Lemma snapshot_global_max_witness :
  global_max exemplo_corte_janelas (Calendar.days_from_civil 2024 3 1)
  /\ df_filtrado exemplo_corte_janelas
     = filter (fun m => date_eqb (data_of m) (dia 2024 3 1))
         exemplo_corte_janelas
  /\ forall m, In m (df_filtrado exemplo_corte_janelas) ->
               fund_of m <> fundo_B.
Proof.
  assert (Hmax : global_max exemplo_corte_janelas
                   (Calendar.days_from_civil 2024 3 1)).
  { split.
    - exists (mkMRow
                (mkWRow (mkRow fundo_A (dia 2024 3 1) (Some 5))
                   (Some 15) (Some 15) (Some 15))
                (Some "FUNDO A"%string)).
      split; [right; left; reflexivity|reflexivity].
    - intros m t Hin Ht.
      destruct Hin as [<-|[<-|[<-|[<-|[]]]]]; vm_compute in Ht;
        inversion Ht; subst; vm_compute; discriminate. }
  destruct (proj1 snapshot_global_max _ _ Hmax) as [Heq Habsent].
  split; [exact Hmax|]. split; [exact Heq|].
  apply Habsent. intros m t Hin He Ht.
  destruct Hin as [<-|[<-|[<-|[<-|[]]]]]; vm_compute in He, Ht;
    try discriminate; inversion Ht; subst; reflexivity.
Defined.

(** ** Empty input *)

(** C8.  On an empty frame every stage succeeds and returns an empty frame:
    the aggregation, the check of duplicates, the window stage (and the
    rolling sum of an empty group), the join, the cut (there is then no
    latest day), and so the whole pipeline. *)
Theorem empty_input_empty_output :
  df_agg [] = []
  /\ validacao [] = []
  /\ etapa_rolling [] = Some []
  /\ (forall W minp, rolling_sum W minp [] = [])
  /\ (forall df_cad, merge_cad [] df_cad = [])
  /\ data_maxima [] = None
  /\ df_filtrado [] = []
  /\ forall df_cad, pipeline [] df_cad = Some [].
Proof.
  repeat split; reflexivity.
Qed.

(** * Further properties of the script *)

(** ** The months to download *)

Lemma indice_do_indice k : Meses.indice (Meses.do_indice k) = k.
Proof.
  unfold Meses.indice, Meses.do_indice. cbn [fst snd].
  pose proof (Z.div_mod k 12 ltac:(lia)). lia.
Qed.

Lemma menos_meses_indice ano mes i :
  1 <= mes <= 12 -> 0 <= i ->
  12 <= Meses.indice (ano, mes) - i -> ano <= 9999 ->
  Meses.menos_meses ano mes i
  = Some (Meses.do_indice (Meses.indice (ano, mes) - i)).
Proof.
  intros Hmes Hi Hlow Hhigh.
  unfold Meses.menos_meses, Meses.relativedelta_months, Meses.indice,
    Meses.do_indice in *.
  simpl fst in *. simpl snd in *.
  rewrite (Z.abs_eq i) by lia.
  pose proof (Z.div_mod i 12 ltac:(lia)) as Hdm.
  pose proof (Z.mod_pos_bound i 12 ltac:(lia)) as Hmod.
  set (q := i / 12) in *. set (r := i mod 12) in *.
  assert (Hq : 0 <= q) by (subst q; apply Z.div_pos; lia).
  assert (Hres : forall y m, 1 <= m <= 12 ->
            12 * y + (m - 1) = 12 * ano + (mes - 1) - i ->
            ((12 * ano + (mes - 1) - i) / 12,
             (12 * ano + (mes - 1) - i) mod 12 + 1) = (y, m)).
  { intros y m Hm Heq. rewrite <- Heq.
    replace (12 * y + (m - 1)) with ((m - 1) + y * 12) by lia.
    rewrite Z.div_add, Z.mod_add by lia.
    rewrite Z.div_small, Z.mod_small by lia. f_equal; lia. }
  destruct (11 <? i) eqn:Hbig.
  - apply Z.ltb_lt in Hbig.
    rewrite (Z.sgn_pos i) by lia. rewrite !Z.mul_1_r.
    destruct (- r =? 0) eqn:Hr0.
    + apply Z.eqb_eq in Hr0.
      rewrite (Hres (ano + - q) mes) by lia.
      replace ((1 <=? ano + - q) && (ano + - q <=? 9999)) with true;
        [reflexivity|].
      symmetry. apply andb_true_iff. rewrite !Z.leb_le. lia.
    + apply Z.eqb_neq in Hr0.
      replace (12 <? mes + - r) with false
        by (symmetry; apply Z.ltb_ge; lia).
      destruct (mes + - r <? 1) eqn:Hneg.
      * apply Z.ltb_lt in Hneg.
        rewrite (Hres (ano + - q - 1) (mes + - r + 12)) by lia.
        replace ((1 <=? ano + - q - 1) && (ano + - q - 1 <=? 9999))
          with true; [reflexivity|].
        symmetry. apply andb_true_iff. rewrite !Z.leb_le. lia.
      * apply Z.ltb_ge in Hneg.
        rewrite (Hres (ano + - q) (mes + - r)) by lia.
        replace ((1 <=? ano + - q) && (ano + - q <=? 9999)) with true;
          [reflexivity|].
        symmetry. apply andb_true_iff. rewrite !Z.leb_le. lia.
  - apply Z.ltb_ge in Hbig.
    assert (q = 0) by (subst q; apply Z.div_small; lia).
    destruct (- i =? 0) eqn:Hi0.
    + apply Z.eqb_eq in Hi0.
      rewrite (Hres (ano + - 0) mes) by lia.
      replace ((1 <=? ano + - 0) && (ano + - 0 <=? 9999)) with true;
        [reflexivity|].
      symmetry. apply andb_true_iff. rewrite !Z.leb_le. lia.
    + apply Z.eqb_neq in Hi0.
      replace (12 <? mes + - i) with false
        by (symmetry; apply Z.ltb_ge; lia).
      destruct (mes + - i <? 1) eqn:Hneg.
      * apply Z.ltb_lt in Hneg.
        rewrite (Hres (ano + - 0 - 1) (mes + - i + 12)) by lia.
        replace ((1 <=? ano + - 0 - 1) && (ano + - 0 - 1 <=? 9999))
          with true; [reflexivity|].
        symmetry. apply andb_true_iff. rewrite !Z.leb_le. lia.
      * apply Z.ltb_ge in Hneg.
        rewrite (Hres (ano + - 0) (mes + - i)) by lia.
        replace ((1 <=? ano + - 0) && (ano + - 0 <=? 9999)) with true;
          [reflexivity|].
        symmetry. apply andb_true_iff. rewrite !Z.leb_le. lia.
Qed.

Lemma todos_map {A B : Type} (f : A -> option B) (g : A -> B) l :
  (forall x, In x l -> f x = Some (g x)) ->
  Meses.todos (map f l) = Some (map g l).
Proof.
  induction l as [|x l IH]; simpl; intros H; [reflexivity|].
  rewrite (H x) by auto. rewrite IH by auto. reflexivity.
Qed.

Lemma in_range_1 n i : In i (Meses.range_1 n) <-> 1 <= i <= n.
Proof.
  unfold Meses.range_1. rewrite in_map_iff. split.
  - intros [k [<- Hk]]. apply in_seq in Hk. lia.
  - intros Hi. exists (Z.to_nat i). split; [lia|]. apply in_seq. lia.
Qed.

Lemma meses_anteriores_closed ano mes n :
  1 <= mes <= 12 ->
  12 <= Meses.indice (ano, mes) - n -> ano <= 9999 ->
  Meses.meses_anteriores (ano, mes) n
  = Some (map (fun i => Meses.do_indice (Meses.indice (ano, mes) - i))
            (Meses.range_1 n)).
Proof.
  intros Hmes Hlow Hhigh. unfold Meses.meses_anteriores.
  apply todos_map. intros i Hi. apply in_range_1 in Hi. simpl fst. simpl snd.
  apply menos_meses_indice; lia.
Qed.

Lemma nth_range_1 n k :
  (k < Z.to_nat n)%nat -> nth k (Meses.range_1 n) 0 = Z.of_nat (S k).
Proof.
  intros Hk. unfold Meses.range_1.
  change 0 with (Z.of_nat 0). rewrite map_nth, seq_nth by exact Hk.
  reflexivity.
Qed.

Lemma do_indice_month k : 1 <= snd (Meses.do_indice k) <= 12.
Proof.
  unfold Meses.do_indice. cbn [snd].
  pose proof (Z.mod_pos_bound k 12 ltac:(lia)). lia.
Qed.

(** X1.  For a current month [mes] of year [ano], the list of
    [ultimos_meses] has [n] entries and entry [k] (from 0) is the month
    [k + 1] months before the current one: the previous month first, then
    back month by month across year ends, the current month never. *)
Theorem ultimos_meses_go_back (ano mes n : Z) :
  1 <= mes <= 12 ->
  12 <= Meses.indice (ano, mes) - n -> ano <= 9999 ->
  exists l,
    Meses.meses_anteriores (ano, mes) n = Some l
    /\ Meses.ultimos_meses (ano, mes) n = Some (map Meses.strftime_Ym l)
    /\ List.length l = Z.to_nat n
    /\ forall k, (k < Z.to_nat n)%nat ->
         Meses.indice (nth k l (0, 0))
         = Meses.indice (ano, mes) - Z.of_nat (S k)
         /\ 1 <= snd (nth k l (0, 0)) <= 12.
Proof.
  intros Hmes Hlow Hhigh.
  pose proof (meses_anteriores_closed ano mes n Hmes Hlow Hhigh) as Hl.
  eexists. split; [exact Hl|].
  split; [unfold Meses.ultimos_meses; rewrite Hl; reflexivity|].
  split.
  - unfold Meses.range_1. rewrite !length_map, length_seq. reflexivity.
  - intros k Hk.
    set (f := fun i => Meses.do_indice (Meses.indice (ano, mes) - i)).
    rewrite (nth_indep _ (0, 0) (f 0))
      by (unfold Meses.range_1; rewrite !length_map, length_seq; exact Hk).
    rewrite map_nth, nth_range_1 by exact Hk. unfold f.
    split; [apply indice_do_indice|apply do_indice_month].
Qed.

Lemma ultimos_meses_go_back_witness :
  exists l,
    Meses.meses_anteriores (2026, 3) 9 = Some l
    /\ Meses.ultimos_meses (2026, 3) 9 = Some (map Meses.strftime_Ym l)
    /\ List.length l = Z.to_nat 9
    /\ forall k, (k < Z.to_nat 9)%nat ->
         Meses.indice (nth k l (0, 0))
         = Meses.indice (2026, 3) - Z.of_nat (S k)
         /\ 1 <= snd (nth k l (0, 0)) <= 12.
Proof.
  apply (ultimos_meses_go_back 2026 3 9); vm_compute; intuition discriminate.
Defined.

(** ** The addresses of the files *)

Lemma digito_injective a b :
  0 <= a <= 9 -> 0 <= b <= 9 -> Meses.digito a = Meses.digito b -> a = b.
Proof.
  intros Ha Hb H. unfold Meses.digito in H.
  apply (f_equal nat_of_ascii) in H.
  rewrite !nat_ascii_embedding in H by lia. lia.
Qed.

Lemma digit_bounds n : 0 <= n mod 10 <= 9.
Proof. pose proof (Z.mod_pos_bound n 10 ltac:(lia)). lia. Qed.

Lemma quatro_digitos_value z :
  0 <= z <= 9999 ->
  z = 1000 * (z / 1000 mod 10) + 100 * (z / 100 mod 10)
      + 10 * (z / 10 mod 10) + z mod 10.
Proof. intros. Z.to_euclidean_division_equations. lia. Qed.

Lemma dois_digitos_value z :
  0 <= z <= 99 -> z = 10 * (z / 10 mod 10) + z mod 10.
Proof. intros. Z.to_euclidean_division_equations. lia. Qed.

Lemma strftime_Ym_injective y m y' m' :
  0 <= y <= 9999 -> 0 <= y' <= 9999 ->
  0 <= m <= 99 -> 0 <= m' <= 99 ->
  Meses.strftime_Ym (y, m) = Meses.strftime_Ym (y', m') ->
  (y, m) = (y', m').
Proof.
  intros Hy Hy' Hm Hm' H.
  unfold Meses.strftime_Ym, Meses.quatro_digitos, Meses.dois_digitos in H.
  cbn [fst snd append] in H.
  injection H as H1 H2 H3 H4 H5 H6.
  apply digito_injective in H1, H2, H3, H4, H5, H6;
    try apply digit_bounds.
  rewrite (quatro_digitos_value y Hy), (quatro_digitos_value y' Hy').
  rewrite (dois_digitos_value m Hm), (dois_digitos_value m' Hm').
  rewrite H1, H2, H3, H4, H5, H6. reflexivity.
Qed.

Lemma length_append (a b : string) :
  String.length (a ++ b) = (String.length a + String.length b)%nat.
Proof. induction a as [|c a IH]; simpl; [reflexivity|]. rewrite IH. reflexivity. Qed.

Lemma append_cancel_l (p a b : string) :
  (p ++ a)%string = (p ++ b)%string -> a = b.
Proof.
  induction p as [|c p IH]; simpl; intros H; [exact H|].
  injection H as H. apply IH. exact H.
Qed.

Lemma append_cancel_r (s a b : string) :
  (a ++ s)%string = (b ++ s)%string -> a = b.
Proof.
  revert b. induction a as [|c a IH]; intros [|c' b] H; simpl in H.
  - reflexivity.
  - apply (f_equal String.length) in H. simpl in H.
    rewrite length_append in H. lia.
  - apply (f_equal String.length) in H. simpl in H.
    rewrite length_append in H. lia.
  - injection H as -> H. f_equal. apply IH. exact H.
Qed.

Lemma url_injective a b :
  Meses.url_inf_diario_fi a = Meses.url_inf_diario_fi b -> a = b.
Proof.
  unfold Meses.url_inf_diario_fi. intros H.
  apply append_cancel_l in H. apply append_cancel_r in H. exact H.
Qed.

Lemma NoDup_map_on {A B : Type} (f : A -> B) (l : list A) :
  (forall x y, In x l -> In y l -> f x = f y -> x = y) ->
  NoDup l -> NoDup (map f l).
Proof.
  intros Hinj Hnd. induction Hnd as [|x l Hx Hl IH]; simpl; constructor.
  - intros Hin. apply in_map_iff in Hin. destruct Hin as [y [Hy Hin]].
    apply Hinj in Hy; [subst y; contradiction|right; exact Hin|left; reflexivity].
  - apply IH. intros a b Ha Hb. apply Hinj; right; assumption.
Qed.

(** X2.  From year 1000 on, the nine addresses asked for by the download
    loop are pairwise distinct: no monthly file is fetched twice. *)
Theorem download_urls_distinct (ano mes : Z) :
  1 <= mes <= 12 ->
  12009 <= Meses.indice (ano, mes) -> ano <= 9999 ->
  exists l,
    Meses.urls (ano, mes) = Some l /\ List.length l = 9%nat /\ NoDup l.
Proof.
  intros Hmes Hlow Hhigh.
  unfold Meses.urls, Meses.ultimos_meses.
  rewrite meses_anteriores_closed by lia.
  eexists. split; [reflexivity|]. split; [reflexivity|].
  rewrite !map_map.
  apply NoDup_map_on.
  - intros i j Hi Hj H. apply in_range_1 in Hi. apply in_range_1 in Hj.
    apply url_injective in H.
    assert (Ha : Meses.indice (ano, mes) <= 12 * 9999 + 11)
      by (unfold Meses.indice; cbn [fst snd]; lia).
    set (a := Meses.indice (ano, mes)) in *.
    assert (Hd : forall k, 12000 <= k <= 12 * 9999 + 11 ->
                   0 <= fst (Meses.do_indice k) <= 9999
                   /\ 0 <= snd (Meses.do_indice k) <= 99).
    { intros k Hk. unfold Meses.do_indice. cbn [fst snd].
      pose proof (Z.mod_pos_bound k 12 ltac:(lia)).
      split; [|lia]. split.
      - apply Z.div_pos; lia.
      - apply Z.lt_succ_r. apply Z.div_lt_upper_bound; lia. }
    destruct (Hd (a - i) ltac:(lia)) as [Hy Hm].
    destruct (Hd (a - j) ltac:(lia)) as [Hy' Hm'].
    destruct (Meses.do_indice (a - i)) as [y m] eqn:Ei.
    destruct (Meses.do_indice (a - j)) as [y' m'] eqn:Ej.
    apply strftime_Ym_injective in H; try assumption.
    rewrite <- Ei, <- Ej in H. apply (f_equal Meses.indice) in H.
    rewrite !indice_do_indice in H. lia.
  - unfold Meses.range_1. apply NoDup_map_on.
    + intros x y _ _ H. lia.
    + apply seq_NoDup.
Qed.

Lemma download_urls_distinct_witness :
  exists l,
    Meses.urls (2026, 11) = Some l /\ List.length l = 9%nat /\ NoDup l.
Proof.
  apply (download_urls_distinct 2026 11); vm_compute; intuition discriminate.
Defined.

(** ** Loading and types *)

Lemma consolidar_flat (arquivos : list (list Carga.Informe)) :
  Carga.consolidar arquivos = Carga.ler_mes (List.concat arquivos).
Proof.
  unfold Carga.consolidar, Carga.ler_mes.
  induction arquivos as [|csv rest IH]; simpl; [reflexivity|].
  rewrite IH, filter_app, map_app. reflexivity.
Qed.

Lemma consolidar_FI arquivos l :
  In l (Carga.consolidar arquivos) -> Carga.eh_FI (Carga.informe l) = true.
Proof.
  rewrite consolidar_flat. unfold Carga.ler_mes. intros H.
  apply in_map_iff in H. destruct H as [r [<- Hr]].
  apply filter_In in Hr. destruct Hr as [_ Hr]. exact Hr.
Qed.

(** X3.  The second filter of section 4B never removes a row: every file
    was filtered when it was read, so the consolidated frame passes
    unchanged and [registros_removidos] is 0. *)
Theorem filtro_final_removes_nothing (arquivos : list (list Carga.Informe)) :
  Carga.filtro_final (Carga.consolidar arquivos) = Carga.consolidar arquivos
  /\ Carga.registros_removidos (Carga.consolidar arquivos) = 0.
Proof.
  assert (H : Carga.filtro_final (Carga.consolidar arquivos)
              = Carga.consolidar arquivos).
  { unfold Carga.filtro_final. apply filter_all.
    intros l Hl. apply (consolidar_FI arquivos l Hl). }
  split; [exact H|].
  unfold Carga.registros_removidos. rewrite H. lia.
Qed.

Lemma remove_nao_digitos_app (a b : string) :
  Carga.remove_nao_digitos (a ++ b)
  = (Carga.remove_nao_digitos a ++ Carga.remove_nao_digitos b)%string.
Proof.
  induction a as [|c a IH]; simpl; [reflexivity|].
  destruct (Carga.is_digit c); simpl; rewrite IH; reflexivity.
Qed.

Lemma remove_nao_digitos_digits (s : string) :
  Forall (fun c => Carga.is_digit c = true)
    (list_ascii_of_string (Carga.remove_nao_digitos s)).
Proof.
  induction s as [|c s IH]; simpl; [constructor|].
  destruct (Carga.is_digit c) eqn:E; simpl; [constructor|]; assumption.
Qed.

Lemma remove_nao_digitos_fixed (s : string) :
  Forall (fun c => Carga.is_digit c = true) (list_ascii_of_string s) ->
  Carga.remove_nao_digitos s = s.
Proof.
  induction s as [|c s IH]; simpl; intros H; [reflexivity|].
  inversion H as [|? ? Hc Hs]; subst. rewrite Hc, IH by assumption.
  reflexivity.
Qed.

(** X4.  A normalised fund number holds digits only, whatever the cell
    held (a missing cell included), and normalising it again changes
    nothing. *)
Theorem normaliza_cnpj_digits (cell : option string) :
  Forall (fun c => Carga.is_digit c = true)
    (list_ascii_of_string (Carga.normaliza_cnpj cell))
  /\ Carga.normaliza_cnpj (Some (Carga.normaliza_cnpj cell))
     = Carga.normaliza_cnpj cell.
Proof.
  split; [apply remove_nao_digitos_digits|].
  unfold Carga.normaliza_cnpj at 1. simpl Carga.astype_str.
  apply remove_nao_digitos_fixed. apply remove_nao_digitos_digits.
Qed.

(** X5.  Punctuation does not matter: a character that is not a digit,
    wherever it stands in the cell, leaves the normalised number
    unchanged. *)
Theorem normaliza_cnpj_ignores_punctuation (a b : string) (c : ascii) :
  Carga.is_digit c = false ->
  Carga.normaliza_cnpj (Some (a ++ String c b)%string)
  = Carga.normaliza_cnpj (Some (a ++ b)%string).
Proof.
  intros Hc. unfold Carga.normaliza_cnpj. simpl Carga.astype_str.
  rewrite !remove_nao_digitos_app. simpl. rewrite Hc. reflexivity.
Qed.

Lemma normaliza_cnpj_ignores_punctuation_witness :
  Carga.is_digit "/"%char = false
  /\ Carga.normaliza_cnpj (Some "00000000/000191"%string)
     = Carga.normaliza_cnpj (Some "00000000000191"%string).
Proof.
  split; [reflexivity|].
  exact (normaliza_cnpj_ignores_punctuation "00000000" "000191" "/"%char
           eq_refl).
Defined.

(** ** More on the aggregation *)

Section Extensionality.

Context {K A : Type}.
Variable cmp : K -> K -> comparison.
Hypothesis order : total_order cmp.

Lemma group_get_tail k k0 (a0 : A) acc :
  k <> k0 -> group_get cmp k ((k0, a0) :: acc) = group_get cmp k acc.
Proof.
  intros Hne. simpl. destruct (cmp k k0) eqn:E; try reflexivity.
  apply (cmp_eq cmp order) in E. contradiction.
Qed.

Lemma before_all_trans k k0 (keys : list K) :
  before cmp k k0 -> Forall (before cmp k0) keys -> Forall (before cmp k) keys.
Proof.
  intros Hk. apply Forall_impl. intros x Hx.
  eapply (cmp_trans cmp order); eassumption.
Qed.

(** Two ascending accumulator lists that answer every lookup alike are the
    same list. *)
Lemma ascending_ext (acc1 acc2 : list (K * A)) :
  ascending cmp acc1 -> ascending cmp acc2 ->
  (forall k, group_get cmp k acc1 = group_get cmp k acc2) ->
  acc1 = acc2.
Proof.
  unfold ascending. revert acc2.
  induction acc1 as [|[k1 a1] t1 IH]; intros [|[k2 a2] t2] H1 H2 Hget.
  - reflexivity.
  - specialize (Hget k2). simpl in Hget.
    rewrite (cmp_refl cmp order) in Hget. discriminate.
  - specialize (Hget k1). simpl in Hget.
    rewrite (cmp_refl cmp order) in Hget. discriminate.
  - simpl in H1, H2.
    inversion H1 as [|? ? Hs1 Hall1]; subst.
    inversion H2 as [|? ? Hs2 Hall2]; subst.
    destruct (cmp k1 k2) eqn:E.
    + apply (cmp_eq cmp order) in E. subst k2.
      pose proof (Hget k1) as Hk. simpl in Hk.
      rewrite (cmp_refl cmp order) in Hk. inversion Hk; subst a2.
      f_equal. apply IH; try assumption.
      intros k. specialize (Hget k).
      destruct (cmp k k1) eqn:Ek.
      * apply (cmp_eq cmp order) in Ek. subst k.
        rewrite !(group_get_none cmp) by assumption. reflexivity.
      * rewrite !group_get_tail in Hget; [exact Hget| |];
          intros ->; rewrite (cmp_refl cmp order) in Ek; discriminate.
      * rewrite !group_get_tail in Hget; [exact Hget| |];
          intros ->; rewrite (cmp_refl cmp order) in Ek; discriminate.
    + exfalso. specialize (Hget k1). simpl in Hget.
      rewrite (cmp_refl cmp order), E in Hget.
      rewrite (group_get_none cmp) in Hget; [discriminate|].
      apply (before_all_trans k1 k2); assumption.
    + exfalso. specialize (Hget k2). simpl in Hget.
      rewrite (cmp_refl cmp order) in Hget.
      rewrite (cmp_gt_lt cmp order k1 k2 E) in Hget.
      rewrite (group_get_none cmp) in Hget; [discriminate|].
      apply (before_all_trans k2 k1); [|assumption].
      apply (cmp_gt_lt cmp order). exact E.
Qed.

(** Keeping the groups whose key passes a test. *)
Lemma group_get_filter (p : K -> bool) k (acc : list (K * A)) :
  group_get cmp k (filter (fun ka => p (fst ka)) acc)
  = if p k then group_get cmp k acc else None.
Proof.
  induction acc as [|[k0 a0] acc IH]; simpl; [destruct (p k); reflexivity|].
  destruct (p k0) eqn:Hp0; simpl.
  - destruct (cmp k k0) eqn:E; try exact IH.
    apply (cmp_eq cmp order) in E. subst k0. rewrite Hp0. reflexivity.
  - rewrite IH. destruct (cmp k k0) eqn:E; try reflexivity.
    apply (cmp_eq cmp order) in E. subst k0. rewrite Hp0. reflexivity.
Qed.

Lemma ascending_filter (f : K * A -> bool) (acc : list (K * A)) :
  ascending cmp acc -> ascending cmp (filter f acc).
Proof.
  unfold ascending.
  induction acc as [|ka acc IH]; simpl; intros Hs; [constructor|].
  inversion Hs as [|? ? Hs' Hall]; subst.
  destruct (f ka); simpl; [|apply IH; assumption].
  constructor; [apply IH; assumption|].
  apply Forall_forall. intros k Hk. rewrite Forall_forall in Hall.
  apply Hall. apply in_map_iff in Hk. destruct Hk as [x [<- Hx]].
  apply filter_In in Hx. apply in_map. apply Hx.
Qed.

End Extensionality.

Lemma accumulators_get e d df :
  group_get key_compare (e, d) (accumulators df)
  = match filter (has_key e d) df with
    | [] => None
    | rows => Some (total (valid_values rows))
    end.
Proof.
  unfold accumulators.
  rewrite (group_fold_get key_compare key_order) by constructor.
  rewrite own_updates_sum. simpl group_get.
  destruct (filter (has_key e d) df); reflexivity.
Qed.

Lemma group_upd_length {K A : Type} (cmp : K -> K -> comparison) k f
    (acc : list (K * A)) :
  (List.length (group_upd cmp k f acc) <= S (List.length acc))%nat.
Proof.
  induction acc as [|[k0 a0] acc IH]; simpl; [lia|].
  destruct (cmp k k0); simpl; lia.
Qed.

Lemma accumulators_length_from df (acc : list (key * Z)) :
  (List.length (group_fold key_compare row_key sum_upd df acc)
   <= List.length acc + List.length (filter dated df))%nat.
Proof.
  unfold group_fold. revert acc.
  induction df as [|r df IH]; intros acc; cbn [fold_left filter]; [lia|].
  etransitivity; [apply IH|].
  unfold dated at 2, row_key.
  destruct (Data_Comptc r) as [d|]; simpl; [|lia].
  pose proof (group_upd_length key_compare (CNPJ_FUNDO_CLASSE r, d)
                (sum_upd r) acc). lia.
Qed.

(** X8.  The aggregated frame never has more rows than the input has rows
    with a date (the count printed at line 125 never exceeds the one of
    line 124). *)
Theorem aggregator_row_count (df : list Row) :
  (List.length (df_agg df) <= List.length (filter dated df)
   <= List.length df)%nat.
Proof.
  split.
  - unfold df_agg, groupby_sum. rewrite length_map.
    apply (accumulators_length_from df []).
  - apply filter_length_le.
Qed.

Lemma of_fund_agg_row e (ka : key * Z) :
  of_fund e (agg_row ka) = String.eqb (fst (fst ka)) e.
Proof. reflexivity. Qed.

Lemma filter_has_key_of_fund e e' d df :
  filter (has_key e' d) (filter (of_fund e) df)
  = if String.eqb e' e then filter (has_key e' d) df else [].
Proof.
  rewrite filter_filter.
  destruct (String.eqb_spec e' e) as [->|Hne].
  - apply filter_ext. intros r. unfold of_fund, has_key.
    destruct (String.eqb (CNPJ_FUNDO_CLASSE r) e); reflexivity.
  - apply filter_none. intros r _. unfold of_fund, has_key.
    destruct (String.eqb_spec (CNPJ_FUNDO_CLASSE r) e) as [He|];
      [|reflexivity].
    destruct (String.eqb_spec (CNPJ_FUNDO_CLASSE r) e') as [He'|];
      [congruence|reflexivity].
Qed.

Lemma df_agg_of_fund (df : list Row) (e : string) :
  filter (of_fund e) (df_agg df) = df_agg (filter (of_fund e) df).
Proof.
  unfold df_agg, groupby_sum.
  fold (accumulators df). fold (accumulators (filter (of_fund e) df)).
  rewrite filter_map_swap. f_equal.
  rewrite (filter_ext _ (fun ka : key * Z => String.eqb (fst (fst ka)) e))
    by (intros ka; apply of_fund_agg_row).
  apply (ascending_ext key_compare key_order).
  - apply (ascending_filter key_compare). apply accumulators_ascending.
  - apply accumulators_ascending.
  - intros [e' d].
    rewrite (group_get_filter key_compare key_order
               (fun k => String.eqb (fst k) e)).
    rewrite !accumulators_get, filter_has_key_of_fund. simpl fst.
    destruct (String.eqb e' e); reflexivity.
Qed.

(** X9.  Aggregation treats each fund on its own: the rows of a fund in
    the aggregated frame are the aggregation of that fund's input rows
    alone. *)
Theorem aggregator_per_fund (df : list Row) (e : string) :
  filter (of_fund e) (df_agg df) = df_agg (filter (of_fund e) df).
Proof. apply df_agg_of_fund. Qed.

(** ** More on the window stage *)

Lemma janela_of_fund W agg r e :
  CNPJ_FUNDO_CLASSE r = e ->
  janela W agg r = janela W (filter (of_fund e) agg) r.
Proof.
  intros He. unfold janela, window_total. rewrite He.
  destruct (Data_Comptc r) as [d|]; [|reflexivity].
  rewrite filter_filter. do 3 f_equal.
  apply filter_ext. intros a. unfold of_fund, fund_window.
  destruct (String.eqb (CNPJ_FUNDO_CLASSE a) e); reflexivity.
Qed.

(** X10.  The window sums of a fund depend on the rows of that fund alone:
    two inputs with the same rows for fund [e] give the same window rows
    for [e], whatever the other funds hold. *)
Theorem windows_per_fund (df df' : list Row) (e : string)
    (out out' : list WRow) :
  filter (of_fund e) df = filter (of_fund e) df' ->
  etapa_rolling (validacao (df_agg df)) = Some out ->
  etapa_rolling (validacao (df_agg df')) = Some out' ->
  filter (fun w => of_fund e (base w)) out
  = filter (fun w => of_fund e (base w)) out'.
Proof.
  intros Hsame Hout Hout'.
  rewrite etapa_rolling_df_agg in Hout, Hout'.
  injection Hout as <-. injection Hout' as <-.
  assert (Hone : forall x,
    filter (fun w => of_fund e (base w))
      (map (fun r => mkWRow r (janela 30 (df_agg x) r)
                       (janela 90 (df_agg x) r) (janela 180 (df_agg x) r))
         (df_agg x))
    = map (fun r =>
             mkWRow r (janela 30 (df_agg (filter (of_fund e) x)) r)
               (janela 90 (df_agg (filter (of_fund e) x)) r)
               (janela 180 (df_agg (filter (of_fund e) x)) r))
        (df_agg (filter (of_fund e) x))).
  { intros x. rewrite filter_map_swap. cbn [base].
    rewrite <- df_agg_of_fund.
    apply map_ext_in. intros r Hr. apply filter_In in Hr.
    destruct Hr as [_ He]. apply String.eqb_eq in He.
    rewrite !(janela_of_fund _ (df_agg x) r e He). reflexivity. }
  rewrite !Hone, Hsame. reflexivity.
Qed.

Lemma windows_per_fund_witness :
  exists out out',
    filter (of_fund fundo_A) exemplo_corte
    = filter (of_fund fundo_A) (exemplo_negativo_B ++ exemplo_corte_A)
    /\ etapa_rolling (validacao (df_agg exemplo_corte)) = Some out
    /\ etapa_rolling
         (validacao (df_agg (exemplo_negativo_B ++ exemplo_corte_A)))
       = Some out'
    /\ filter (fun w => of_fund fundo_A (base w)) out
       = filter (fun w => of_fund fundo_A (base w)) out'.
Proof.
  assert (Hsame : filter (of_fund fundo_A) exemplo_corte
                  = filter (of_fund fundo_A)
                      (exemplo_negativo_B ++ exemplo_corte_A))
    by reflexivity.
  destruct (etapa_rolling (validacao (df_agg exemplo_corte)))
    as [out|] eqn:H1; [|vm_compute in H1; discriminate].
  destruct (etapa_rolling
              (validacao (df_agg (exemplo_negativo_B ++ exemplo_corte_A))))
    as [out'|] eqn:H2; [|vm_compute in H2; discriminate].
  exists out, out'. repeat split; try assumption.
  exact (windows_per_fund _ _ fundo_A out out' Hsame H1 H2).
Defined.

(** ** The sort of line 162 *)

Lemma date_order : total_order date_compare.
Proof.
  split.
  - intros [a|] [b|]; simpl; try (split; [discriminate|congruence]).
    + rewrite Z.compare_eq_iff. split; congruence.
    + split; reflexivity.
  - intros [a|] [b|]; simpl; try reflexivity. apply Z.compare_antisym.
  - intros [a|] [b|] [c|]; simpl; try discriminate; try reflexivity.
    rewrite !Z.compare_lt_iff. lia.
Qed.

Lemma sort_order : total_order okey_compare.
Proof.
  destruct string_order as [seq_ santi strans].
  destruct date_order as [deq danti dtrans].
  split.
  - intros [a1 a2] [b1 b2]. unfold okey_compare. simpl.
    destruct (String.compare a1 b1) eqn:E.
    + apply seq_ in E. subst b1. rewrite deq.
      split; [intros ->; reflexivity | intros H; inversion H; reflexivity].
    + split; [discriminate|]. intros H. inversion H; subst.
      assert (String.compare b1 b1 = Eq) by (apply seq_; reflexivity).
      congruence.
    + split; [discriminate|]. intros H. inversion H; subst.
      assert (String.compare b1 b1 = Eq) by (apply seq_; reflexivity).
      congruence.
  - intros [a1 a2] [b1 b2]. unfold okey_compare. simpl.
    rewrite (santi a1 b1). destruct (String.compare b1 a1); simpl; auto.
  - intros [a1 a2] [b1 b2] [c1 c2]. unfold okey_compare. simpl.
    destruct (String.compare a1 b1) eqn:E1; try discriminate;
      destruct (String.compare b1 c1) eqn:E2; try discriminate.
    + apply seq_ in E1. apply seq_ in E2. subst.
      assert (String.compare c1 c1 = Eq) as -> by (apply seq_; reflexivity).
      apply dtrans.
    + apply seq_ in E1. subst. rewrite E2. reflexivity.
    + apply seq_ in E2. subst. rewrite E1. reflexivity.
    + rewrite (strans _ _ _ E1 E2). reflexivity.
Qed.

Lemma sort_compare_okey r1 r2 :
  sort_compare r1 r2 = okey_compare (key_columns r1) (key_columns r2).
Proof. reflexivity. Qed.

Section WeakOrder.

Context {K : Type}.
Variable cmp : K -> K -> comparison.
Hypothesis order : total_order cmp.

Lemma not_after_trans a b c :
  not_after cmp a b -> not_after cmp b c -> not_after cmp a c.
Proof.
  unfold not_after. intros Hab Hbc.
  destruct (cmp a b) eqn:E1; [| |congruence].
  - apply (cmp_eq cmp order) in E1. subst b. exact Hbc.
  - destruct (cmp b c) eqn:E2; [| |congruence].
    + apply (cmp_eq cmp order) in E2. subst c. rewrite E1. discriminate.
    + rewrite (cmp_trans cmp order a b c E1 E2). discriminate.
Qed.

Lemma not_lt_not_after a b : cmp a b <> Lt -> not_after cmp b a.
Proof.
  unfold not_after. intros H. rewrite (cmp_antisym cmp order).
  destruct (cmp a b); simpl; congruence.
Qed.

End WeakOrder.

Lemma sort_le_trans a b c : sort_le a b -> sort_le b c -> sort_le a c.
Proof.
  unfold sort_le. rewrite !sort_compare_okey.
  apply (not_after_trans okey_compare sort_order).
Qed.

Lemma sort_insert_Permutation r l : Permutation (sort_insert r l) (r :: l).
Proof.
  induction l as [|x l IH]; simpl; [reflexivity|].
  destruct (sort_compare r x); try reflexivity;
    (etransitivity; [apply perm_skip; exact IH|apply perm_swap]).
Qed.

Lemma sort_insert_sorted r l :
  StronglySorted sort_le l -> StronglySorted sort_le (sort_insert r l).
Proof.
  induction l as [|x l IH]; simpl; intros Hs.
  - constructor; constructor.
  - inversion Hs as [|? ? Hs' Hall]; subst.
    assert (Hafter : sort_compare r x <> Lt ->
              StronglySorted sort_le (x :: sort_insert r l)).
    { intros Hne. constructor; [apply IH; assumption|].
      apply Forall_forall. intros y Hy.
      apply (Permutation_in _ (sort_insert_Permutation r l)) in Hy.
      destruct Hy as [<-|Hy].
      - unfold sort_le. rewrite sort_compare_okey.
        apply (not_lt_not_after okey_compare sort_order).
        rewrite <- sort_compare_okey. exact Hne.
      - rewrite Forall_forall in Hall. apply Hall. exact Hy. }
    destruct (sort_compare r x) eqn:E;
      [apply Hafter; discriminate| |apply Hafter; discriminate].
    constructor; [exact Hs|].
    assert (Hrx : sort_le r x) by (unfold sort_le; rewrite E; discriminate).
    constructor; [exact Hrx|].
    eapply Forall_impl; [|exact Hall].
    intros y Hy. eapply sort_le_trans; eassumption.
Qed.

Lemma sort_values_from_sorted df acc :
  StronglySorted sort_le acc ->
  StronglySorted sort_le (fold_left (fun s r => sort_insert r s) df acc)
  /\ Permutation (fold_left (fun s r => sort_insert r s) df acc) (acc ++ df).
Proof.
  revert acc. induction df as [|r df IH]; simpl; intros acc Hs.
  - rewrite app_nil_r. split; [exact Hs|reflexivity].
  - destruct (IH (sort_insert r acc) (sort_insert_sorted r acc Hs))
      as [Hsorted Hperm].
    split; [exact Hsorted|].
    etransitivity; [exact Hperm|].
    etransitivity;
      [apply Permutation_app_tail; apply sort_insert_Permutation|].
    simpl. apply Permutation_middle.
Qed.

(** X12.  [sort_values] returns the rows it was given, each as many times,
    ordered by fund and then by date, the rows without a date last within
    their fund. *)
Theorem sort_values_sorts (df : list Row) :
  Permutation (sort_values df) df
  /\ StronglySorted sort_le (sort_values df).
Proof.
  destruct (sort_values_from_sorted df [] (SSorted_nil _)) as [Hs Hp].
  split; [exact Hp|exact Hs].
Qed.

(** ** When the window stage fails *)

Lemma set_index_dated df :
  forallb dated df = true -> set_index df = Some (map indexado df).
Proof.
  induction df as [|r df IH]; simpl; intros H; [reflexivity|].
  apply andb_true_iff in H. destruct H as [Hr Hdf].
  unfold dated in Hr. unfold indexado at 1.
  destruct (Data_Comptc r) as [d|]; [|discriminate].
  rewrite IH by exact Hdf. reflexivity.
Qed.

Lemma set_index_undated df :
  forallb dated df = false -> set_index df = None.
Proof.
  induction df as [|r df IH]; simpl; intros H; [discriminate|].
  unfold dated in H at 1.
  destruct (Data_Comptc r) as [d|]; [|reflexivity].
  simpl in H. rewrite IH by exact H. reflexivity.
Qed.

Lemma sorted_fundos (sdf : list Row) :
  StronglySorted sort_le sdf ->
  StronglySorted (not_after String.compare) (map fundo (map indexado sdf)).
Proof.
  induction 1 as [|r l Hs IH Hall]; simpl; constructor; [exact IH|].
  rewrite map_map. apply Forall_forall. intros e He.
  apply in_map_iff in He. destruct He as [x [<- Hx]].
  rewrite Forall_forall in Hall. specialize (Hall x Hx).
  unfold sort_le, sort_compare, not_after, fundo, indexado in *. simpl.
  destruct (String.compare (CNPJ_FUNDO_CLASSE r) (CNPJ_FUNDO_CLASSE x));
    congruence.
Qed.

Lemma sorted_le_monotonic (index : list Z) :
  StronglySorted Z.le index -> is_monotonic_increasing index = true.
Proof.
  induction 1 as [|x l Hs IH Hall]; [reflexivity|].
  destruct l as [|y l]; [reflexivity|].
  change (is_monotonic_increasing (x :: y :: l))
    with ((x <=? y) && is_monotonic_increasing (y :: l)).
  rewrite IH, andb_true_r.
  inversion Hall; subst. apply Z.leb_le. assumption.
Qed.

(** Within one fund the days of a sorted, dated frame do not descend. *)
Lemma sorted_group_days (sdf : list Row) e :
  StronglySorted sort_le sdf ->
  forallb dated sdf = true ->
  StronglySorted Z.le
    (map fst (filter (is_key String.compare fundo e) (map indexado sdf))).
Proof.
  induction 1 as [|r l Hs IH Hall]; simpl; intros Hd; [constructor|].
  apply andb_true_iff in Hd. destruct Hd as [Hr Hl].
  unfold is_key at 1. unfold fundo at 1. simpl snd.
  destruct (String.compare (CNPJ_FUNDO_CLASSE r) e) eqn:E;
    try (apply IH; exact Hl).
  simpl. constructor; [apply IH; exact Hl|].
  apply (cmp_eq String.compare string_order) in E.
  apply Forall_forall. intros d Hin.
  apply in_map_iff in Hin. destruct Hin as [[d' x] [Hfst Hx]].
  simpl in Hfst. subst d'.
  apply filter_In in Hx. destruct Hx as [Hx Hk].
  apply in_map_iff in Hx. destruct Hx as [x' [Hx' Hin]].
  unfold indexado in Hx'. inversion Hx'; subst x'. clear Hx'.
  unfold is_key, fundo in Hk. simpl in Hk.
  destruct (String.compare (CNPJ_FUNDO_CLASSE x) e) eqn:E'; try discriminate.
  apply (cmp_eq String.compare string_order) in E'.
  rewrite Forall_forall in Hall. specialize (Hall x Hin).
  rewrite forallb_forall in Hl. specialize (Hl x Hin).
  unfold sort_le, sort_compare in Hall. rewrite E, E' in Hall.
  rewrite (cmp_refl String.compare string_order) in Hall.
  unfold dated in Hr, Hl.
  destruct (Data_Comptc r) as [dr|]; [|discriminate].
  destruct (Data_Comptc x) as [dx|]; [|discriminate].
  simpl in Hall. exact Hall.
Qed.

Lemma rolling_sum_length W minp g :
  List.length (rolling_sum W minp g) = List.length g.
Proof.
  unfold rolling_sum. rewrite RollSumFacts.roll_sum_windows.
  rewrite length_map, WindowFacts.window_bounds_length, length_map.
  reflexivity.
Qed.

Lemma map_fst_combine {A B : Type} (a : list A) (b : list B) :
  List.length a = List.length b -> map fst (combine a b) = a.
Proof.
  revert b. induction a as [|x a IH]; intros [|y b] H; simpl in *;
    try reflexivity; try discriminate.
  rewrite IH by lia. reflexivity.
Qed.

(** On a sorted, dated frame the series of a window size has the index of
    the frame. *)
Lemma groupby_rolling_sum_sorted W (sdf : list Row) :
  StronglySorted sort_le sdf ->
  forallb dated sdf = true ->
  exists value,
    groupby_rolling_sum W 1 (map indexado sdf) = Some value
    /\ map fst value = map fst (map indexado sdf).
Proof.
  intros Hs Hd. unfold groupby_rolling_sum.
  assert (Hrows : forall e g, In (e, g) (grupos (map indexado sdf)) ->
            g = filter (is_key String.compare fundo e) (map indexado sdf)).
  { intros e g Hg. unfold grupos in Hg.
    apply (group_fold_rows String.compare string_order fundo) in Hg.
    exact Hg. }
  replace (forallb (fun g => group_is_monotonic (snd g))
             (grupos (map indexado sdf))) with true.
  - eexists. split; [reflexivity|].
    rewrite flat_map_concat_map, concat_map, map_map.
    assert (Hc : List.concat (map snd (grupos (map indexado sdf)))
                 = map indexado sdf).
    { unfold grupos.
      rewrite (group_fold_concat String.compare string_order fundo).
      - reflexivity.
      - constructor.
      - apply sorted_fundos. exact Hs.
      - intros k' r []. }
    rewrite <- Hc at 2. rewrite concat_map, map_map. f_equal.
    apply map_ext. intros [e g]. simpl snd.
    apply map_fst_combine. rewrite length_map, rolling_sum_length.
    reflexivity.
  - symmetry. apply forallb_forall. intros [e g] Hg. simpl snd.
    apply Hrows in Hg. subst g. unfold group_is_monotonic.
    rewrite sorted_le_monotonic by (apply sorted_group_days; assumption).
    reflexivity.
Qed.

Lemma Captacao_ND_sorted W (sdf : list Row) :
  StronglySorted sort_le sdf ->
  forallb dated sdf = true ->
  exists col,
    Captacao_ND W (map indexado sdf) = Some col
    /\ List.length col = List.length sdf.
Proof.
  intros Hs Hd.
  destruct (groupby_rolling_sum_sorted W sdf Hs Hd) as [value [Hv Hidx]].
  unfold Captacao_ND. rewrite Hv. unfold setitem.
  rewrite Hidx, index_equals_refl.
  eexists. split; [reflexivity|].
  rewrite length_map. rewrite <- (length_map fst value), Hidx.
  rewrite !length_map. reflexivity.
Qed.

Lemma with_columns_base df c30 c90 c180 :
  List.length c30 = List.length df ->
  List.length c90 = List.length df ->
  List.length c180 = List.length df ->
  map base (with_columns df c30 c90 c180) = df.
Proof.
  revert c30 c90 c180.
  induction df as [|r df IH]; intros [|a c30] [|b c90] [|c c180] H1 H2 H3;
    simpl in *; try reflexivity; try discriminate.
  rewrite IH by lia. reflexivity.
Qed.

Lemma forallb_Permutation {A : Type} (f : A -> bool) l l' :
  Permutation l l' -> forallb f l = forallb f l'.
Proof.
  induction 1 as [|x l l' _ IH|x y l|l l' l'' _ IH1 _ IH2]; simpl.
  - reflexivity.
  - rewrite IH. reflexivity.
  - destruct (f x), (f y); reflexivity.
  - congruence.
Qed.

(** X11.  On a frame whose rows all carry a date the window stage does not
    fail, whatever the order of the rows and even with repeated keys: it
    returns one row for each input row, in the order of the sort by fund
    and date. *)
Theorem etapa_rolling_succeeds_on_dated (df : list Row) :
  (forall r, In r df -> Data_Comptc r <> None) ->
  exists out,
    etapa_rolling df = Some out /\ map base out = sort_values df.
Proof.
  intros Hdated.
  assert (Hall : forallb dated df = true).
  { apply forallb_forall. intros r Hr. specialize (Hdated r Hr).
    unfold dated. destruct (Data_Comptc r); [reflexivity|contradiction]. }
  destruct (sort_values_from_sorted df [] (SSorted_nil _)) as [Hs Hp].
  fold (sort_values df) in Hs, Hp. simpl in Hp.
  pose proof (forallb_Permutation dated _ _ Hp) as Hd.
  rewrite Hall in Hd.
  unfold etapa_rolling.
  rewrite (set_index_dated _ Hd).
  destruct (Captacao_ND_sorted 30 _ Hs Hd) as [c30 [-> L30]].
  destruct (Captacao_ND_sorted 90 _ Hs Hd) as [c90 [-> L90]].
  destruct (Captacao_ND_sorted 180 _ Hs Hd) as [c180 [-> L180]].
  eexists. split; [reflexivity|].
  apply with_columns_base; assumption.
Qed.

Lemma etapa_rolling_succeeds_on_dated_witness :
  (forall r, In r exemplo_corte -> Data_Comptc r <> None)
  /\ exists out,
       etapa_rolling exemplo_corte = Some out
       /\ map base out = sort_values exemplo_corte.
Proof.
  assert (H : forall r, In r exemplo_corte -> Data_Comptc r <> None).
  { intros r Hr. destruct Hr as [<-|[<-|[<-|[<-|[]]]]]; discriminate. }
  split; [exact H|exact (etapa_rolling_succeeds_on_dated exemplo_corte H)].
Defined.

(** ** The join with the register and the final check *)

Lemma merge_cad_cons w df cad :
  merge_cad (w :: df) cad
  = match Cadastro.do_cadastro (CNPJ_FUNDO_CLASSE (base w)) cad with
    | [] => [mkMRow w None]
    | found => map (fun c => mkMRow w (snd c)) found
    end ++ merge_cad df cad.
Proof. reflexivity. Qed.

Lemma merge_cad_block w cad :
  map windowed
    (match Cadastro.do_cadastro (CNPJ_FUNDO_CLASSE (base w)) cad with
     | [] => [mkMRow w None]
     | found => map (fun c => mkMRow w (snd c)) found
     end)
  = repeat w (copias cad w).
Proof.
  unfold copias.
  destruct (Cadastro.do_cadastro (CNPJ_FUNDO_CLASSE (base w)) cad)
    as [|c found]; [reflexivity|].
  rewrite map_map. cbn [windowed]. cbn [List.length].
  rewrite Nat.max_r by lia.
  change (S (List.length found)) with (List.length (c :: found)).
  generalize (c :: found). intros l.
  induction l as [|x l IH]; simpl; [reflexivity|]. rewrite IH. reflexivity.
Qed.

Lemma merge_cad_windowed df cad :
  map windowed (merge_cad df cad)
  = flat_map (fun w => repeat w (copias cad w)) df.
Proof.
  induction df as [|w df IH]; [reflexivity|].
  rewrite merge_cad_cons, map_app, merge_cad_block, IH. reflexivity.
Qed.

Lemma copias_positive cad w : (1 <= copias cad w)%nat.
Proof. unfold copias. lia. Qed.

Lemma merge_cad_in df cad w :
  In w (map windowed (merge_cad df cad)) <-> In w df.
Proof.
  rewrite merge_cad_windowed, in_flat_map. split.
  - intros [x [Hx Hw]]. apply repeat_spec in Hw. subst w. exact Hx.
  - intros Hw. exists w. split; [exact Hw|].
    pose proof (copias_positive cad w).
    destruct (copias cad w) as [|n]; [lia|]. left. reflexivity.
Qed.

Lemma merge_cad_length df cad :
  List.length (merge_cad df cad) = list_sum (map (copias cad) df).
Proof.
  rewrite <- (length_map windowed), merge_cad_windowed.
  induction df as [|w df IH]; simpl; [reflexivity|].
  rewrite length_app, repeat_length, IH. reflexivity.
Qed.

Lemma list_sum_at_least {A : Type} (f : A -> nat) l :
  (forall x, 1 <= f x)%nat -> (List.length l <= list_sum (map f l))%nat.
Proof.
  intros Hf. induction l as [|x l IH]; simpl; [lia|].
  specialize (Hf x). lia.
Qed.

Lemma list_sum_exact {A : Type} (f : A -> nat) l :
  (forall x, 1 <= f x)%nat ->
  list_sum (map f l) = List.length l <-> Forall (fun x => f x = 1%nat) l.
Proof.
  intros Hf. induction l as [|x l IH]; simpl.
  - split; [constructor|reflexivity].
  - pose proof (Hf x) as Hfx.
    pose proof (list_sum_at_least f l Hf) as Hge. split.
    + intros Hsum. constructor; [lia|]. apply IH. lia.
    + intros Hall. inversion Hall as [|? ? Hx Hl]; subst.
      apply IH in Hl. lia.
Qed.

(** X13.  The join is a left join: every row of the window frame is kept,
    no other row appears, and the joined frame is at least as long. *)
Theorem merge_cad_keeps_rows (df : list WRow)
    (cad : list (string * option string)) :
  (forall w, In w (map windowed (merge_cad df cad)) <-> In w df)
  /\ (List.length df <= List.length (merge_cad df cad))%nat.
Proof.
  split; [intros w; apply merge_cad_in|].
  rewrite merge_cad_length. apply list_sum_at_least.
  intros w. apply copias_positive.
Qed.

Lemma merge_cad_unique_entries df cad :
  Forall (fun w =>
            (List.length
               (Cadastro.do_cadastro (CNPJ_FUNDO_CLASSE (base w)) cad)
             <= 1)%nat) df ->
  merge_cad df cad = map (fun w => mkMRow w (nome_do_fundo cad w)) df.
Proof.
  induction 1 as [|w df Hw Hdf IH]; [reflexivity|].
  rewrite merge_cad_cons, IH. cbn [map]. unfold nome_do_fundo.
  destruct (Cadastro.do_cadastro (CNPJ_FUNDO_CLASSE (base w)) cad)
    as [|c [|c' found]]; simpl in *; try reflexivity. lia.
Qed.

(** X14.  When the register has at most one entry for the fund of every
    row, the join adds the name to each row and nothing else: same rows,
    same order, the name of the entry, or no name for a fund the register
    does not know. *)
Theorem merge_cad_one_entry_per_fund (df : list WRow)
    (cad : list (string * option string)) :
  Forall (fun w =>
            (List.length
               (Cadastro.do_cadastro (CNPJ_FUNDO_CLASSE (base w)) cad)
             <= 1)%nat) df ->
  merge_cad df cad = map (fun w => mkMRow w (nome_do_fundo cad w)) df.
Proof. apply merge_cad_unique_entries. Qed.

Lemma merge_cad_one_entry_per_fund_witness :
  Forall (fun w =>
            (List.length
               (Cadastro.do_cadastro (CNPJ_FUNDO_CLASSE (base w))
                  exemplo_cad)
             <= 1)%nat) (map windowed exemplo_corte_janelas)
  /\ merge_cad (map windowed exemplo_corte_janelas) exemplo_cad
     = map (fun w => mkMRow w (nome_do_fundo exemplo_cad w))
         (map windowed exemplo_corte_janelas).
Proof.
  assert (H : Forall (fun w =>
            (List.length
               (Cadastro.do_cadastro (CNPJ_FUNDO_CLASSE (base w))
                  exemplo_cad)
             <= 1)%nat) (map windowed exemplo_corte_janelas)).
  { repeat constructor. }
  split; [exact H|exact (merge_cad_one_entry_per_fund _ _ H)].
Defined.

Section GroupKeys.

Context {K A : Type}.
Variable cmp : K -> K -> comparison.
Hypothesis order : total_order cmp.

Lemma group_upd_keys_iff k f (acc : list (K * A)) k' :
  In k' (map fst (group_upd cmp k f acc)) <-> k' = k \/ In k' (map fst acc).
Proof.
  split; [apply group_upd_keys|].
  induction acc as [|[k0 a0] acc IH]; simpl.
  - intros [->|[]]. left. reflexivity.
  - destruct (cmp k k0) eqn:E; simpl.
    + apply (cmp_eq cmp order) in E. subst k0.
      intros [->|[->|H]]; auto.
    + intros [->|[->|H]]; auto.
    + intros [->|[->|H]]; auto.
Qed.

Lemma group_fold_keys {R : Type} (keyof : R -> option K)
    (upd : R -> option A -> A) df (acc : list (K * A)) k :
  In k (map fst (group_fold cmp keyof upd df acc))
  <-> In k (map fst acc) \/ In (Some k) (map keyof df).
Proof.
  unfold group_fold. revert acc.
  induction df as [|r df IH]; intros acc; simpl.
  - tauto.
  - rewrite IH. destruct (keyof r) as [k0|] eqn:Hr.
    + rewrite group_upd_keys_iff. split.
      * intros [[->|H]|H]; auto.
      * intros [H|[H|H]]; auto. inversion H; subst. auto.
    + split.
      * intros [H|H]; auto.
      * intros [H|[H|H]]; auto. discriminate.
Qed.

End GroupKeys.

(** On the joined frame the final check counts one key for each row of
    the window frame. *)
Lemma n_unicos_merge df cad :
  n_unicos
    (merge_cad
       (map (fun r => mkWRow r (janela 30 (df_agg df) r)
                        (janela 90 (df_agg df) r) (janela 180 (df_agg df) r))
          (df_agg df))
       cad)
  = List.length (df_agg df).
Proof.
  unfold n_unicos, df_agg, groupby_sum. fold (accumulators df).
  rewrite length_map. rewrite <- (length_map fst (accumulators df)).
  rewrite <- (length_map fst).
  apply Permutation_length. apply NoDup_Permutation.
  - apply (sorted_NoDup key_compare key_order).
    apply (group_fold_ascending key_compare key_order). constructor.
  - apply (sorted_NoDup key_compare key_order).
    apply accumulators_ascending.
  - intros k. unfold unicos.
    rewrite (group_fold_keys key_compare key_order). simpl.
    split.
    + intros [[]|H]. apply in_map_iff in H. destruct H as [m [Hk Hm]].
      assert (Hw : In (windowed m)
                     (map windowed
                        (merge_cad
                           (map (fun r => mkWRow r
                                   (janela 30 (map agg_row (accumulators df)) r)
                                   (janela 90 (map agg_row (accumulators df)) r)
                                   (janela 180 (map agg_row (accumulators df)) r))
                              (map agg_row (accumulators df))) cad)))
        by (apply in_map; exact Hm).
      apply merge_cad_in in Hw. apply in_map_iff in Hw.
      destruct Hw as [r [Hr Hin]]. apply in_map_iff in Hin.
      destruct Hin as [[[e d] v] [<- Hka]].
      unfold mrow_key in Hk. rewrite <- Hr in Hk. simpl in Hk.
      inversion Hk; subst. apply in_map_iff. exists (e, d, v). auto.
    + intros H. right. apply in_map_iff in H.
      destruct H as [[[e d] v] [<- Hka]]. simpl.
      set (w := mkWRow (agg_row (e, d, v))
                  (janela 30 (map agg_row (accumulators df)) (agg_row (e, d, v)))
                  (janela 90 (map agg_row (accumulators df)) (agg_row (e, d, v)))
                  (janela 180 (map agg_row (accumulators df)) (agg_row (e, d, v)))).
      assert (Hw : In w (map windowed
                        (merge_cad
                           (map (fun r => mkWRow r
                                   (janela 30 (map agg_row (accumulators df)) r)
                                   (janela 90 (map agg_row (accumulators df)) r)
                                   (janela 180 (map agg_row (accumulators df)) r))
                              (map agg_row (accumulators df))) cad))).
      { apply merge_cad_in. apply in_map_iff. exists (agg_row (e, d, v)).
        split; [reflexivity|]. apply in_map. exact Hka. }
      apply in_map_iff in Hw. destruct Hw as [m [Hm Hin]].
      apply in_map_iff. exists m. split; [|exact Hin].
      unfold mrow_key. rewrite Hm. reflexivity.
Qed.

(** X15.  The final check of section 11 reports one row per fund and date
    exactly when the register has at most one entry for the fund of every
    row; a fund with two entries makes it report duplication. *)
Theorem verificacao_final_iff (df : list Row) (out : list WRow)
    (cad : list (string * option string)) :
  etapa_rolling (validacao (df_agg df)) = Some out ->
  (verificacao_final (merge_cad out cad) = true
   <-> Forall (fun w =>
                 (List.length
                    (Cadastro.do_cadastro (CNPJ_FUNDO_CLASSE (base w)) cad)
                  <= 1)%nat) out).
Proof.
  intros Hout. rewrite etapa_rolling_df_agg in Hout. injection Hout as <-.
  unfold verificacao_final, n_registros.
  rewrite n_unicos_merge, merge_cad_length, Nat.eqb_eq.
  set (out := map _ (df_agg df)).
  replace (List.length (df_agg df)) with (List.length out)
    by (unfold out; apply length_map).
  split.
  - intros H. symmetry in H.
    apply (list_sum_exact (copias cad) out (copias_positive cad)) in H.
    eapply Forall_impl; [|exact H].
    intros w Hw. cbv beta in *. unfold copias in Hw. lia.
  - intros H. symmetry.
    apply (list_sum_exact (copias cad) out (copias_positive cad)).
    eapply Forall_impl; [|exact H].
    intros w Hw. cbv beta in *. unfold copias. lia.
Qed.

Lemma verificacao_final_iff_witness :
  etapa_rolling (validacao (df_agg exemplo_corte))
  = Some (map windowed exemplo_corte_janelas)
  /\ verificacao_final
       (merge_cad (map windowed exemplo_corte_janelas)
          ((fundo_A, Some "OUTRO NOME"%string) :: exemplo_cad))
     = false.
Proof.
  assert (H : etapa_rolling (validacao (df_agg exemplo_corte))
              = Some (map windowed exemplo_corte_janelas))
    by (vm_compute; reflexivity).
  split; [exact H|].
  destruct (verificacao_final
              (merge_cad (map windowed exemplo_corte_janelas)
                 ((fundo_A, Some "OUTRO NOME"%string) :: exemplo_cad)))
    eqn:E; [|reflexivity].
  apply (verificacao_final_iff _ _ _ H) in E.
  apply Forall_inv_tail in E. apply Forall_inv in E.
  vm_compute in E. lia.
Defined.

(** ** The cut and the final layout *)

Lemma data_maxima_some df d :
  data_maxima df = Some d -> global_max df d.
Proof.
  intros H. unfold data_maxima in H.
  change (fold_left max_step df None = Some d) in H.
  split.
  - apply max_fold_attained in H. destruct H as [H|H]; [discriminate|].
    exact H.
  - intros m t Hin Ht.
    destruct (max_fold_bounds df None) as [_ Hb].
    destruct (Hb m t Hin Ht) as [x [Hx Hle]].
    rewrite H in Hx. inversion Hx; subst. exact Hle.
Qed.

Lemma df_filtrado_dates df m :
  In m (df_filtrado df) ->
  exists d, data_maxima df = Some d /\ data_of m = Some d /\ In m df.
Proof.
  unfold df_filtrado. intros H. apply filter_In in H.
  destruct H as [Hin Hd]. unfold date_eqb in Hd.
  destruct (data_of m) as [t|]; [|discriminate].
  destruct (data_maxima df) as [d|]; [|discriminate].
  apply Z.eqb_eq in Hd. subst t. exists d. auto.
Qed.

(** X16.  The cut is stable: cutting the cut frame again returns it
    unchanged; it is empty only when no row of the frame has a date. *)
Theorem df_filtrado_idempotent (df : list MRow) :
  df_filtrado (df_filtrado df) = df_filtrado df
  /\ (df_filtrado df = [] <-> forall m, In m df -> data_of m = None).
Proof.
  destruct (data_maxima df) as [d|] eqn:Hmax.
  - pose proof (data_maxima_some df d Hmax) as [[m0 [Hin0 Hd0]] Hub].
    assert (Hm0 : In m0 (df_filtrado df)).
    { unfold df_filtrado. apply filter_In. split; [exact Hin0|].
      rewrite Hmax, Hd0. simpl. apply Z.eqb_refl. }
    split.
    + assert (Hg : global_max (df_filtrado df) d).
      { split; [exists m0; auto|].
        intros m t Hm Ht. apply df_filtrado_dates in Hm.
        destruct Hm as [d' [Hd' [Hm _]]].
        assert (t = d) by congruence. lia. }
      unfold df_filtrado at 1. rewrite (data_maxima_global_max _ _ Hg).
      apply filter_all. intros m Hm. apply df_filtrado_dates in Hm.
      destruct Hm as [d' [Hd' [Hm _]]]. rewrite Hm.
      assert (d' = d) by congruence. subst d'. simpl. apply Z.eqb_refl.
    + split.
      * intros Hnil. rewrite Hnil in Hm0. destruct Hm0.
      * intros Hnone. specialize (Hnone m0 Hin0). congruence.
  - assert (Hnil : df_filtrado df = []).
    { unfold df_filtrado. rewrite Hmax. apply filter_none.
      intros m _. unfold date_eqb. destruct (data_of m); reflexivity. }
    rewrite Hnil. split; [reflexivity|].
    split; [|reflexivity]. intros _ m Hin.
    destruct (data_of m) as [t|] eqn:Ht; [|reflexivity].
    destruct (max_fold_bounds df None) as [_ Hb].
    destruct (Hb m t Hin Ht) as [x [Hx _]].
    unfold data_maxima in Hmax.
    change (fold_left max_step df None = None) in Hmax. congruence.
Qed.

Lemma df_final_in strftime df r :
  In r (Final.df_final strftime df)
  <-> exists m nome,
        In m df /\ DENOM_SOCIAL m = Some nome
        /\ r = Final.formatar strftime (Final.colunas m).
Proof.
  unfold Final.df_final, Final.dropna.
  rewrite in_map_iff. split.
  - intros [l [<- Hl]]. apply filter_In in Hl. destruct Hl as [Hl Hn].
    apply in_map_iff in Hl. destruct Hl as [m [<- Hm]].
    unfold Final.colunas in Hn. destruct (windowed m) eqn:Hw. simpl in Hn.
    destruct (DENOM_SOCIAL m) as [nome|] eqn:Hnome; [|discriminate].
    exists m, nome. unfold Final.colunas. rewrite Hw, Hnome. auto.
  - intros [m [nome [Hm [Hn ->]]]]. exists (Final.colunas m).
    split; [reflexivity|]. apply filter_In. split; [apply in_map; exact Hm|].
    unfold Final.colunas. destruct (windowed m). simpl. rewrite Hn.
    reflexivity.
Qed.

Lemma colunas_data m :
  Final.Data (Final.colunas m) = data_of m.
Proof.
  unfold Final.colunas, data_of. destruct (windowed m). reflexivity.
Qed.

Lemma colunas_nome m :
  Final.Nome_Fundo (Final.colunas m) = DENOM_SOCIAL m.
Proof.
  unfold Final.colunas. destruct (windowed m). reflexivity.
Qed.

(** X17.  Every row of the final frame has a name and a written date, and
    all its rows carry the same date (the range printed at line 336 is a
    single day). *)
Theorem df_final_single_date (strftime : Z -> string) (df : list MRow) :
  forall r1 r2,
    In r1 (Final.df_final strftime (df_filtrado df)) ->
    In r2 (Final.df_final strftime (df_filtrado df)) ->
    Final.Data r1 = Final.Data r2
    /\ Final.Data r1 <> None
    /\ Final.Nome_Fundo r1 <> None.
Proof.
  intros r1 r2 H1 H2.
  apply df_final_in in H1. destruct H1 as [m1 [n1 [Hm1 [Hn1 ->]]]].
  apply df_final_in in H2. destruct H2 as [m2 [n2 [Hm2 [Hn2 ->]]]].
  apply df_filtrado_dates in Hm1. destruct Hm1 as [d1 [Hmax1 [Hd1 _]]].
  apply df_filtrado_dates in Hm2. destruct Hm2 as [d2 [Hmax2 [Hd2 _]]].
  assert (d1 = d2) by congruence. subst d2.
  unfold Final.formatar. cbn [Final.Data Final.Nome_Fundo].
  rewrite !colunas_data, !colunas_nome, Hd1, Hd2, Hn1.
  repeat split; discriminate.
Qed.

Lemma df_final_single_date_witness :
  In (Final.mkLayout (Some "FUNDO A"%string) (Some "01/03/2024"%string)
        (Some 5) (Some 15) (Some 15) (Some 15))
    (Final.df_final (fun _ => "01/03/2024"%string)
       (df_filtrado exemplo_corte_janelas))
  /\ Final.Nome_Fundo
       (Final.mkLayout (Some "FUNDO A"%string) (Some "01/03/2024"%string)
          (Some 5) (Some 15) (Some 15) (Some 15)) <> None.
Proof.
  assert (H : In (Final.mkLayout (Some "FUNDO A"%string)
                    (Some "01/03/2024"%string)
                    (Some 5) (Some 15) (Some 15) (Some 15))
                (Final.df_final (fun _ => "01/03/2024"%string)
                   (df_filtrado exemplo_corte_janelas)))
    by (left; reflexivity).
  split; [exact H|].
  exact (proj2 (proj2 (df_final_single_date _ _ _ _ H H))).
Defined.

(** X18.  A row reaches the final frame exactly when it is a row of the
    last day whose fund has an entry with a name in the register; its name
    is the name of that entry and its numbers are those of the window
    frame. *)
Theorem df_final_rows (strftime : Z -> string) (out : list WRow)
    (cad : list (string * option string)) (r : Final.Layout string) :
  In r (Final.df_final strftime (df_filtrado (merge_cad out cad)))
  <-> exists w nome d,
        In w out
        /\ In (CNPJ_FUNDO_CLASSE (base w), Some nome) cad
        /\ Data_Comptc (base w) = Some d
        /\ data_maxima (merge_cad out cad) = Some d
        /\ r = Final.mkLayout (Some nome) (Some (strftime d))
                 (Captacao_Liquida (base w)) (Captacao_30D w)
                 (Captacao_90D w) (Captacao_180D w).
Proof.
  rewrite df_final_in. split.
  - intros [m [nome [Hm [Hn ->]]]].
    apply df_filtrado_dates in Hm. destruct Hm as [d [Hmax [Hd Hin]]].
    unfold merge_cad in Hin. apply in_flat_map in Hin.
    destruct Hin as [w [Hw Hblock]].
    assert (Hmw : windowed m = w
                  /\ In (CNPJ_FUNDO_CLASSE (base w), DENOM_SOCIAL m) cad).
    { destruct (filter
                  (fun c => String.eqb (CNPJ_FUNDO_CLASSE (base w)) (fst c))
                  cad) as [|c found] eqn:Hf.
      - destruct Hblock as [<-|[]]. simpl in Hn. discriminate.
      - apply in_map_iff in Hblock. destruct Hblock as [c' [<- Hc']].
        split; [reflexivity|]. rewrite <- Hf in Hc'.
        apply filter_In in Hc'. destruct Hc' as [Hc' He].
        apply String.eqb_eq in He. simpl. rewrite He.
        destruct c'. exact Hc'. }
    destruct Hmw as [Hmw Hcad]. rewrite Hn in Hcad.
    exists w, nome, d. repeat split; try assumption.
    + unfold data_of in Hd. rewrite Hmw in Hd. exact Hd.
    + unfold Final.formatar, Final.colunas. rewrite Hmw.
      unfold data_of in Hd. rewrite Hmw in Hd.
      destruct w as [b c30 c90 c180]. simpl in *. rewrite Hd, Hn.
      reflexivity.
  - intros [w [nome [d [Hw [Hcad [Hd [Hmax ->]]]]]]].
    exists (mkMRow w (Some nome)), nome.
    assert (Hin : In (mkMRow w (Some nome)) (merge_cad out cad)).
    { unfold merge_cad. apply in_flat_map. exists w. split; [exact Hw|].
      assert (Hc : In (CNPJ_FUNDO_CLASSE (base w), Some nome)
                     (filter
                        (fun c => String.eqb (CNPJ_FUNDO_CLASSE (base w))
                                    (fst c)) cad)).
      { apply filter_In. split; [exact Hcad|]. simpl.
        apply String.eqb_refl. }
      destruct (filter
                  (fun c => String.eqb (CNPJ_FUNDO_CLASSE (base w)) (fst c))
                  cad) as [|c found]; [destruct Hc|].
      apply in_map_iff.
      exists (CNPJ_FUNDO_CLASSE (base w), Some nome). auto. }
    split; [|split; [reflexivity|]].
    + unfold df_filtrado. apply filter_In. split; [exact Hin|].
      rewrite Hmax. unfold data_of. simpl. rewrite Hd. simpl.
      apply Z.eqb_refl.
    + unfold Final.formatar, Final.colunas. simpl.
      destruct w as [b c30 c90 c180]. simpl in *. rewrite Hd. reflexivity.
Qed.

(** ** The pages of the PDF *)

Lemma firstn_skipn_next {A : Type} (l : list A) (a c : nat) :
  firstn a l ++ firstn c (skipn a l) = firstn (a + c) l.
Proof.
  revert l. induction a as [|a IH]; intros l; simpl; [reflexivity|].
  destruct l as [|x l]; simpl.
  - rewrite firstn_nil. reflexivity.
  - rewrite IH. reflexivity.
Qed.

Lemma chunks_concat {A : Type} (l : list A) (c m : nat) :
  List.concat
    (map (fun i => iloc l i (i + c)) (map (fun k => (k * c)%nat) (seq 0 m)))
  = firstn (m * c) l.
Proof.
  induction m as [|m IH]; [reflexivity|].
  rewrite seq_S, !map_app, concat_app, IH. simpl.
  rewrite app_nil_r. unfold iloc.
  replace (m * c + c - m * c)%nat with c by lia.
  rewrite firstn_skipn_next. f_equal. lia.
Qed.

Lemma pages_cover (n : nat) :
  (n <= (n + linhas_por_pagina - 1) / linhas_por_pagina * linhas_por_pagina)%nat.
Proof.
  unfold linhas_por_pagina.
  pose proof (Nat.div_mod_eq (n + 18 - 1) 18).
  pose proof (Nat.mod_upper_bound (n + 18 - 1) 18). lia.
Qed.

(** X19.  The pages of the PDF hold every row of the frame once, in order:
    put end to end they give the frame back. *)
Theorem paginas_cover_frame {A : Type} (df_pdf : list A) :
  List.concat (paginas df_pdf) = df_pdf.
Proof.
  unfold paginas, range_step. rewrite chunks_concat.
  apply firstn_all2. apply pages_cover.
Qed.

(** X20.  There are as many pages as the rows need at 18 rows a page (none
    for an empty frame); no page is empty, none has more than 18 rows, and
    every page before the last has exactly 18. *)
Theorem paginas_sizes {A : Type} (df_pdf : list A) :
  List.length (paginas df_pdf) = ((List.length df_pdf + 17) / 18)%nat
  /\ Forall (fun p => (1 <= List.length p <= 18)%nat) (paginas df_pdf)
  /\ forall k, (S k < List.length (paginas df_pdf))%nat ->
               List.length (nth k (paginas df_pdf) []) = 18%nat.
Proof.
  set (n := List.length df_pdf).
  assert (Hlen : List.length (paginas df_pdf) = ((n + 17) / 18)%nat).
  { unfold paginas, range_step, linhas_por_pagina.
    rewrite !length_map, length_seq. fold n. f_equal. lia. }
  pose proof (Nat.div_mod_eq (n + 17) 18) as Hdm.
  pose proof (Nat.mod_upper_bound (n + 17) 18 ltac:(lia)) as Hmod.
  assert (Hpage : forall k, (k < (n + 17) / 18)%nat ->
            nth k (paginas df_pdf) []
            = firstn 18 (skipn (k * 18) df_pdf)).
  { intros k Hk. unfold paginas, range_step, linhas_por_pagina.
    fold n. replace (n + 18 - 1)%nat with (n + 17)%nat by lia.
    set (f := fun i => iloc df_pdf i (i + 18)).
    set (g := fun j => (j * 18)%nat).
    rewrite (nth_indep _ [] (f (g 0%nat)))
      by (rewrite !length_map, length_seq; exact Hk).
    rewrite map_nth, map_nth, seq_nth by exact Hk.
    unfold f, g, iloc. replace (0 + k)%nat with k by lia.
    replace (k * 18 + 18 - k * 18)%nat with 18%nat by lia. reflexivity. }
  split; [exact Hlen|]. split.
  - apply Forall_forall. intros p Hp.
    apply (In_nth _ _ []) in Hp. destruct Hp as [k [Hk <-]].
    rewrite Hlen in Hk. rewrite (Hpage k Hk).
    rewrite length_firstn, length_skipn. fold n. lia.
  - intros k Hk. rewrite Hlen in Hk. rewrite (Hpage k ltac:(lia)).
    rewrite length_firstn, length_skipn. fold n. lia.
Qed.

(** ** From the files to the aggregated frame *)





(** ** The register of funds *)

Lemma cell_eqb_eq a b : Cadastro.cell_eqb a b = true <-> a = b.
Proof.
  destruct a as [x|], b as [y|]; simpl;
    try (split; [discriminate|congruence]).
  - rewrite String.eqb_eq. split; congruence.
  - split; reflexivity.
Qed.

Lemma par_eqb_eq p q : Cadastro.par_eqb p q = true <-> p = q.
Proof.
  destruct p as [a b], q as [c d]. unfold Cadastro.par_eqb. simpl.
  rewrite andb_true_iff, !cell_eqb_eq. split.
  - intros [-> ->]. reflexivity.
  - intros H. inversion H. auto.
Qed.

Lemma existsb_par_eqb p seen :
  existsb (Cadastro.par_eqb p) seen = true <-> In p seen.
Proof.
  rewrite existsb_exists. split.
  - intros [q [Hq Hpq]]. apply par_eqb_eq in Hpq. subst q. exact Hq.
  - intros H. exists p. split; [exact H|]. apply par_eqb_eq. reflexivity.
Qed.

Lemma drop_duplicates_from_spec seen rows :
  NoDup (Cadastro.drop_duplicates_from seen rows)
  /\ forall p, In p (Cadastro.drop_duplicates_from seen rows)
               <-> In p rows /\ ~ In p seen.
Proof.
  revert seen. induction rows as [|q rows IH]; intros seen; simpl.
  - split; [constructor|]. intros p. tauto.
  - destruct (existsb (Cadastro.par_eqb q) seen) eqn:E.
    + apply existsb_par_eqb in E. destruct (IH seen) as [Hnd Hin].
      split; [exact Hnd|]. intros p. rewrite Hin. split.
      * intros [H1 H2]. auto.
      * intros [[->|H1] H2]; [contradiction|auto].
    + assert (Hq : ~ In q seen).
      { intros H. apply existsb_par_eqb in H. congruence. }
      destruct (IH (q :: seen)) as [Hnd Hin]. split.
      * constructor; [|exact Hnd]. intros H. apply Hin in H.
        destruct H as [_ H]. apply H. left. reflexivity.
      * intros p. simpl. rewrite Hin. simpl. split.
        -- intros [<-|[H1 H2]]; [auto|]. split; [auto|]. intros H. apply H2. auto.
        -- intros [[<-|H1] H2]; [auto|].
           destruct (Cadastro.par_eqb q p) eqn:Eqp.
           ++ apply par_eqb_eq in Eqp. auto.
           ++ right. split; [exact H1|]. intros [H|H]; [|contradiction].
              subst p. assert (Cadastro.par_eqb q q = true)
                by (apply par_eqb_eq; reflexivity). congruence.
Qed.

(** X22.  [drop_duplicates] keeps one copy of every register row and
    nothing else: its result has no repeated row and holds exactly the rows
    of its input. *)
Theorem drop_duplicates_spec (rows : list (option string * option string)) :
  NoDup (Cadastro.drop_duplicates rows)
  /\ forall p, In p (Cadastro.drop_duplicates rows) <-> In p rows.
Proof.
  unfold Cadastro.drop_duplicates.
  destruct (drop_duplicates_from_spec [] rows) as [Hnd Hin].
  split; [exact Hnd|]. intros p. rewrite Hin. simpl. tauto.
Qed.

Lemma filter_two {A : Type} (f : A -> bool) (l : list A) p q :
  NoDup l -> In p l -> In q l -> p <> q ->
  f p = true -> f q = true ->
  (2 <= List.length (filter f l))%nat.
Proof.
  intros Hnd Hp Hq Hne Hfp Hfq.
  apply in_split in Hp. destruct Hp as [l1 [l2 ->]].
  assert (Hq' : In q (l1 ++ l2)).
  { apply in_app_or in Hq. apply in_or_app.
    destruct Hq as [H|[H|H]]; auto. congruence. }
  rewrite filter_app. simpl. rewrite Hfp. rewrite length_app. simpl.
  assert (Hone : (1 <= List.length (filter f l1)
                       + List.length (filter f l2))%nat).
  { apply in_app_or in Hq'. destruct Hq' as [H|H].
    - assert (In q (filter f l1)) as Hin by (apply filter_In; auto).
      destruct (filter f l1); [destruct Hin|simpl; lia].
    - assert (In q (filter f l2)) as Hin by (apply filter_In; auto).
      destruct (filter f l2); [destruct Hin|simpl; lia]. }
  lia.
Qed.

(** X23.  Duplicates are dropped from the register before its numbers are
    normalised, so two different rows whose numbers normalise alike both
    stay: the fund then has two entries, and the join doubles its rows. *)
Theorem df_cad_keeps_respelled_entries
    (cad : list (option string * option string))
    (p q : option string * option string) :
  In p cad -> In q cad -> p <> q ->
  Carga.normaliza_cnpj (fst p) = Carga.normaliza_cnpj (fst q) ->
  (2 <= List.length
          (Cadastro.do_cadastro (Carga.normaliza_cnpj (fst p))
             (Cadastro.df_cad cad)))%nat.
Proof.
  intros Hp Hq Hne Hsame.
  destruct (drop_duplicates_from_spec [] cad) as [Hnd Hin].
  fold (Cadastro.drop_duplicates cad) in Hnd, Hin.
  unfold Cadastro.do_cadastro, Cadastro.df_cad.
  rewrite filter_map_swap, length_map.
  apply (filter_two _ _ p q); try assumption.
  - apply Hin. simpl. tauto.
  - apply Hin. simpl. tauto.
  - simpl. apply String.eqb_refl.
  - simpl. rewrite Hsame. apply String.eqb_refl.
Qed.

Lemma df_cad_keeps_respelled_entries_witness :
  (2 <= List.length
          (Cadastro.do_cadastro fundo_A
             (Cadastro.df_cad
                [ (Some "00.000.000/0001-91"%string, Some "FUNDO A"%string);
                  (Some "00000000000191"%string, Some "FUNDO A"%string) ])))%nat.
Proof.
  apply (df_cad_keeps_respelled_entries
           [ (Some "00.000.000/0001-91"%string, Some "FUNDO A"%string);
             (Some "00000000000191"%string, Some "FUNDO A"%string) ]
           (Some "00.000.000/0001-91"%string, Some "FUNDO A"%string)
           (Some "00000000000191"%string, Some "FUNDO A"%string)).
  - left. reflexivity.
  - right. left. reflexivity.
  - discriminate.
  - reflexivity.
Defined.
